(** * Expert routing of the Mixture-of-Experts layer

    A shallow embedding of [megatron/core/transformer/moe/router.py]:
    the [Router] base class, [TopKRouter] with its load-balancing
    strategies, and [grouped_router].

    Tensors are lists of rows carrying their dtype and whether they are
    attached to the autograd graph.  The scalar arithmetic (and the
    rounding done by a precision conversion) is an interface, [Scalar]:
    the structural results hold for every implementation of it, the
    numerical ones for the implementations that satisfy [ScalarLaws].
    An executable instance over the rationals, [QScalar], is used to run
    the router on concrete inputs. *)

From Stdlib Require Import String Ascii List Bool Arith Lia Permutation.
From Stdlib Require Import QArith Qreduction Qround Lqa.
Import ListNotations.

Set Implicit Arguments.
Local Open Scope string_scope.
Local Open Scope list_scope.
Local Open Scope nat_scope.

(** ** Errors and the two monads *)

Inductive Error : Type :=
| AssertionError (msg : string)
| ValueError (msg : string)
| NotImplementedError
| RuntimeError (msg : string)
| ZeroDivisionError.

(** A computation that may raise. *)
Definition result (A : Type) : Type := (Error + A)%type.

Definition ok {A} (a : A) : result A := inr a.
Definition raise {A} (e : Error) : result A := inl e.

Definition rbind {A B} (m : result A) (k : A -> result B) : result B :=
  match m with
  | inl e => inl e
  | inr a => k a
  end.

Declare Scope result_scope.
Delimit Scope result_scope with res.
Notation "x <- m ;; k" := (rbind m (fun x => k))
  (at level 61, m at next level, right associativity) : result_scope.
Notation "' p <- m ;; k" := (rbind m (fun x => let p := x in k))
  (at level 61, p pattern, m at next level, right associativity) : result_scope.

Fixpoint rmap {A B} (f : A -> result B) (l : list A) : result (list B) :=
  match l with
  | [] => ok []
  | a :: l' =>
      (b <- f a ;; bs <- rmap f l' ;; ok (b :: bs))%res
  end.

(** ** Element types *)

Inductive DType : Type := BFloat16 | Float16 | Float32 | Float64.

Definition DType_eqb (a b : DType) : bool :=
  match a, b with
  | BFloat16, BFloat16 | Float16, Float16
  | Float32, Float32 | Float64, Float64 => true
  | _, _ => false
  end.

(** [torch.promote_types] on the floating dtypes. *)
Definition promote_types (a b : DType) : DType :=
  match a, b with
  | Float64, _ | _, Float64 => Float64
  | Float32, _ | _, Float32 => Float32
  | BFloat16, BFloat16 => BFloat16
  | Float16, Float16 => Float16
  | _, _ => Float32
  end.

(** The arithmetic of tensor elements.  [cast d x] is [x] converted to
    the precision [d]; [ltb] and [eqb] are the comparisons [<] and [==]. *)
Class Scalar : Type := {
  F : Type;
  zero : F;
  one : F;
  add : F -> F -> F;
  sub : F -> F -> F;
  mul : F -> F -> F;
  div : F -> F -> F;
  ltb : F -> F -> bool;
  eqb : F -> F -> bool;
  exp : F -> F;
  cast : DType -> F -> F;
  of_nat : nat -> F
}.

Section Tensors.
Context {Sc : Scalar}.

Definition neg (x : F) : F := sub zero x.

(** [torch.sigmoid] on one element. *)
Definition sigmoid1 (x : F) : F := div one (add one (exp (neg x))).

Definition sum_list (l : list F) : F := fold_right add zero l.

(** A two-dimensional floating tensor. *)
Record Tensor : Type := mkTensor {
  dtype : DType;
  requires_grad : bool;
  data : list (list F)
}.

(** Integer tensors (expert ids, one-hot masks) carry no gradient. *)
Definition ITensor : Type := list (list nat).

Definition map_data (f : F -> F) (t : Tensor) : Tensor :=
  mkTensor (dtype t) (requires_grad t) (map (map f) (data t)).

(** [t.to(dtype=d)] and [t.type_as(other)]. *)
Definition to_dtype (d : DType) (t : Tensor) : Tensor :=
  mkTensor d (requires_grad t) (map (map (cast d)) (data t)).

Definition type_as (t other : Tensor) : Tensor := to_dtype (dtype other) t.

(** The result of a [with torch.no_grad():] block is cut from the graph. *)
Definition no_grad (t : Tensor) : Tensor :=
  mkTensor (dtype t) false (data t).

Definition sigmoid (t : Tensor) : Tensor := map_data sigmoid1 t.

Definition softmax_row (l : list F) : list F :=
  let e := map exp l in
  let s := sum_list e in
  map (fun x => div x s) e.

(** [torch.softmax(t, dim=-1, dtype=d)]: the input is converted to [d]
    before the normalisation, and the result has dtype [d]. *)
Definition softmax (t : Tensor) (d : DType) : Tensor :=
  mkTensor d (requires_grad t)
    (map (fun r => softmax_row (map (cast d) r)) (data t)).

(** *** Shapes *)

Definition shape (rows : list (list F)) : nat * nat :=
  (length rows, length (hd [] rows)).

Fixpoint chunks {A} (fuel n : nat) (l : list A) : list (list A) :=
  match fuel with
  | 0 => []
  | S fuel' =>
      match l with
      | [] => []
      | _ :: _ => firstn n l :: chunks fuel' n (skipn n l)
      end
  end.

(** [x.view(-1, ncols)] on the row-major elements [flat] of [x]. *)
Definition view2 {A} (flat : list A) (ncols : nat) : result (list (list A)) :=
  if ncols =? 0 then raise (RuntimeError "view: ambiguous or invalid shape")
  else if length flat mod ncols =? 0
       then ok (chunks (length flat) ncols flat)
       else raise (RuntimeError "view: shape is invalid for input size").

(** [x.view(-1, d1, d2)]. *)
Definition view3 {A} (flat : list A) (d1 d2 : nat)
  : result (list (list (list A))) :=
  (inner <- view2 flat d2 ;; view2 inner d1)%res.

(** *** top-k *)

(** Insert [p] in a list sorted by decreasing value, before the first
    entry that is not larger than it. *)
Fixpoint insert_desc (p : nat * F) (l : list (nat * F)) : list (nat * F) :=
  match l with
  | [] => [p]
  | q :: l' =>
      if ltb (snd p) (snd q) then q :: insert_desc p l' else p :: l
  end.

Fixpoint sort_desc (l : list (nat * F)) : list (nat * F) :=
  match l with
  | [] => []
  | p :: l' => insert_desc p (sort_desc l')
  end.

Definition enumerate (l : list F) : list (nat * F) :=
  combine (seq 0 (length l)) l.

(** [torch.topk(row, k)]: the [k] largest entries in decreasing order
    with their positions.  torch leaves the order among equal entries
    unspecified; this model fixes it, the earlier position first, so
    only what holds for every order of the ties, or what uses the same
    sort on both sides, carries over to the code.  Raises when [k]
    exceeds the length of the row. *)
Definition topk_row (k : nat) (l : list F) : result (list (nat * F)) :=
  if k <=? length l
  then ok (firstn k (sort_desc (enumerate l)))
  else raise (RuntimeError "selected index k out of range").

(** [torch.topk(t, k=k, dim=1)] on the rows of a matrix.  A matrix is
    the list of its rows, so one without rows has no width to compare
    [k] with: the model returns on it for every [k], where torch raises
    when [k] exceeds the width. *)
Definition topk_rows (k : nat) (rows : list (list F))
  : result (list (list F) * ITensor) :=
  (sel <- rmap (topk_row k) rows ;;
   ok (map (map snd) sel, map (map fst) sel))%res.

Definition topk (t : Tensor) (k : nat) : result (Tensor * ITensor) :=
  ('(v, i) <- topk_rows k (data t) ;;
   ok (mkTensor (dtype t) (requires_grad t) v, i))%res.

(** *** gather, one_hot, scatter *)

Definition gather_row (row : list F) (idx : list nat) : result (list F) :=
  rmap (fun i => match nth_error row i with
                 | Some x => ok x
                 | None => raise (RuntimeError "gather: index out of bounds")
                 end) idx.

Fixpoint gather_rows (rows : list (list F)) (idx : ITensor)
  : result (list (list F)) :=
  match idx, rows with
  | [], _ => ok []
  | i :: idx', r :: rows' =>
      (g <- gather_row r i ;; gs <- gather_rows rows' idx' ;; ok (g :: gs))%res
  | _ :: _, [] => raise (RuntimeError "gather: index larger than input")
  end.

(** [torch.gather(t, 1, idx)]. *)
Definition gather (t : Tensor) (idx : ITensor) : result Tensor :=
  (g <- gather_rows (data t) idx ;;
   ok (mkTensor (dtype t) (requires_grad t) g))%res.

(** One row of [one_hot(idx, num_classes).sum(dim=1)]: how many times
    each class occurs in [idx]. *)
Definition one_hot_sum_row (num_classes : nat) (idx : list nat)
  : result (list nat) :=
  if forallb (fun i => i <? num_classes) idx
  then ok (map (fun c => count_occ Nat.eq_dec idx c) (seq 0 num_classes))
  else raise (RuntimeError "one_hot: class values must be smaller than num_classes").

Definition one_hot_sum (num_classes : nat) (idx : ITensor) : result ITensor :=
  rmap (one_hot_sum_row num_classes) idx.

Fixpoint update {A} (l : list A) (i : nat) (x : A) : list A :=
  match l, i with
  | [], _ => []
  | _ :: l', 0 => x :: l'
  | a :: l', S i' => a :: update l' i' x
  end.

(** [row.scatter_(-1, idx, src)] on one row: [row[idx[j]] = src[j]] for
    every position [j] of [idx], in order. *)
Fixpoint scatter_row (row : list F) (idx : list nat) (src : list F)
  : result (list F) :=
  match idx, src with
  | [], _ => ok row
  | i :: idx', x :: src' =>
      if i <? length row
      then scatter_row (update row i x) idx' src'
      else raise (RuntimeError "scatter: index out of bounds")
  | _ :: _, [] => raise (RuntimeError "scatter: index larger than src")
  end.

Fixpoint scatter_rows (rows : list (list F)) (idx : ITensor)
  (src : list (list F)) : result (list (list F)) :=
  match idx, rows, src with
  | [], _, _ => ok rows
  | i :: idx', r :: rows', s :: src' =>
      (r' <- scatter_row r i s ;;
       rs <- scatter_rows rows' idx' src' ;;
       ok (r' :: rs))%res
  | _ :: _, _, _ => raise (RuntimeError "scatter: index larger than self or src")
  end.

Definition zeros_like (t : Tensor) : Tensor :=
  mkTensor (dtype t) false (map (map (fun _ => zero)) (data t)).

(** [t.scatter_(-1, idx, src)]; the result joins the graph of [src]. *)
Definition scatter_ (t : Tensor) (idx : ITensor) (src : Tensor)
  : result Tensor :=
  (rows <- scatter_rows (data t) idx (data src) ;;
   ok (mkTensor (dtype t) (requires_grad t || requires_grad src) rows))%res.

(** *** Reductions *)

Fixpoint add_rows (a b : list F) : list F :=
  match a, b with
  | x :: a', y :: b' => add x y :: add_rows a' b'
  | _, _ => []
  end.

(** [t.mean(0)]: the mean over the rows of each column. *)
Definition mean0 (rows : list (list F)) : list F :=
  match rows with
  | [] => []
  | r :: rows' =>
      map (fun x => div x (of_nat (length rows)))
          (fold_left add_rows rows' r)
  end.

Fixpoint dot (a b : list F) : F :=
  match a, b with
  | x :: a', y :: b' => add (mul x y) (dot a' b')
  | _, _ => zero
  end.

End Tensors.

(** ** Collaborators from [moe_utils] and [transformer.utils] *)

(** Modelled from the spec: the numeric kernels of
    [megatron.core.transformer.moe.moe_utils], which the router imports
    and whose code is not part of the router file.  [sinkhorn] is the
    iterative doubly-stochastic normalisation, [switch_load_balancing_loss_func]
    the balancing loss of (probabilities, selection mask, coefficient),
    [z_loss_func] the z-loss of (logits, coefficient), and
    [mask_fill_value] the large negative value that [attention_mask_func]
    writes on the masked positions. *)
Class MoEUtils {Sc : Scalar} : Type := {
  sinkhorn : list (list F) -> list (list F);
  switch_load_balancing_loss_func :
    list (list F) -> list (list nat) -> F -> F;
  z_loss_func : list (list F) -> F -> F;
  mask_fill_value : F
}.

Declare Scope method_scope.

Section Router.
Context {Sc : Scalar} {U : MoEUtils}.

(** ** Configuration *)

(** The fields of [TransformerConfig] that the router reads. *)
Record TransformerConfig : Type := mkConfig {
  num_moe_experts : nat;
  hidden_size : nat;
  moe_groupedmoe : bool;
  sequence_parallel : bool;
  init_method : list (list F) -> list (list F);
  moe_token_dropping : bool;
  moe_router_topk : nat;
  moe_router_load_balancing_type : string;
  moe_router_type : string;
  moe_aux_loss_type : string;
  moe_aux_loss_coeff : F;
  moe_z_loss_coeff : option F;
  moe_input_jitter_eps : option F;
  moe_dropout : option F;
  moe_group_size : nat
}.

(** ** Objects *)

(** The gate weight, a [torch.nn.Parameter], with the attributes that
    [Router.__init__] sets on it. *)
Record GateWeight : Type := mkWeight {
  weight_tensor : Tensor;
  attr_allreduce : option bool;
  attr_sequence_parallel : option bool
}.

Definition LossFunc : Type := list (list F) -> list (list nat) -> F -> F.

(** An instance after [Router.__init__]. *)
Record Router : Type := mkRouter {
  config : TransformerConfig;
  num_experts : nat;
  base_moe_aux_loss_func : option LossFunc;
  weight : GateWeight
}.

(** An instance after [TopKRouter.__init__]; [training] is the mode flag
    of [torch.nn.Module]. *)
Record TopKRouter : Type := mkTopKRouter {
  base : Router;
  topk_ : nat;
  routing_type : string;
  moe_aux_loss_func : LossFunc;
  training : bool
}.

(** What a call can change: the lazily built jitter sampler (its bounds
    [low], [high]), [self.hidden], the process-wide random state (a stream
    of uniform draws in [0, 1) and how many were consumed), and the
    losses handed to [MoEAuxLossAutoScaler.apply], latest first. *)
Record RouterState : Type := mkState {
  input_jitter : option (F * F);
  hidden : option nat;
  rng_stream : nat -> F;
  rng_pos : nat;
  aux_losses : list F
}.

(** State after [TopKRouter.__init__]: [self.input_jitter = None]. *)
Definition initial_state (stream : nat -> F) : RouterState :=
  mkState None None stream 0 [].

(** Computations of a method: may raise, and change the state up to the
    point where they raise. *)
Definition M (A : Type) : Type := RouterState -> result A * RouterState.

Definition ret {A} (a : A) : M A := fun s => (ok a, s).
Definition throw {A} (e : Error) : M A := fun s => (raise e, s).
Definition lift {A} (r : result A) : M A := fun s => (r, s).

Definition bind {A B} (m : M A) (k : A -> M B) : M B :=
  fun s =>
    match m s with
    | (inl e, s') => (inl e, s')
    | (inr a, s') => k a s'
    end.

Delimit Scope method_scope with M.
Notation "x <- m ;; k" := (bind m (fun x => k))
  (at level 61, m at next level, right associativity) : method_scope.
Notation "' p <- m ;; k" := (bind m (fun x => let p := x in k))
  (at level 61, p pattern, m at next level, right associativity) : method_scope.

(** ** Random draws *)

(** [n] successive draws of the stream from position [pos]. *)
Definition draws (stream : nat -> F) (pos n : nat) : list F :=
  map stream (seq pos n).

(** [torch.rand(shape)]: one draw per element, row by row. *)
Definition rand (sh : nat * nat) : M (list (list F)) :=
  fun s =>
    let '(rows, cols) := sh in
    (ok (map (fun r => draws (rng_stream s) (rng_pos s + r * cols) cols)
             (seq 0 rows)),
     mkState (input_jitter s) (hidden s) (rng_stream s)
             (rng_pos s + rows * cols) (aux_losses s)).

(** [Uniform(low, high).rsample(shape)]. *)
Definition rsample (low high : F) (sh : nat * nat) : M Tensor :=
  (u <- rand sh ;;
   ret (mkTensor Float32 false
          (map (map (fun x => add low (mul x (sub high low)))) u)))%M.

(** [torch.empty_like(t).bernoulli_(p).bool()]: an element is set when
    its draw is below [p]. *)
Definition bernoulli_mask (t : Tensor) (p : F) : M (list (list bool)) :=
  if ltb p zero || ltb one p
  then throw (RuntimeError "bernoulli_ expects p to be in [0, 1]")
  else (u <- rand (shape (data t)) ;;
        ret (map (map (fun x => ltb x p)) u))%M.

(** ** Helpers of the router *)

(** Modelled from the spec: [MoEAuxLossAutoScaler.apply(value, loss)], the
    gradient pass-through wrapper; it forwards [value] untouched and keeps
    [loss] for the backward pass. *)
Definition MoEAuxLossAutoScaler_apply (value : Tensor) (loss : F) : M Tensor :=
  fun s =>
    (ok value,
     mkState (input_jitter s) (hidden s) (rng_stream s) (rng_pos s)
             (loss :: aux_losses s)).

Fixpoint mask_row (row : list F) (mask : list bool) (v : F) : list F :=
  match row, mask with
  | x :: row', b :: mask' => (if b then v else x) :: mask_row row' mask' v
  | _, _ => row
  end.

Fixpoint mask_rows (rows : list (list F)) (mask : list (list bool)) (v : F)
  : list (list F) :=
  match rows, mask with
  | r :: rows', m :: mask' => mask_row r m v :: mask_rows rows' mask' v
  | _, _ => rows
  end.

(** Modelled from the spec: [attention_mask_func(logits, mask)] overwrites
    the masked positions with a large negative value. *)
Definition attention_mask_func (t : Tensor) (mask : list (list bool)) : Tensor :=
  mkTensor (dtype t) (requires_grad t)
    (mask_rows (data t) mask (cast (dtype t) mask_fill_value)).

(** [a * b] for two tensors of the same shape, with type promotion. *)
Definition mul_tensor (a b : Tensor) : Tensor :=
  let d := promote_types (dtype a) (dtype b) in
  mkTensor d (requires_grad a || requires_grad b)
    (map (fun '(ra, rb) =>
            map (fun '(x, y) => mul (cast d x) (cast d y)) (combine ra rb))
         (combine (data a) (data b))).

(** [s in t] on strings. *)
Fixpoint contains (sub s : string) : bool :=
  if prefix sub s then true
  else match s with
       | EmptyString => false
       | String _ s' => contains sub s'
       end.

(** [torch.arange(0, stop, step)]. *)
Definition arange (stop step : nat) : result (list nat) :=
  if step =? 0 then raise (RuntimeError "arange: step must be nonzero")
  else ok (map (fun i => i * step) (seq 0 ((stop + step - 1) / step))).

(** [indices + offsets.view(1, -1, 1)] with broadcasting, [indices] of
    shape (rows, groups, picks). *)
Definition add_offsets (indices : list (list (list nat))) (offsets : list nat)
  : result (list (list (list nat))) :=
  rmap (fun groups =>
          if length groups =? length offsets
          then ok (map (fun '(g, o) => map (fun i => i + o) g)
                       (combine groups offsets))
          else match offsets, groups with
               | [o], _ => ok (map (map (fun i => i + o)) groups)
               | _, [g] => ok (map (fun o => map (fun i => i + o) g) offsets)
               | _, _ => raise (RuntimeError "tensor sizes must match")
               end) indices.

(** ** [grouped_router] *)

Definition grouped_router (logits : Tensor)
  (num_moe_experts topk moe_group_size : nat)
  : result (Tensor * Tensor * ITensor) :=
  let probs := softmax logits Float32 in
  if moe_group_size =? 0 then raise ZeroDivisionError
  else
    let group_num_experts := num_moe_experts / moe_group_size in
    let group_topk := topk / moe_group_size in
    (grouped <- view3 (concat (data probs)) moe_group_size group_num_experts ;;
     sel <- rmap (rmap (topk_row group_topk)) grouped ;;
     let scores3 := map (map (map snd)) sel in
     let indices := map (map (map fst)) sel in
     scores <- view2 (concat (concat scores3)) topk ;;
     offsets <- arange num_moe_experts group_num_experts ;;
     adjusted3 <- add_offsets indices offsets ;;
     adjusted_indices <- view2 (concat (concat adjusted3)) topk ;;
     ok (probs, mkTensor Float32 (requires_grad logits) scores,
         adjusted_indices))%res.

(** ** [Router] *)

(** [torch.empty(shape)], whose content [init_method] overwrites. *)
Definition empty (rows cols : nat) : list (list F) :=
  repeat (repeat zero cols) rows.

(** [Router.__init__]. *)
Definition Router_init (cfg : TransformerConfig) : Router :=
  let w := mkTensor Float32 true
             (init_method cfg (empty (num_moe_experts cfg) (hidden_size cfg))) in
  mkRouter cfg (num_moe_experts cfg) None
    (if moe_groupedmoe cfg
     then mkWeight w (Some true) None
     else mkWeight w None (Some (sequence_parallel cfg))).

(** [torch.nn.functional.linear(input, weight)], no bias. *)
Definition linear (input w : Tensor) : result Tensor :=
  if negb (DType_eqb (dtype input) (dtype w))
  then raise (RuntimeError "linear: expected both tensors to have the same dtype")
  else
    let cols := length (hd [] (data w)) in
    if forallb (fun r => length r =? cols) (data input)
    then ok (mkTensor (dtype input) (requires_grad input || requires_grad w)
               (map (fun x => map (fun wr => dot x wr) (data w)) (data input)))
    else raise (RuntimeError "linear: shapes cannot be multiplied").

Section Methods.
Variable self : TopKRouter.

Let cfg : TransformerConfig := config (base self).

(** [Router.gating]. *)
Definition gating (input : Tensor) : result Tensor :=
  linear input (weight_tensor (weight (base self))).

(** [t.view(-1, n)] on a tensor. *)
Definition view (t : Tensor) (n : nat) : result Tensor :=
  (rows <- view2 (concat (data t)) n ;;
   ok (mkTensor (dtype t) (requires_grad t) rows))%res.

(** [TopKRouter.apply_aux_loss]. *)
Definition apply_aux_loss (loss_func : LossFunc) (probs : Tensor)
  (indices : ITensor) (activation : Tensor) : M Tensor :=
  (mask <- lift (one_hot_sum (num_experts (base self)) indices) ;;
   let aux_loss := loss_func (data probs) mask (moe_aux_loss_coeff cfg) in
   MoEAuxLossAutoScaler_apply activation aux_loss)%M.

(** [TopKRouter.apply_z_loss]. *)
Definition apply_z_loss (logits : Tensor) : M Tensor :=
  match moe_z_loss_coeff cfg with
  | Some c =>
      let z_loss := z_loss_func (data logits) c in
      MoEAuxLossAutoScaler_apply logits z_loss
  | None => ret logits
  end.

(** [TopKRouter.apply_input_jitter].  On the first use the sampler is
    built by [torch.distributions.uniform.Uniform(low, high)], which
    validates its arguments and raises unless [low < high] holds for the
    two bounds as float32 tensors; [self.input_jitter] is then left
    unset. *)
Definition apply_input_jitter (input : Tensor) : M Tensor :=
  match moe_input_jitter_eps cfg with
  | Some eps =>
      (sampler <-
         (fun s =>
            match input_jitter s with
            | None =>
                let b := (cast Float32 (sub one eps),
                          cast Float32 (add one eps)) in
                if ltb (fst b) (snd b)
                then (ok b, mkState (Some b) (hidden s) (rng_stream s)
                                    (rng_pos s) (aux_losses s))
                else (raise (ValueError
                               "Uniform is not defined when low>= high"), s)
            | Some b => (ok b, s)
            end) ;;
       noise <- rsample (fst sampler) (snd sampler) (shape (data input)) ;;
       ret (mul_tensor input noise))%M
  | None => ret input
  end.

(** The local function [_sinkhorn_activation]. *)
Definition _sinkhorn_activation (logits : Tensor) : Tensor :=
  if topk_ self =? 1
  then sigmoid logits
  else type_as (softmax logits Float32) logits.

(** The [with torch.no_grad():] block of [sinkhorn_load_balancing], with
    the two locals that it binds, [norm_logits] and [indices]; what the
    block computes is cut from the graph. *)
Definition sinkhorn_no_grad (logits : Tensor) : result (Tensor * ITensor) :=
  let l32 := to_dtype Float32 logits in
  let norm_logits :=
    no_grad (mkTensor (dtype l32) (requires_grad l32) (sinkhorn (data l32))) in
  ('(_, indices) <- topk norm_logits (topk_ self) ;;
   ok (norm_logits, indices))%res.

(** [TopKRouter.sinkhorn_load_balancing]. *)
Definition sinkhorn_load_balancing (logits : Tensor) : M (Tensor * ITensor) :=
  if negb (eqb (moe_aux_loss_coeff cfg) zero)
  then throw (AssertionError "Sinkhorn routing does not support aux loss.")
  else if training self
  then
    ('(norm_logits, indices) <- lift (sinkhorn_no_grad logits) ;;
     let logits := _sinkhorn_activation logits in
     scores <- lift (gather logits indices) ;;
     ret (scores, indices))%M
  else
    let logits := _sinkhorn_activation logits in
    lift (topk logits (topk_ self)).

(** [TopKRouter.sigmoid_load_balancing]. *)
Definition sigmoid_load_balancing (logits : Tensor) : M (Tensor * ITensor) :=
  (logits <-
     (match moe_dropout cfg with
      | Some p =>
          (* [moe_dropout] is truthy: neither [None] nor [0.0] *)
          if negb (eqb p zero) && training self
          then (mask <- bernoulli_mask logits p ;;
                ret (attention_mask_func logits mask))
          else ret logits
      | None => ret logits
      end) ;;
   let probs := sigmoid logits in
   '(scores, indices) <- lift (topk probs (topk_ self)) ;;
   scores <- apply_aux_loss (moe_aux_loss_func self)
               (softmax logits Float32) indices scores ;;
   ret (scores, indices))%M.

(** [TopKRouter.aux_loss_load_balancing]. *)
Definition aux_loss_load_balancing (logits : Tensor) : M (Tensor * ITensor) :=
  ('(probs, scores, indices) <-
     (if String.eqb (moe_router_type cfg) "mixtral" then
        ('(top_logits, indices) <- lift (topk logits (topk_ self)) ;;
         let scores := type_as (softmax top_logits Float32) logits in
         let probs := softmax logits Float32 in
         ret (probs, scores, indices))
      else if String.eqb (moe_router_type cfg) "st" then
        (let probs := type_as (softmax logits Float32) logits in
         '(scores, indices) <- lift (topk probs (topk_ self)) ;;
         ret (probs, scores, indices))
      else if String.eqb (moe_router_type cfg) "grouped" then
        lift (grouped_router logits (num_moe_experts cfg) (topk_ self)
                (moe_group_size cfg))
      else throw NotImplementedError) ;;
   scores <- apply_aux_loss (moe_aux_loss_func self) probs indices scores ;;
   ret (scores, indices))%M.

(** The value [coeff * N * scattered.mean(0) @ probs.mean(0)]; [*] and
    [@] associate to the left. *)
Definition btx_aux_loss (scattered probs : list (list F)) : F :=
  let c := mul (moe_aux_loss_coeff cfg) (of_nat (num_moe_experts cfg)) in
  dot (map (mul c) (mean0 scattered)) (mean0 probs).

(** The scatter-reconstruction of [btx_aux_loss_load_balancing]: the
    top-k softmax values back at their expert positions in a zero tensor,
    under [torch.no_grad()] in the [btx_nograd] mode. *)
Definition btx_scattered (probs : Tensor) (indices : ITensor)
  (scores32 : Tensor) : result Tensor :=
  if String.eqb (moe_aux_loss_type cfg) "btx_nograd"
  then (t <- scatter_ (zeros_like probs) indices scores32 ;; ok (no_grad t))%res
  else scatter_ (zeros_like probs) indices scores32.

(** [TopKRouter.btx_aux_loss_load_balancing]. *)
Definition btx_aux_loss_load_balancing (logits : Tensor)
  : M (Tensor * ITensor) :=
  ('(top_logits, indices) <- lift (topk logits (topk_ self)) ;;
   let scores32 := softmax top_logits Float32 in
   let probs := softmax logits Float32 in
   top_logits_scattered <- lift (btx_scattered probs indices scores32) ;;
   let aux_loss := btx_aux_loss (data top_logits_scattered) (data probs) in
   let scores := type_as scores32 logits in
   scores <- MoEAuxLossAutoScaler_apply scores aux_loss ;;
   ret (scores, indices))%M.

(** [TopKRouter.routing]. *)
Definition routing (logits : Tensor) : M (Tensor * ITensor) :=
  (logits <- lift (view logits (num_moe_experts cfg)) ;;
   logits <- apply_z_loss logits ;;
   logits <- apply_input_jitter logits ;;
   if String.eqb (routing_type self) "sinkhorn" then
     sinkhorn_load_balancing logits
   else if String.eqb (routing_type self) "aux_loss" then
     if String.eqb (moe_aux_loss_type cfg) "switch" then
       aux_loss_load_balancing logits
     else if contains "btx" (moe_aux_loss_type cfg) then
       btx_aux_loss_load_balancing logits
     else throw (ValueError (String.append "Unsupported aux loss type: "
                                              (moe_aux_loss_type cfg)))
   else if String.eqb (routing_type self) "none" then
     ('(top_logits, indices) <- lift (topk logits (topk_ self)) ;;
      let scores := type_as (softmax top_logits Float32) logits in
      ret (scores, indices))
   else if String.eqb (routing_type self) "sigmoid" then
     sigmoid_load_balancing logits
   else throw (ValueError (String.append "Unsupported MoE routing type: "
                                            (routing_type self))))%M.

(** [Router.forward]. *)
Definition forward (input : Tensor) : M (Tensor * ITensor) :=
  (_ <- (fun s => (ok tt,
                   mkState (input_jitter s)
                           (Some (length (hd [] (data input))))
                           (rng_stream s) (rng_pos s) (aux_losses s))) ;;
   logits <- lift (gating input) ;;
   logits <- lift (view logits (num_moe_experts cfg)) ;;
   routing logits)%M.

End Methods.

(** ** [TopKRouter.__init__] *)

(** How [TopKRouter.__init__] ends: it raises, leaving the instance as
    [Router.__init__] built it, or it completes the instance. *)
Inductive InitOutcome : Type :=
| InitRaised (e : Error) (partial : Router)
| InitOk (r : TopKRouter) (s : RouterState).

Definition TopKRouter_init (cfg : TransformerConfig) (stream : nat -> F)
  : InitOutcome :=
  let b := Router_init cfg in
  if negb (moe_token_dropping cfg)
  then InitOk (mkTopKRouter b (moe_router_topk cfg)
                 (moe_router_load_balancing_type cfg)
                 switch_load_balancing_loss_func true)
              (initial_state stream)
  else InitRaised (AssertionError "") b.

End Router.

Delimit Scope method_scope with M.
Notation "x <- m ;; k" := (bind m (fun x => k))
  (at level 61, m at next level, right associativity) : method_scope.
Notation "' p <- m ;; k" := (bind m (fun x => let p := x in k))
  (at level 61, p pattern, m at next level, right associativity) : method_scope.

(** ** An executable instance: exact rational arithmetic *)

Module QInstance.

Local Open Scope Q_scope.

(** Kernels that do not end in a rational (series, iterations) are kept
    to 40 fractional bits, rounded up, so that positive stays positive. *)
Definition round40 (x : Q) : Q :=
  Qred (Qmake (Qceiling (x * inject_Z (2 ^ 40))) (2 ^ 40)).

(** The exponential series up to degree [n], in Horner form from the
    coefficient of degree [k]. *)
Fixpoint exp_horner (n : nat) (k : positive) (x : Q) : Q :=
  match n with
  | O => 1
  | S n' => round40 (1 + x / inject_Z (Zpos k) * exp_horner n' (Pos.succ k) x)
  end.

Definition exp_degree : nat := 16.

(** [exp x] by its series for [0 <= x], and as [1 / exp (-x)] below. *)
Definition Qexp (x : Q) : Q :=
  if Qle_bool 0 x then exp_horner exp_degree 1 x
  else round40 (/ exp_horner exp_degree 1 (- x)).

#[export] Instance QScalar : Scalar := {|
  F := Q;
  zero := 0;
  one := 1;
  add := fun a b => Qred (a + b);
  sub := fun a b => Qred (a - b);
  mul := fun a b => Qred (a * b);
  div := fun a b => Qred (a / b);
  ltb := fun a b => negb (Qle_bool b a);
  eqb := Qeq_bool;
  exp := Qexp;
  cast := fun _ x => x;
  of_nat := fun n => inject_Z (Z.of_nat n)
|}.

(** The logarithm by the series of [2 artanh ((x - 1) / (x + 1))]. *)
Fixpoint artanh_series (n : nat) (k : positive) (y p : Q) : Q :=
  match n with
  | O => 0
  | S n' => Qred (p / inject_Z (Zpos k)
                  + artanh_series n' (Pos.succ (Pos.succ k)) y (Qred (p * y * y)))
  end.

Definition Qlog (x : Q) : Q :=
  let y := Qred ((x - 1) / (x + 1)) in
  round40 (2 * artanh_series 12 1 y y).

Definition Qmean (l : list Q) : Q :=
  Qred (fold_right Qplus 0 l / inject_Z (Z.of_nat (length l))).

Definition Qabs' (x : Q) : Q := if Qle_bool 0 x then x else Qred (- x).

(** One sweep of the sinkhorn loop on the matrix [cost]: the new row
    scaling [d0] from the column scaling [d1], then the new [d1]. *)
Definition sinkhorn_sweep (cost : list (list Q)) (d1 : list Q)
  : list Q * list Q :=
  let eps := 1 # 100000000 in
  let n0 := inject_Z (Z.of_nat (length cost)) in
  let n1 := inject_Z (Z.of_nat (length d1)) in
  let d0 := map (fun row => round40 (1 / n0 * 1 / (dot d1 row + eps))) cost in
  let col_sums :=
    fold_right (fun '(a, row) acc => add_rows (map (fun c => mul a c) row) acc)
               (map (fun _ => 0) d1) (combine d0 cost) in
  (d0, map (fun c => round40 (1 / n1 * 1 / (c + eps))) col_sums).

Fixpoint sinkhorn_loop (fuel : nat) (cost : list (list Q)) (d0 d1 : list Q)
  : list Q * list Q :=
  match fuel with
  | O => (d0, d1)
  | S fuel' =>
      let '(d0', d1') := sinkhorn_sweep cost d1 in
      let error := Qmean (map (fun '(a, b) => Qabs' (a - b)) (combine d1 d1')) in
      if Qle_bool error (1 # 10000) then (d0', d1')
      else sinkhorn_loop fuel' cost d0' d1'
  end.

(** The normalisation [d1 * exp(cost) * d0], with at most 32 sweeps. *)
Definition Qsinkhorn (rows : list (list Q)) : list (list Q) :=
  let cost := map (map Qexp) rows in
  let ones0 := map (fun _ => 1) cost in
  let ones1 := map (fun _ => 1) (hd [] cost) in
  let '(d0, d1) := sinkhorn_loop 32 cost ones0 ones1 in
  map (fun '(a, row) => map (fun '(b, c) => Qred (b * c * a)) (combine d1 row))
      (combine d0 cost).

(** The switch-transformer loss
    [sum (mean0 gates * mean0 mask) * num_experts * coeff]. *)
Definition Qswitch_loss (gates : list (list Q)) (mask : list (list nat))
  (coeff : Q) : Q :=
  let num_experts := length (hd [] mask) in
  let gates_mean := mean0 gates in
  let selection_mean :=
    mean0 (map (map (fun n => inject_Z (Z.of_nat n))) mask) in
  Qred (dot gates_mean selection_mean
        * inject_Z (Z.of_nat num_experts) * coeff).

(** The z-loss [mean (logsumexp logits ^ 2) * coeff]. *)
Definition Qz_loss (logits : list (list Q)) (coeff : Q) : Q :=
  Qred (Qmean (map (fun row =>
                      let l := Qlog (sum_list (map Qexp row)) in Qred (l * l))
                   logits) * coeff).

#[export] Instance QUtils : MoEUtils := {|
  sinkhorn := Qsinkhorn;
  switch_load_balancing_loss_func := Qswitch_loss;
  z_loss_func := Qz_loss;
  mask_fill_value := - (10000 # 1)
|}.

(** A stream of draws: the fractions [i mod 7 / 7] scrambled by a stride. *)
Definition stream7 (i : nat) : Q :=
  inject_Z (Z.of_nat ((3 * i + 2) mod 7)) / 7.

(** The state of a new router on that stream. *)
Definition state0 : RouterState := @initial_state QScalar stream7.

Definition tensor (d : DType) (rows : list (list Q)) : Tensor :=
  mkTensor d true rows.

(** The weights and the indices of an outcome that returned. *)
Definition weights_of (out : result (Tensor * ITensor) * RouterState) : Tensor :=
  match fst out with
  | inr (w, _) => w
  | inl _ => tensor Float32 []
  end.

Definition indices_of (out : result (Tensor * ITensor) * RouterState) : ITensor :=
  match fst out with
  | inr (_, i) => i
  | inl _ => []
  end.

(** A configuration with 8 experts; the other fields vary by example. *)
Definition config8 (k : nat) (balancing router_type aux_type : string)
  (coeff : Q) (z eps dropout : option Q) (group_size : nat)
  : TransformerConfig :=
  mkConfig 8 2 false false (fun w => w) false k balancing router_type
    aux_type coeff z eps dropout group_size.

Definition router_of (cfg : TransformerConfig) (train : bool) : TopKRouter :=
  mkTopKRouter (Router_init cfg) (moe_router_topk cfg)
    (moe_router_load_balancing_type cfg) switch_load_balancing_loss_func train.

(** The logits of the worked example in the docstring of [grouped_router]. *)
Definition example_logits : list (list Q) :=
  [ [6605 # 10000; 5067 # 10000; - (27087 # 10000); - (10703 # 10000);
     - (4339 # 10000); - (618 # 10000); 3023 # 10000; - (6805 # 10000)];
    [2585 # 10000; 11013 # 10000; 12551 # 10000; 448 # 10000;
     8753 # 10000; - (532 # 10000); 17316 # 10000; 10494 # 10000];
    [3005 # 10000; - (12615 # 10000); - (4880 # 10000); - (7913 # 10000);
     1651 # 10000; 13444 # 10000; 3161 # 10000; - (6222 # 10000)];
    [- (14876 # 10000); - (2928 # 10000); 2573 # 10000; 9561 # 10000;
     - (3219 # 10000); 8441 # 10000; - (6582 # 10000); - (6504 # 10000)] ].

(** The scores that the docstring prints for these logits. *)
Definition example_scores : list (list Q) :=
  [ [2597 # 10000; 2227 # 10000; 1816 # 10000; 1261 # 10000];
    [1694 # 10000; 1452 # 10000; 2728 # 10000; 1379 # 10000];
    [1403 # 10000; 638 # 10000; 3985 # 10000; 1425 # 10000];
    [2904 # 10000; 1444 # 10000; 2597 # 10000; 809 # 10000] ].

(** Two matrices of the same shape whose entries differ by at most [tol]. *)
Definition within (tol : Q) (a b : list (list Q)) : bool :=
  (length a =? length b)%nat
  && forallb (fun '(ra, rb) =>
                (length ra =? length rb)%nat
                && forallb (fun '(x, y) => Qle_bool (Qabs' (x - y)) tol)
                           (combine ra rb))
             (combine a b).

(** The grouped variant of the aux-loss routing, groups of size 2. *)
Definition grouped_config (k : nat) : TransformerConfig :=
  config8 k "aux_loss" "grouped" "switch" (1 # 100)%Q None None None 2.

(** Top-1 routing without balancing, with or without input jitter. *)
Definition top1_config (eps : option Q) : TransformerConfig :=
  config8 1 "none" "" "" 0 None eps None 1.

(** One token that prefers expert 0 to expert 1 by a small margin. *)
Definition close_call : list (list Q) := [[10; 9; 1; 1; 1; 1; 1; 1]].

(** Sinkhorn routing together with an aux-loss coefficient of 1/10, a
    z-loss and an input jitter. *)
Definition sinkhorn_aux_config : TransformerConfig :=
  config8 2 "sinkhorn" "" "" (1 # 10) (Some (1 # 1000)) (Some (1 # 10)) None 1.

(** Two tokens of hidden size 2. *)
Definition two_tokens : list (list Q) := [[1; 2]; [3; 4]].

(** Sigmoid routing to the top expert with a dropout rate of 1/2. *)
Definition sigmoid_dropout_config : TransformerConfig :=
  config8 1 "sigmoid" "" "" (1 # 100) None None (Some (1 # 2)) 1.

(** One token without preference. *)
Definition flat_token : list (list Q) := [[0; 0; 0; 0; 0; 0; 0; 0]].

(** Two lists of losses with equal entries. *)
Fixpoint same_losses (a b : list Q) : bool :=
  match a, b with
  | [], [] => true
  | x :: a', y :: b' => Qeq_bool x y && same_losses a' b'
  | _, _ => false
  end.

(** The BTX variants of the aux-loss routing, top 2. *)
Definition btx_config (aux_type : string) : TransformerConfig :=
  config8 2 "aux_loss" "mixtral" aux_type (1 # 100) None None None 1.


Definition st_config : TransformerConfig :=
  config8 2 "aux_loss" "st" "switch" (1 # 100) None None None 1.

(** A configuration that asks for token dropping. *)
Definition dropping_config : TransformerConfig :=
  @mkConfig QScalar 8 2 false false (fun w => w) true 2 "none" "" "" 0 None
            None None 1.

End QInstance.

(** ** Predicates of the statements *)

(** A matrix whose rows all have [n] entries. *)
Definition rows_of {A : Type} (n : nat) (rows : list (list A)) : Prop :=
  Forall (fun r => length r = n) rows.

(** Rows of expert ids: no duplicate in a row, every id below [n]. *)
Definition distinct_below (n : nat) (row : list nat) : Prop :=
  NoDup row /\ Forall (fun e => e < n) row.

(** The value of a computation that returned. *)
Definition returned {A : Type} (r : result A) : option A :=
  match r with
  | inr a => Some a
  | inl _ => None
  end.

Section Specifications.
Context {Sc : Scalar}.

(** What [torch.topk] selects from a row: [k] entries at distinct
    positions of the row, each with the value found there. *)
Definition selection (k : nat) (l : list F) (sel : list (nat * F)) : Prop :=
  length sel = k /\ NoDup (map fst sel)
  /\ Forall (fun p => nth_error l (fst p) = Some (snd p)) sel.

(** The grouped selection in closed form, for one row of probabilities:
    the row cut in groups of [gne] experts, the top [gt] of each group,
    and the ids of the picks moved by the first expert of their group. *)
Definition group_picks (gt gne : nat) (r : list F) : list (list (nat * F)) :=
  map (fun grp => firstn gt (sort_desc (enumerate grp)))
      (chunks (length r) gne r).

Definition group_offsets (groups gne : nat) : list nat :=
  map (fun i => i * gne) (seq 0 groups).

Definition grouped_scores_row (picks : list (list (nat * F))) : list F :=
  concat (map (map snd) picks).

Definition grouped_indices_row (offsets : list nat)
  (picks : list (list (nat * F))) : list nat :=
  concat (map (fun '(g, o) => map (fun i => i + o) g)
              (combine (map (map fst) picks) offsets)).


(** Not below zero. *)
Definition nonneg (x : F) : Prop := ltb x zero = false.


End Specifications.

(** What the sign of the weights rests on: the exponential, sums,
    quotients and precision conversions keep values from going below
    zero. *)
Class OrderLaws {Sc : Scalar} : Prop := {
  nonneg_zero : nonneg zero;
  nonneg_one : nonneg one;
  nonneg_exp : forall x, nonneg (exp x);
  nonneg_add : forall a b, nonneg a -> nonneg b -> nonneg (add a b);
  nonneg_div : forall a b, nonneg a -> nonneg b -> nonneg (div a b);
  nonneg_cast : forall d a, nonneg a -> nonneg (cast d a)
}.

(** Exact arithmetic: conversions lose nothing, the division distributes
    over sums, and the exponential is positive. *)
Class ExactLaws {Sc : Scalar} : Prop := {
  cast_exact : forall d x, cast d x = x;
  div_add : forall a b c, div (add a b) c = add (div a c) (div b c);
  div_zero : forall c, div zero c = zero;
  div_self : forall c, ltb zero c = true -> div c c = one;
  pos_exp : forall x, ltb zero (exp x) = true;
  pos_add : forall a b, ltb zero a = true -> nonneg b -> ltb zero (add a b) = true
}.

(** The comparison [<] is a strict weak order, as it is on numbers that
    are not NaN. *)
Class WeakOrder {Sc : Scalar} : Prop := {
  ltb_asym : forall a b, ltb a b = true -> ltb b a = false;
  ltb_negtrans : forall a b c,
      ltb a b = false -> ltb b c = false -> ltb a c = false
}.

Section Ordering.
Context {Sc : Scalar}.

(** No entry is smaller than one that comes after it. *)
Fixpoint descending (l : list (nat * F)) : Prop :=
  match l with
  | [] => True
  | p :: l' => Forall (fun q => ltb (snd p) (snd q) = false) l' /\ descending l'
  end.

(** In the row [row], no expert outside [ids] has a larger value than an
    expert of [ids]. *)
Definition dominant (row : list F) (ids : list nat) : Prop :=
  forall e e' x x',
    In e ids -> ~ In e' ids ->
    nth_error row e = Some x -> nth_error row e' = Some x' ->
    ltb x x' = false.

(** The same among the experts [lo], ..., [hi - 1] only. *)
Definition dominant_within (lo hi : nat) (row : list F) (ids : list nat)
  : Prop :=
  forall e e' x x',
    lo <= e < hi -> lo <= e' < hi ->
    In e ids -> ~ In e' ids ->
    nth_error row e = Some x -> nth_error row e' = Some x' ->
    ltb x x' = false.

End Ordering.

Section Dispatch.
Context {Sc : Scalar} {U : MoEUtils}.

(** The branch of [routing] on the routing type, as a function of the
    logits that reach it. *)
Definition strategy (self : TopKRouter) (logits : Tensor)
  : M (Tensor * ITensor) :=
  let cfg := config (base self) in
  (if String.eqb (routing_type self) "sinkhorn" then
     sinkhorn_load_balancing self logits
   else if String.eqb (routing_type self) "aux_loss" then
     if String.eqb (moe_aux_loss_type cfg) "switch" then
       aux_loss_load_balancing self logits
     else if contains "btx" (moe_aux_loss_type cfg) then
       btx_aux_loss_load_balancing self logits
     else throw (ValueError (String.append "Unsupported aux loss type: "
                                              (moe_aux_loss_type cfg)))
   else if String.eqb (routing_type self) "none" then
     ('(top_logits, indices) <- lift (topk logits (topk_ self)) ;;
      let scores := type_as (softmax top_logits Float32) logits in
      ret (scores, indices))
   else if String.eqb (routing_type self) "sigmoid" then
     sigmoid_load_balancing self logits
   else throw (ValueError (String.append "Unsupported MoE routing type: "
                                            (routing_type self))))%M.

(** [module.train(mode)]: the same router in the given mode. *)
Definition set_training (mode : bool) (self : TopKRouter) : TopKRouter :=
  mkTopKRouter (base self) (topk_ self) (routing_type self)
    (moe_aux_loss_func self) mode.

(** The bounds of the jitter sampler in a state: those of the sampler
    already built, else those built from [eps]. *)
Definition jitter_bounds (eps : F) (s : RouterState) : F * F :=
  match input_jitter s with
  | Some b => b
  | None => (cast Float32 (sub one eps), cast Float32 (add one eps))
  end.

(** The jitter of a call made in the state [s] finds or can build its
    sampler: no epsilon is configured, or the sampler exists already, or
    the bounds built from the epsilon satisfy [low < high] in float32. *)
Definition jitter_ready (self : TopKRouter) (s : RouterState) : bool :=
  match moe_input_jitter_eps (config (base self)), input_jitter s with
  | Some eps, None =>
      ltb (cast Float32 (sub one eps)) (cast Float32 (add one eps))
  | _, _ => true
  end.

(** The sample of the jitter for a tensor of shape [sh]: one draw [u] of
    the stream per element from position [pos], at [low + u * (high - low)]. *)
Definition jitter_noise (b : F * F) (stream : nat -> F) (pos : nat)
  (sh : nat * nat) : Tensor :=
  mkTensor Float32 false
    (map (fun r => map (fun u => add (fst b) (mul u (sub (snd b) (fst b))))
                       (draws stream (pos + r * snd sh) (snd sh)))
         (seq 0 (fst sh))).

(** The state after one jitter: the sampler is built, the draws consumed. *)
Definition after_jitter (b : F * F) (sh : nat * nat) (s : RouterState)
  : RouterState :=
  mkState (Some b) (hidden s) (rng_stream s) (rng_pos s + fst sh * snd sh)
          (aux_losses s).

(** The configured strategy hands a balancing loss to the autoscaler. *)
Definition records_balancing_loss (self : TopKRouter) : bool :=
  String.eqb (routing_type self) "aux_loss"
  || String.eqb (routing_type self) "sigmoid".

(** The sigmoid strategy masks logits at random: the routing type is
    sigmoid, [moe_dropout] is truthy and the module is in training mode. *)
Definition dropout_active (self : TopKRouter) : bool :=
  String.eqb (routing_type self) "sigmoid"
  && match moe_dropout (config (base self)) with
     | Some p => negb (eqb p zero) && training self
     | None => false
     end.

(** The z-loss that [apply_z_loss] records for the logits [l], if any. *)
Definition z_losses (self : TopKRouter) (l : Tensor) : list F :=
  match moe_z_loss_coeff (config (base self)) with
  | Some c => [z_loss_func (data l) c]
  | None => []
  end.

(** From [s] to [s']: [draws] numbers were taken from the stream and the
    losses [extra] were recorded, latest first; [self.hidden] and the
    stream itself are as before. *)
Definition evolves (s s' : RouterState) (draws : nat) (extra : list F) : Prop :=
  hidden s' = hidden s /\ rng_stream s' = rng_stream s
  /\ rng_pos s' = rng_pos s + draws
  /\ aux_losses s' = extra ++ aux_losses s.

(** The same router with another z-loss coefficient. *)
Definition with_z_loss (z : option F) (self : TopKRouter) : TopKRouter :=
  let b := base self in
  let c := config b in
  mkTopKRouter
    (mkRouter
       (mkConfig (num_moe_experts c) (hidden_size c) (moe_groupedmoe c)
          (sequence_parallel c) (init_method c) (moe_token_dropping c)
          (moe_router_topk c) (moe_router_load_balancing_type c)
          (moe_router_type c) (moe_aux_loss_type c) (moe_aux_loss_coeff c)
          z (moe_input_jitter_eps c) (moe_dropout c) (moe_group_size c))
       (num_experts b) (base_moe_aux_loss_func b) (weight b))
    (topk_ self) (routing_type self) (moe_aux_loss_func self) (training self).

(** The same router with the routing type none. *)
Definition without_balancing (self : TopKRouter) : TopKRouter :=
  mkTopKRouter (base self) (topk_ self) "none" (moe_aux_loss_func self)
    (training self).

(** Two states with the same sampler and the same random state; they may
    differ in [self.hidden] and in the recorded losses. *)
Definition same_rng (s t : RouterState) : Prop :=
  input_jitter s = input_jitter t /\ rng_stream s = rng_stream t
  /\ rng_pos s = rng_pos t.

(** A computation whose result and random state do not depend on
    [self.hidden] nor on the recorded losses. *)
Definition oblivious {A : Type} (m : M A) : Prop :=
  forall s t, same_rng s t ->
    fst (m s) = fst (m t) /\ same_rng (snd (m s)) (snd (m t)).

End Dispatch.

(** How many ids of a row fall in the range [lo, hi). *)
Definition count_in (lo hi : nat) (row : list nat) : nat :=
  length (filter (fun e => (lo <=? e) && (e <? hi)) row).

(** * Paths of the data batches ([tools/retrieval/data/get_paths.py]) *)

Module GetPaths.

(** The data directory as the two functions see it: the [*.hdf5] paths
    in sorted order (what [glob] and [paths.sort()] leave), each with the
    length of the ["data"] set that [h5py] reads from the file. *)
Definition DataDir : Type := list (string * nat).

(** The fields of [args] that are read. *)
Record Args : Type := mkArgs {
  ntrain : Z;
  nadd : Z
}.

(** [Exception(msg)]. *)
Inductive Exception : Type := mkException (msg : string).

(** [get_all_data_paths]: the sorted paths; the count of vectors is only
    printed. *)
Definition get_all_data_paths (dir : DataDir) : list string := map fst dir.

(** The locals of the loop of [get_train_add_data_paths]; [ntrain] and
    [train_paths] are set together, and so are [nadd] and [add_paths]. *)
Record Locals : Type := mkLocals {
  ntotal : nat;
  train : option (nat * list string);
  add : option (nat * list string)
}.

Definition is_none {A} (o : option A) : bool :=
  match o with
  | None => true
  | Some _ => false
  end.

(** One pass through the body of the loop, up to the [break] test. *)
Definition body (args : Args) (all_paths : list string) (st : Locals)
  (path_index n : nat) : Locals :=
  let ntotal := ntotal st + n in
  let train :=
    if (ntrain args <=? Z.of_nat ntotal)%Z && is_none (train st)
    then Some (ntotal, firstn (path_index + 1) all_paths)
    else train st in
  let add :=
    if (nadd args <=? Z.of_nat ntotal)%Z && is_none (add st)
    then Some (ntotal, firstn (path_index + 1) all_paths)
    else add st in
  mkLocals ntotal train add.

(** The loop over [enumerate(all_paths)], with its [break]. *)
Fixpoint loop (args : Args) (all_paths : list string)
  (items : list (nat * (string * nat))) (st : Locals) : Locals :=
  match items with
  | [] => st
  | (path_index, (_, n)) :: items' =>
      let st' := body args all_paths st path_index n in
      if negb (is_none (train st')) && negb (is_none (add st'))
      then st'
      else loop args all_paths items' st'
  end.

(** [get_train_add_data_paths]. *)
Definition get_train_add_data_paths (dir : DataDir) (args : Args)
  : Exception + (nat * nat * list string * list string) :=
  let all_paths := get_all_data_paths dir in
  let st := loop args all_paths (combine (seq 0 (length all_paths)) dir)
                 (mkLocals 0 None None) in
  match train st, add st with
  | Some (ntrain, train_paths), Some (nadd, add_paths) =>
      inr (ntrain, nadd, train_paths, add_paths)
  | _, _ => inl (mkException "insufficient data paths?")
  end.

(** The number of vectors in the first [k] files. *)
Definition vectors (dir : DataDir) (k : nat) : nat :=
  list_sum (map snd (firstn k dir)).

(** [i] is the first file with which the running total reaches [goal]. *)
Definition first_reaching (dir : DataDir) (goal : Z) (i : nat) : Prop :=
  i < length dir
  /\ (goal <= Z.of_nat (vectors dir (S i)))%Z
  /\ forall j, j < i -> (Z.of_nat (vectors dir (S j)) < goal)%Z.

(** What the loop knows of a goal after [k] files: the first file that
    reaches it, with the total and the paths up to that file, or that no
    file among the first [k] reaches it. *)
Definition reached (dir : DataDir) (goal : Z) (k : nat)
  (found : option (nat * list string)) : Prop :=
  match found with
  | Some (v, ps) =>
      exists i, i < k /\ first_reaching dir goal i
                /\ v = vectors dir (S i)
                /\ ps = firstn (S i) (get_all_data_paths dir)
  | None => forall j, j < k -> (Z.of_nat (vectors dir (S j)) < goal)%Z
  end.

End GetPaths.

(** * The parameter groups of the optimizer ([megatron/optimizer/__init__.py]) *)

Module Optimizer.

(** The [infshape] attribute that [mup.set_base_shapes] attaches to a
    parameter: its number of infinite dimensions and its width
    multiplier. *)
Record InfShape : Type := mkInfShape {
  ninf : nat;
  width_mult : Q
}.

(** What the functions read of a parameter; [infshape] is [None] when
    the attribute is missing. *)
Record Param : Type := mkParam {
  requires_grad : bool;
  shape : list nat;
  infshape : option InfShape;
  var_name : string
}.

(** [module.named_parameters()]. *)
Definition NamedParameters : Type := list (string * Param).

(** The conditions [no_weight_decay_cond] and [scale_lr_cond]. *)
Definition Cond : Type := string -> Param -> bool.

(** A group [{'params': ..., 'wd_mult': ..., 'lr_mult': ...}]. *)
Record ParamGroup : Type := mkGroup {
  params : list Param;
  wd_mult : Q;
  lr_mult : Q
}.

(** [s.endswith(suffix)]. *)
Fixpoint endswith (s suffix : string) : bool :=
  if String.eqb s suffix then true
  else match s with
       | EmptyString => false
       | String _ s' => endswith s' suffix
       end.

(** The two tests of the loop body on a named parameter. *)
Definition no_wd (no_weight_decay_cond : option Cond) (name : string)
  (param : Param) : bool :=
  match no_weight_decay_cond with
  | Some cond => cond name param
  | None => endswith name ".bias" || (length (shape param) =? 1)
  end.

Definition scale_lr (scale_lr_cond : option Cond) (name : string)
  (param : Param) : bool :=
  match scale_lr_cond with
  | Some cond => cond name param
  | None => false
  end.

(** The four lists that the loops fill. *)
Record Lists : Type := mkLists {
  wd_no_scale_lr : list Param;
  wd_scale_lr : list Param;
  no_wd_no_scale_lr : list Param;
  no_wd_scale_lr : list Param
}.

(** The body of the inner loop. *)
Definition visit (no_weight_decay_cond scale_lr_cond : option Cond)
  (acc : Lists) (named : string * Param) : Lists :=
  let '(name, param) := named in
  if negb (requires_grad param) then acc
  else
    let no_wd := no_wd no_weight_decay_cond name param in
    let scale_lr := scale_lr scale_lr_cond name param in
    if negb no_wd && negb scale_lr then
      mkLists (wd_no_scale_lr acc ++ [param]) (wd_scale_lr acc)
              (no_wd_no_scale_lr acc) (no_wd_scale_lr acc)
    else if negb no_wd && scale_lr then
      mkLists (wd_no_scale_lr acc) (wd_scale_lr acc ++ [param])
              (no_wd_no_scale_lr acc) (no_wd_scale_lr acc)
    else if no_wd && negb scale_lr then
      mkLists (wd_no_scale_lr acc) (wd_scale_lr acc)
              (no_wd_no_scale_lr acc ++ [param]) (no_wd_scale_lr acc)
    else
      mkLists (wd_no_scale_lr acc) (wd_scale_lr acc)
              (no_wd_no_scale_lr acc) (no_wd_scale_lr acc ++ [param]).

(** [if len(l): param_groups.append({...})]. *)
Definition group_if_any (l : list Param) (wd lr : Q) : list ParamGroup :=
  if negb (length l =? 0) then [mkGroup l wd lr] else [].

(** [get_param_groups]. *)
Definition get_param_groups (modules : list NamedParameters)
  (no_weight_decay_cond scale_lr_cond : option Cond) (lr_mult : Q)
  : list ParamGroup :=
  let acc :=
    fold_left
      (fun acc module =>
         fold_left (visit no_weight_decay_cond scale_lr_cond) module acc)
      modules (mkLists [] [] [] []) in
  group_if_any (wd_no_scale_lr acc) 1%Q 1%Q
  ++ group_if_any (wd_scale_lr acc) 1%Q lr_mult
  ++ group_if_any (no_wd_no_scale_lr acc) 0%Q 1%Q
  ++ group_if_any (no_wd_scale_lr acc) 0%Q lr_mult.

(** The trainable parameters of the modules that fall in a class, in the
    order of the modules and of their parameters. *)
Definition of_class (no_weight_decay_cond scale_lr_cond : option Cond)
  (modules : list NamedParameters) (nowd scale : bool) : list Param :=
  map snd
    (filter (fun '(name, param) =>
               requires_grad param
               && Bool.eqb (no_wd no_weight_decay_cond name param) nowd
               && Bool.eqb (scale_lr scale_lr_cond name param) scale)
            (concat modules)).

(** *** [set_param_groups_defaults] *)

(** The values found in a group dictionary. *)
Inductive Value : Type :=
| VFloat (x : Q)
| VParams (ps : list Param).

(** A [dict] with string keys, in insertion order. *)
Definition Dict : Type := list (string * Value).

Fixpoint get (d : Dict) (key : string) : option Value :=
  match d with
  | [] => None
  | (k, v) :: d' => if String.eqb k key then Some v else get d' key
  end.

(** [key in d]. *)
Definition has (d : Dict) (key : string) : bool :=
  match get d key with
  | Some _ => true
  | None => false
  end.

(** [d[key] = v]: replaces the value of an existing key in place, else
    adds the key at the end. *)
Fixpoint setitem (d : Dict) (key : string) (v : Value) : Dict :=
  match d with
  | [] => [(key, v)]
  | (k, w) :: d' =>
      if String.eqb k key then (k, v) :: d' else (k, w) :: setitem d' key v
  end.

(** The keyword arguments, all floats. *)
Definition Kwargs : Type := list (string * Q).

Fixpoint kwarg (kwargs : Kwargs) (key : string) : option Q :=
  match kwargs with
  | [] => None
  | (k, v) :: kw' => if String.eqb k key then Some v else kwarg kw' key
  end.

Inductive PyError : Type :=
| IndexError
| KeyError (key : string)
| TypeError
| ZeroDivision
| Assertion (msg : string)
| NotImplemented (msg : string).

(** The argument [params]: an iterable of parameters or of group
    dictionaries; the function tells them apart by the first element. *)
Inductive Params : Type :=
| Tensors (ps : list Param)
| Groups (gs : list Dict).

(** [kwargs[key]]. *)
Definition kwargs_item (kwargs : Kwargs) (key : string) : PyError + Q :=
  match kwarg kwargs key with
  | Some v => inr v
  | None => inl (KeyError key)
  end.

(** The body of the loop on one group. *)
Definition set_defaults (kwargs : Kwargs) (param_group : Dict)
  : PyError + Dict :=
  match (if has param_group "max_lr" then inr param_group
         else match kwargs_item kwargs "lr" with
              | inr lr => inr (setitem param_group "max_lr" (VFloat lr))
              | inl e => inl e
              end) with
  | inl e => inl e
  | inr g1 =>
      let g2 :=
        if has g1 "weight_decay" then g1
        else setitem g1 "weight_decay"
               (VFloat (match kwarg kwargs "weight_decay" with
                        | Some wd => wd
                        | None => 0%Q
                        end)) in
      if has g2 "min_lr" then inr g2
      else match kwargs_item kwargs "min_lr" with
           | inr lr => inr (setitem g2 "min_lr" (VFloat lr))
           | inl e => inl e
           end
  end.

Fixpoint set_defaults_all (kwargs : Kwargs) (gs : list Dict)
  : PyError + list Dict :=
  match gs with
  | [] => inr []
  | g :: gs' =>
      match set_defaults kwargs g with
      | inl e => inl e
      | inr g' =>
          match set_defaults_all kwargs gs' with
          | inl e => inl e
          | inr gs'' => inr (g' :: gs'')
          end
      end
  end.

(** [set_param_groups_defaults]. *)
Definition set_param_groups_defaults (params : Params) (kwargs : Kwargs)
  : PyError + list Dict :=
  match params with
  | Tensors [] | Groups [] => inl IndexError
  | Tensors ps => set_defaults_all kwargs [[("params", VParams ps)]]
  | Groups gs => set_defaults_all kwargs gs
  end.

(** *** [get_mup_param_groups] *)

(** [d[key]] where a float is expected. *)
Definition item_float (d : Dict) (key : string) : PyError + Q :=
  match get d key with
  | Some (VFloat x) => inr x
  | Some (VParams _) => inl TypeError
  | None => inl (KeyError key)
  end.

(** [d['params']]. *)
Definition item_params (d : Dict) : PyError + list Param :=
  match get d "params" with
  | Some (VParams ps) => inr ps
  | Some (VFloat _) => inl TypeError
  | None => inl (KeyError "params")
  end.

(** The local function [new_group]: the entries of [param_group] other
    than ['params'], then an empty ['params']. *)
Definition new_group (param_group : Dict) : Dict :=
  filter (fun '(k, _) => negb (String.eqb k "params")) param_group
  ++ [("params", VParams [])].

(** [d['params'].append(p)] on a group made by [new_group]. *)
Definition append_param (d : Dict) (p : Param) : Dict :=
  match get d "params" with
  | Some (VParams ps) => setitem d "params" (VParams (ps ++ [p]))
  | _ => d
  end.

(** [matrix_like_p[width_mult]['params'].append(p)] on the
    [defaultdict(new_group)]: float keys are equal when their values
    are; a missing key gets a new group at the end. *)
Fixpoint matrix_append (m : list (Q * Dict)) (fresh : Dict) (wm : Q)
  (p : Param) : list (Q * Dict) :=
  match m with
  | [] => [(wm, append_param fresh p)]
  | (k, d) :: m' =>
      if Qeq_bool k wm then (k, append_param d p) :: m'
      else (k, d) :: matrix_append m' fresh wm p
  end.

(** The four collections that the loop over the parameters fills. *)
Record Split : Type := mkSplit {
  matrix_like_p : list (Q * Dict);
  input_layer_p : Dict;
  output_layer_p : Dict;
  vector_like_p : Dict
}.

(** ['word' in p.var_name and kwargs[key] > 0], the keyword being read
    only when the name contains the word. *)
Definition named_with_lr (kwargs : Kwargs) (word key : string) (p : Param)
  : PyError + option Q :=
  if contains word (var_name p)
  then match kwargs_item kwargs key with
       | inr lr => inr (if negb (Qle_bool lr 0) then Some lr else None)
       | inl e => inl e
       end
  else inr None.

(** The body of the loop over [param_group['params']]. *)
Definition place (kwargs : Kwargs) (param_group : Dict) (st : Split)
  (p : Param) : PyError + Split :=
  match infshape p with
  | None =>
      inl (Assertion "A parameter does not have `infshape` attribute.")
  | Some sh =>
      if ninf sh =? 2 then
        inr (mkSplit (matrix_append (matrix_like_p st) (new_group param_group)
                        (width_mult sh) p)
                     (input_layer_p st) (output_layer_p st) (vector_like_p st))
      else if 2 <? ninf sh then
        inl (NotImplemented "more than 2 inf dimensions")
      else
        match named_with_lr kwargs "embed" "input_lr" p with
        | inl e => inl e
        | inr (Some input_lr) =>
            inr (mkSplit (matrix_like_p st)
                   (setitem (append_param (input_layer_p st) p) "max_lr"
                            (VFloat input_lr))
                   (output_layer_p st) (vector_like_p st))
        | inr None =>
            match named_with_lr kwargs "output" "output_lr" p with
            | inl e => inl e
            | inr (Some output_lr) =>
                inr (mkSplit (matrix_like_p st) (input_layer_p st)
                       (setitem (append_param (output_layer_p st) p) "max_lr"
                                (VFloat output_lr))
                       (vector_like_p st))
            | inr None =>
                inr (mkSplit (matrix_like_p st) (input_layer_p st)
                       (output_layer_p st)
                       (append_param (vector_like_p st) p))
            end
        end
  end.

Fixpoint place_all (kwargs : Kwargs) (param_group : Dict) (st : Split)
  (ps : list Param) : PyError + Split :=
  match ps with
  | [] => inr st
  | p :: ps' =>
      match place kwargs param_group st p with
      | inl e => inl e
      | inr st' => place_all kwargs param_group st' ps'
      end
  end.

(** The body of the loop over [matrix_like_p.items()]. *)
Definition scale_group (decoupled_wd : bool) (width_mult : Q) (group : Dict)
  : PyError + Dict :=
  match item_float group "max_lr" with
  | inl e => inl e
  | inr max_lr =>
      if Qeq_bool width_mult 0 then inl ZeroDivision
      else
        let group := setitem group "max_lr" (VFloat (max_lr / width_mult)) in
        match item_float group "min_lr" with
        | inl e => inl e
        | inr min_lr =>
            if Qle_bool min_lr (max_lr / width_mult) then
              if negb decoupled_wd then
                match item_float group "weight_decay" with
                | inl e => inl e
                | inr wd =>
                    inr (setitem group "weight_decay"
                                 (VFloat (wd * width_mult)))
                end
              else inr group
            else inl (Assertion "Group has a smaller max_lr than min_lr.")
        end
  end.

Fixpoint scale_groups (decoupled_wd : bool) (m : list (Q * Dict))
  : PyError + list (Q * Dict) :=
  match m with
  | [] => inr []
  | (k, d) :: m' =>
      match scale_group decoupled_wd k d with
      | inl e => inl e
      | inr d' =>
          match scale_groups decoupled_wd m' with
          | inl e => inl e
          | inr m'' => inr ((k, d') :: m'')
          end
      end
  end.

(** The parameters of a group made by [new_group]. *)
Definition params_of (d : Dict) : list Param :=
  match get d "params" with
  | Some (VParams ps) => ps
  | _ => []
  end.

(** [[d] if d['params'] else []]. *)
Definition if_params (d : Dict) : list Dict :=
  match params_of d with
  | [] => []
  | _ :: _ => [d]
  end.

(** One pass of the outer loop: the groups that a group is split in. *)
Definition split_group (decoupled_wd : bool) (kwargs : Kwargs)
  (param_group : Dict) : PyError + list Dict :=
  let fresh := new_group param_group in
  match item_params param_group with
  | inl e => inl e
  | inr ps =>
      match place_all kwargs param_group (mkSplit [] fresh fresh fresh) ps with
      | inl e => inl e
      | inr st =>
          match scale_groups decoupled_wd (matrix_like_p st) with
          | inl e => inl e
          | inr m =>
              inr (flat_map (fun '(_, v) => if_params v) m
                   ++ if_params (input_layer_p st)
                   ++ if_params (output_layer_p st)
                   ++ if_params (vector_like_p st))
          end
      end
  end.

Fixpoint split_groups (decoupled_wd : bool) (kwargs : Kwargs)
  (groups : list Dict) : PyError + list Dict :=
  match groups with
  | [] => inr []
  | g :: groups' =>
      match split_group decoupled_wd kwargs g with
      | inl e => inl e
      | inr new =>
          match split_groups decoupled_wd kwargs groups' with
          | inl e => inl e
          | inr rest => inr (new ++ rest)
          end
      end
  end.

(** [get_mup_param_groups]. *)
Definition get_mup_param_groups (params : Params) (decoupled_wd : bool)
  (kwargs : Kwargs) : PyError + list Dict :=
  match set_param_groups_defaults params kwargs with
  | inl e => inl e
  | inr groups => split_groups decoupled_wd kwargs groups
  end.

(** A dictionary with a list under ['params']. *)
Definition has_params (d : Dict) : Prop :=
  exists ps, get d "params" = Some (VParams ps).

(** The parameters held by a list of groups. *)
Definition all_params (gs : list Dict) : list Param :=
  concat (map params_of gs).

(** The parameter [p] sits in a group [g'] with the settings that the
    split of the group [g] gives to its kind: a matrix-like parameter
    (two infinite dimensions) in a group whose [max_lr] is that of [g]
    divided by the width multiplier, not below [min_lr], and whose
    [weight_decay] is multiplied by it unless decoupled; an input-layer
    or output-layer parameter in a group with the configured learning
    rate; any other parameter in a group with the [max_lr] of [g]. *)
Definition scaled_for (decoupled_wd : bool) (kwargs : Kwargs) (g g' : Dict)
  (p : Param) : Prop :=
  exists sh,
    infshape p = Some sh
    /\ if ninf sh =? 2 then
         exists mx mn wm,
           item_float g "max_lr" = inr mx /\ item_float g "min_lr" = inr mn
           /\ Qeq_bool wm (width_mult sh) = true /\ Qeq_bool wm 0 = false
           /\ get g' "max_lr" = Some (VFloat (mx / wm))
           /\ Qle_bool mn (mx / wm) = true
           /\ get g' "min_lr" = Some (VFloat mn)
           /\ if decoupled_wd
              then get g' "weight_decay" = get g "weight_decay"
              else exists wd,
                     item_float g "weight_decay" = inr wd
                     /\ get g' "weight_decay" = Some (VFloat (wd * wm))
       else
         ninf sh < 2
         /\ get g' "min_lr" = get g "min_lr"
         /\ get g' "weight_decay" = get g "weight_decay"
         /\ match named_with_lr kwargs "embed" "input_lr" p with
            | inr (Some input_lr) => get g' "max_lr" = Some (VFloat input_lr)
            | inr None =>
                match named_with_lr kwargs "output" "output_lr" p with
                | inr (Some output_lr) =>
                    get g' "max_lr" = Some (VFloat output_lr)
                | inr None => get g' "max_lr" = get g "max_lr"
                | inl _ => False
                end
            | inl _ => False
            end.

(** The groups that [set_param_groups_defaults] works on. *)
Definition groups_of (params : Params) : list Dict :=
  match params with
  | Tensors ps => [[("params", VParams ps)]]
  | Groups gs => gs
  end.

(** [g'] is [g] completed from the keyword arguments: every entry of [g]
    is kept, no key other than the three defaults appears, and each
    default that [g] lacks has the value of its keyword argument. *)
Definition completed (kwargs : Kwargs) (g g' : Dict) : Prop :=
  (forall k v, get g k = Some v -> get g' k = Some v)
  /\ (forall k, k <> "max_lr" -> k <> "weight_decay" -> k <> "min_lr" ->
                get g' k = get g k)
  /\ (get g "max_lr" = None ->
      exists lr, kwarg kwargs "lr" = Some lr
                 /\ get g' "max_lr" = Some (VFloat lr))
  /\ (get g "weight_decay" = None ->
      get g' "weight_decay"
      = Some (VFloat (match kwarg kwargs "weight_decay" with
                      | Some wd => wd
                      | None => 0%Q
                      end)))
  /\ (get g "min_lr" = None ->
      exists lr, kwarg kwargs "min_lr" = Some lr
                 /\ get g' "min_lr" = Some (VFloat lr)).

End Optimizer.

(** * Properties *)

(** ** Lists and the [result] monad *)

Lemma rbind_ok {X Y : Type} (m : result X) (k : X -> result Y) (b : Y) :
  rbind m k = inr b -> exists a, m = inr a /\ k a = inr b.
Proof.
  destruct m as [e | a]; simpl; intros H; [discriminate | eauto].
Qed.

Section ResultFacts.
Context {A B : Type}.

Lemma rmap_ok_Forall2 (f : A -> result B) (l : list A) (bs : list B) :
  rmap f l = inr bs -> Forall2 (fun a b => f a = inr b) l bs.
Proof.
  revert bs; induction l as [| a l IH]; simpl; intros bs H.
  - injection H as <-. constructor.
  - apply rbind_ok in H as (b & Hb & H).
    destruct (rmap f l) as [e | bs']; simpl in H; [discriminate |].
    injection H as <-. constructor; auto.
Qed.

Lemma rmap_total (f : A -> result B) (l : list A) :
  Forall (fun a => exists b, f a = inr b) l ->
  exists bs, rmap f l = inr bs.
Proof.
  induction 1 as [| a l (b & Hb) _ (bs & IH)]; simpl.
  - eexists; reflexivity.
  - rewrite Hb, IH. simpl. eexists; reflexivity.
Qed.

Lemma rmap_ext_ok (f : A -> result B) (g : A -> B) (l : list A) :
  Forall (fun a => f a = inr (g a)) l -> rmap f l = inr (map g l).
Proof.
  induction 1 as [| a l Ha _ IH]; simpl; [reflexivity |].
  rewrite Ha, IH. reflexivity.
Qed.

End ResultFacts.

Section ListFacts.
Context {A : Type}.

Lemma length_concat_rows (n : nat) (rows : list (list A)) :
  rows_of n rows -> length (concat rows) = length rows * n.
Proof.
  induction 1 as [| r rows Hr _ IH]; simpl; [reflexivity |].
  rewrite length_app, IH, Hr. reflexivity.
Qed.

Lemma chunks_concat (n fuel : nat) (rows : list (list A)) :
  0 < n -> rows_of n rows -> length (concat rows) <= fuel ->
  chunks fuel n (concat rows) = rows.
Proof.
  intros Hn Hrows; revert fuel.
  induction Hrows as [| r rows Hr _ IH]; intros fuel Hf.
  - destruct fuel; reflexivity.
  - simpl in Hf. rewrite length_app in Hf.
    destruct fuel as [| fuel]; [lia |].
    simpl. destruct (r ++ concat rows) eqn:E.
    + apply (f_equal (@length A)) in E. rewrite length_app in E.
      simpl in E. lia.
    + rewrite <- E.
      rewrite firstn_app, skipn_app, Hr, Nat.sub_diag, firstn_O, app_nil_r.
      rewrite firstn_all2, skipn_all2 by lia. simpl.
      f_equal. apply IH. lia.
Qed.

Lemma view2_concat (n : nat) (rows : list (list A)) :
  0 < n -> rows_of n rows -> view2 (concat rows) n = ok rows.
Proof.
  intros Hn Hrows. unfold view2.
  destruct (Nat.eqb_spec n 0); [lia |].
  rewrite (length_concat_rows Hrows), Nat.Div0.mod_mul. simpl.
  rewrite <- (length_concat_rows Hrows).
  rewrite chunks_concat; auto.
Qed.

Lemma chunks_rows (n fuel : nat) (l : list A) (q : nat) :
  0 < n -> length l = q * n -> q <= fuel ->
  rows_of n (chunks fuel n l) /\ concat (chunks fuel n l) = l
  /\ length (chunks fuel n l) = q.
Proof.
  intros Hn; revert l fuel.
  induction q as [| q IH]; intros l fuel Hl Hf.
  - destruct l; [| discriminate]. destruct fuel; simpl; repeat split; constructor.
  - destruct fuel as [| fuel]; [lia |].
    destruct l as [| a l]; [simpl in Hl; lia |].
    simpl chunks.
    destruct (IH (skipn n (a :: l)) fuel) as (H1 & H2 & H3).
    + rewrite length_skipn, Hl. simpl. lia.
    + lia.
    + repeat split.
      * constructor; auto. rewrite length_firstn, Hl. simpl. lia.
      * simpl concat. rewrite H2. apply firstn_skipn.
      * simpl. rewrite H3. reflexivity.
Qed.

Lemma view2_ok (n : nat) (l : list A) (rows : list (list A)) :
  view2 l n = inr rows ->
  0 < n /\ rows_of n rows /\ concat rows = l /\ length l = length rows * n.
Proof.
  unfold view2. destruct (Nat.eqb_spec n 0); [discriminate |].
  destruct (Nat.eqb_spec (length l mod n) 0) as [Hm |]; [| discriminate].
  intros H; injection H as <-.
  assert (Hl : length l = (length l / n) * n).
  { rewrite (Nat.div_mod_eq (length l) n) at 1. lia. }
  destruct (@chunks_rows n (length l) l (length l / n)) as (H1 & H2 & H3);
    try lia.
  { destruct (length l / n) eqn:E; [lia |].
    rewrite Hl. nia. }
  repeat split; auto; lia.
Qed.

Lemma concat_concat (l : list (list (list A))) :
  concat (concat l) = concat (map (@concat A) l).
Proof.
  induction l as [| x l IH]; simpl; [reflexivity |].
  rewrite concat_app, IH. reflexivity.
Qed.

Lemma NoDup_firstn (k : nat) (l : list A) : NoDup l -> NoDup (firstn k l).
Proof.
  intros H. rewrite <- (firstn_skipn k l) in H.
  apply NoDup_app_remove_r in H. exact H.
Qed.

Lemma In_firstn (k : nat) (l : list A) (x : A) : In x (firstn k l) -> In x l.
Proof.
  intros H. rewrite <- (firstn_skipn k l). apply in_or_app. auto.
Qed.

End ListFacts.

(** ** top-k *)

Section TopkFacts.
Context {Sc : Scalar}.

Lemma insert_desc_perm (p : nat * F) (l : list (nat * F)) :
  Permutation (insert_desc p l) (p :: l).
Proof.
  induction l as [| q l IH]; simpl; [reflexivity |].
  destruct (ltb (snd p) (snd q)); [| reflexivity].
  rewrite IH. apply perm_swap.
Qed.

Lemma sort_desc_perm (l : list (nat * F)) : Permutation (sort_desc l) l.
Proof.
  induction l as [| p l IH]; simpl; [reflexivity |].
  rewrite insert_desc_perm. constructor. exact IH.
Qed.

Lemma combine_seq_fst (l : list F) (s : nat) :
  map fst (combine (seq s (length l)) l) = seq s (length l).
Proof.
  revert s; induction l as [| x l IH]; intros s; simpl; [reflexivity |].
  rewrite IH. reflexivity.
Qed.

Lemma combine_seq_In (l : list F) (s i : nat) (v : F) :
  In (i, v) (combine (seq s (length l)) l) ->
  s <= i /\ nth_error l (i - s) = Some v.
Proof.
  revert s; induction l as [| x l IH]; intros s; simpl; [tauto |].
  intros [H | H].
  - injection H as <- <-. rewrite Nat.sub_diag. split; [lia | reflexivity].
  - apply IH in H as [H1 H2]. split; [lia |].
    replace (i - s) with (S (i - S s)) by lia. exact H2.
Qed.

Lemma topk_row_ok (k : nat) (l : list F) (sel : list (nat * F)) :
  topk_row k l = inr sel -> selection k l sel.
Proof.
  unfold topk_row. destruct (Nat.leb_spec k (length l)) as [Hk |]; [| discriminate].
  intros H; injection H as <-.
  assert (HP := sort_desc_perm (enumerate l)).
  repeat split.
  - rewrite length_firstn, (Permutation_length HP). unfold enumerate.
    rewrite length_combine, length_seq. lia.
  - rewrite <- firstn_map. apply NoDup_firstn.
    apply (Permutation_NoDup (Permutation_sym (Permutation_map fst HP))).
    unfold enumerate. rewrite combine_seq_fst. apply seq_NoDup.
  - apply Forall_forall. intros [i v] Hin. apply In_firstn in Hin.
    apply (Permutation_in _ HP) in Hin. apply combine_seq_In in Hin as [_ Hin].
    rewrite Nat.sub_0_r in Hin. exact Hin.
Qed.

Lemma topk_row_total (k : nat) (l : list F) :
  k <= length l -> exists sel, topk_row k l = inr sel.
Proof.
  intros Hk. unfold topk_row. destruct (Nat.leb_spec k (length l)); [| lia].
  eexists; reflexivity.
Qed.

Lemma topk_row_raises (k : nat) (l : list F) :
  length l < k -> exists e, topk_row k l = inl e.
Proof.
  intros Hk. unfold topk_row. destruct (Nat.leb_spec k (length l)); [lia |].
  eexists; reflexivity.
Qed.

Lemma selection_fst (k : nat) (l : list F) (sel : list (nat * F)) :
  selection k l sel ->
  length (map fst sel) = k /\ NoDup (map fst sel)
  /\ Forall (fun e => e < length l) (map fst sel).
Proof.
  intros (H1 & H2 & H3). repeat split; auto.
  - rewrite length_map. exact H1.
  - apply Forall_map. eapply Forall_impl; [| exact H3].
    intros p Hp. apply nth_error_Some. rewrite Hp. discriminate.
Qed.

Lemma selection_snd (k : nat) (l : list F) (sel : list (nat * F)) :
  selection k l sel ->
  length (map snd sel) = k /\ Forall (fun x => In x l) (map snd sel).
Proof.
  intros (H1 & _ & H3). split.
  - rewrite length_map. exact H1.
  - apply Forall_map. eapply Forall_impl; [| exact H3].
    intros p Hp. eapply nth_error_In. exact Hp.
Qed.

Lemma topk_rows_ok (k : nat) (rows : list (list F)) v i :
  topk_rows k rows = inr (v, i) ->
  exists sel, Forall2 (selection k) rows sel
              /\ v = map (map snd) sel /\ i = map (map fst) sel.
Proof.
  unfold topk_rows. intros H. apply rbind_ok in H as (sel & Hsel & H).
  injection H as <- <-. exists sel. repeat split.
  apply rmap_ok_Forall2 in Hsel.
  eapply Forall2_impl; [| exact Hsel]. intros r s. apply topk_row_ok.
Qed.

Lemma topk_ok (t : Tensor) (k : nat) v i :
  topk t k = inr (v, i) ->
  dtype v = dtype t /\ requires_grad v = requires_grad t
  /\ exists sel, Forall2 (selection k) (data t) sel
                 /\ data v = map (map snd) sel /\ i = map (map fst) sel.
Proof.
  unfold topk. intros H. apply rbind_ok in H as ([v' i'] & Hr & H).
  injection H as <- <-. simpl. repeat split. apply topk_rows_ok. exact Hr.
Qed.

Lemma selection_rows_distinct (k n : nat) (rows : list (list F)) sel :
  Forall2 (selection k) rows sel ->
  Forall (fun r => length r <= n) rows ->
  Forall (distinct_below n) (map (map fst) sel).
Proof.
  induction 1 as [| r s rows sel Hs _ IH]; simpl; intros Hn; constructor.
  - apply selection_fst in Hs as (_ & Hd & Hb).
    inversion Hn; subst.
    split; auto. eapply Forall_impl; [| exact Hb]. simpl. intros; lia.
  - apply IH. inversion Hn; auto.
Qed.

Lemma topk_total (t : Tensor) (k : nat) :
  Forall (fun r => k <= length r) (data t) -> exists v i, topk t k = inr (v, i).
Proof.
  intros H. unfold topk, topk_rows.
  destruct (@rmap_total _ _ (topk_row k) (data t)) as (sel & Hsel).
  - eapply Forall_impl; [| exact H]. intros r. apply topk_row_total.
  - rewrite Hsel. simpl. eauto.
Qed.

End TopkFacts.

(** ** [grouped_router] *)

Section GroupedFacts.
Context {Sc : Scalar}.

Lemma softmax_row_length (l : list F) : length (softmax_row l) = length l.
Proof. unfold softmax_row. rewrite !length_map. reflexivity. Qed.

Lemma softmax_rows_of (n : nat) (t : Tensor) (d : DType) :
  rows_of n (data t) -> rows_of n (data (softmax t d)).
Proof.
  intros H. simpl. apply Forall_map. eapply Forall_impl; [| exact H].
  intros r Hr. rewrite softmax_row_length, length_map. exact Hr.
Qed.

Lemma rows_of_concat {A} (n : nat) (l : list (list (list A))) :
  Forall (rows_of n) l -> rows_of n (concat l).
Proof.
  induction 1 as [| x l Hx _ IH]; simpl; [constructor |].
  apply Forall_app. split; assumption.
Qed.

Lemma arange_exact (groups gne : nat) :
  0 < gne -> arange (groups * gne) gne = ok (group_offsets groups gne).
Proof.
  intros Hg. unfold arange. destruct (Nat.eqb_spec gne 0); [lia |].
  replace ((groups * gne + gne - 1) / gne) with groups; [reflexivity |].
  apply Nat.div_unique with (r := gne - 1); lia.
Qed.

Lemma topk_row_exact (k : nat) (l : list F) :
  k <= length l -> topk_row k l = ok (firstn k (sort_desc (enumerate l))).
Proof.
  intros H. unfold topk_row. destruct (Nat.leb_spec k (length l)); [reflexivity | lia].
Qed.

Lemma add_offsets_exact (offsets : list nat) (indices : list (list (list nat))) :
  Forall (fun groups => length groups = length offsets) indices ->
  add_offsets indices offsets
  = ok (map (fun groups => map (fun '(g, o) => map (fun i => i + o) g)
                               (combine groups offsets)) indices).
Proof.
  intros H. unfold add_offsets. apply rmap_ext_ok.
  eapply Forall_impl; [| exact H]. intros groups Hl. simpl in Hl.
  rewrite Hl, Nat.eqb_refl. reflexivity.
Qed.

(** The result of [grouped_router] in closed form, when the group size
    divides the number of experts and [topk]. *)
Lemma grouped_router_closed (logits : Tensor) (groups gne gt : nat) :
  0 < groups -> 0 < gt -> gt <= gne ->
  rows_of (groups * gne) (data logits) ->
  let probs := softmax logits Float32 in
  grouped_router logits (groups * gne) (groups * gt) groups
  = ok (probs,
        mkTensor Float32 (requires_grad logits)
          (map (fun r => grouped_scores_row (group_picks gt gne r)) (data probs)),
        map (fun r => grouped_indices_row (group_offsets groups gne)
                        (group_picks gt gne r)) (data probs)).
Proof.
  intros HG Hgt Hle Hrows probs.
  assert (Hgne : 0 < gne) by lia.
  assert (HP : rows_of (groups * gne) (data probs))
    by (apply softmax_rows_of; exact Hrows).
  unfold grouped_router. fold probs.
  destruct (Nat.eqb_spec groups 0); [lia |].
  replace (groups * gne / groups) with gne
    by (rewrite Nat.mul_comm, Nat.div_mul; lia).
  replace (groups * gt / groups) with gt
    by (rewrite Nat.mul_comm, Nat.div_mul; lia).
  set (R3 := map (fun r => chunks (length r) gne r) (data probs)).
  assert (HR3 : Forall (fun r3 => rows_of gne r3 /\ length r3 = groups) R3).
  { apply Forall_map. eapply Forall_impl; [| exact HP]. intros r Hr.
    simpl in Hr.
    destruct (@chunks_rows _ gne (length r) r groups) as (H1 & _ & H3);
      auto; rewrite Hr; nia. }
  assert (HcR3 : map (@concat F) R3 = data probs).
  { unfold R3. rewrite map_map. rewrite <- (map_id (data probs)) at 2.
    apply map_ext_Forall. eapply Forall_impl; [| exact HP]. intros r Hr.
    simpl in Hr.
    destruct (@chunks_rows _ gne (length r) r groups) as (_ & H2 & _);
      auto; rewrite Hr; nia. }
  assert (Hflat : concat (data probs) = concat (concat R3)).
  { rewrite concat_concat, HcR3. reflexivity. }
  unfold view3. rewrite Hflat.
  rewrite view2_concat; auto.
  2:{ apply rows_of_concat. eapply Forall_impl; [| exact HR3]. intros ? [? ?]; assumption. }
  simpl rbind.
  rewrite view2_concat; auto.
  2:{ eapply Forall_impl; [| exact HR3]. intros ? [? ?]; assumption. }
  simpl rbind.
  set (pick := fun grp : list F => firstn gt (sort_desc (enumerate grp))).
  assert (Hsel : rmap (rmap (topk_row gt)) R3 = ok (map (map pick) R3)).
  { apply rmap_ext_ok. eapply Forall_impl; [| exact HR3].
    intros r3 [Hr3 _]. apply rmap_ext_ok.
    eapply Forall_impl; [| exact Hr3]. intros grp Hgrp. simpl in Hgrp.
    apply topk_row_exact. lia. }
  rewrite Hsel. simpl rbind.
  set (S3 := map (map pick) R3).
  assert (HS3 : Forall (fun s => length s = groups
                                 /\ Forall (fun p => length p = gt) s) S3).
  { apply Forall_map. eapply Forall_impl; [| exact HR3].
    intros r3 [Hr3 Hl]. split.
    - rewrite length_map. exact Hl.
    - apply Forall_map. eapply Forall_impl; [| exact Hr3].
      intros grp Hgrp. simpl in Hgrp. unfold pick.
      rewrite length_firstn, (Permutation_length (sort_desc_perm _)).
      unfold enumerate. rewrite length_combine, length_seq. lia. }
  assert (Hk : 0 < groups * gt) by nia.
  rewrite concat_concat, view2_concat; auto.
  2:{ apply Forall_map. apply Forall_map. eapply Forall_impl; [| exact HS3].
      intros s [Hl Hs]. rewrite (@length_concat_rows _ gt).
      - rewrite length_map, Hl. reflexivity.
      - apply Forall_map. eapply Forall_impl; [| exact Hs].
        intros p Hp. rewrite length_map. exact Hp. }
  simpl rbind. rewrite arange_exact by assumption. simpl rbind.
  rewrite add_offsets_exact.
  2:{ apply Forall_map. eapply Forall_impl; [| exact HS3].
      intros s [Hl _]. unfold group_offsets.
      rewrite !length_map, length_seq. exact Hl. }
  simpl rbind.
  rewrite concat_concat, view2_concat; auto.
  2:{ apply Forall_map. apply Forall_map. apply Forall_map.
      eapply Forall_impl; [| exact HS3].
      intros s [Hl Hs]. rewrite (@length_concat_rows _ gt).
      - rewrite length_map, length_combine, length_map. unfold group_offsets.
        rewrite !length_map, length_seq, Hl. rewrite Nat.min_id. reflexivity.
      - apply Forall_map. apply Forall_forall. intros [g o] Hin.
        rewrite length_map. apply in_combine_l in Hin.
        apply in_map_iff in Hin as (p & <- & Hp).
        rewrite length_map. rewrite Forall_forall in Hs. auto. }
  simpl rbind. unfold ok. repeat f_equal.
  - unfold S3, R3. rewrite !map_map. reflexivity.
  - unfold S3, R3. rewrite !map_map. reflexivity.
Qed.

End GroupedFacts.

Section GroupedIndices.
Context {Sc : Scalar}.

Lemma rows_unique {A} (k : nat) (a b : list (list A)) :
  0 < k -> rows_of k a -> rows_of k b -> concat a = concat b -> a = b.
Proof.
  intros Hk Ha Hb E.
  assert (H : ok a = ok b).
  { rewrite <- (view2_concat Hk Ha), <- (view2_concat Hk Hb), E. reflexivity. }
  injection H. auto.
Qed.

Lemma NoDup_shift (o : nat) (g : list nat) :
  NoDup g -> NoDup (map (fun i => i + o) g).
Proof.
  intros H. apply NoDup_map_NoDup_ForallPairs; [| exact H].
  intros x y _ _ E. lia.
Qed.

(** Groups of local ids moved by the offsets of successive groups stay
    distinct, and each id falls in the range of its group. *)
Lemma shifted_groups_distinct (gne : nat) (gs : list (list nat)) (s : nat) :
  Forall (distinct_below gne) gs ->
  let row := concat (map (fun '(g, o) => map (fun i => i + o) g)
                         (combine gs (map (fun i => i * gne)
                                          (seq s (length gs))))) in
  NoDup row /\ Forall (fun e => s * gne <= e < (s + length gs) * gne) row.
Proof.
  intros H; revert s. induction H as [| g gs [Hd Hb] _ IH]; intros s; simpl.
  - split; constructor.
  - destruct (IH (S s)) as [IH1 IH2]. split.
    + apply NoDup_app; [apply NoDup_shift; exact Hd | exact IH1 |].
      intros a Ha Hin. apply in_map_iff in Ha as (i & <- & Hi).
      rewrite Forall_forall in Hb, IH2.
      specialize (Hb _ Hi). specialize (IH2 _ Hin). simpl in IH2. nia.
    + apply Forall_app. split.
      * apply Forall_map. eapply Forall_impl; [| exact Hb].
        intros i Hi. simpl in Hi. nia.
      * eapply Forall_impl; [| exact IH2]. intros e He. simpl in He. nia.
Qed.

Lemma group_selection_distinct (gt gne : nat) (grp : list F) s :
  length grp = gne -> topk_row gt grp = inr s ->
  length (map fst s) = gt /\ distinct_below gne (map fst s).
Proof.
  intros Hl H. apply topk_row_ok, selection_fst in H as (H1 & H2 & H3).
  rewrite Hl in H3. repeat split; assumption.
Qed.

(** Whenever [grouped_router] returns and the group size divides [topk],
    no row of the ids has a duplicate and every id is an expert. *)
Lemma grouped_router_distinct (logits : Tensor) (N k G : nat) probs scores idx :
  k mod G = 0 ->
  grouped_router logits N k G = inr (probs, scores, idx) ->
  Forall (distinct_below N) idx.
Proof.
  intros Hk. unfold grouped_router.
  destruct (Nat.eqb_spec G 0) as [| HG]; [discriminate |].
  set (gne := N / G). set (gt := k / G).
  intros H.
  apply rbind_ok in H as (grouped & Hview & H).
  apply rbind_ok in H as (sel & Hsel & H).
  apply rbind_ok in H as (sc & _ & H).
  apply rbind_ok in H as (offsets & Hoff & H).
  apply rbind_ok in H as (adj & Hadj & H).
  apply rbind_ok in H as (ai & Hai & H).
  injection H as _ _ <-.
  (* the shape of the groups *)
  unfold view3 in Hview. apply rbind_ok in Hview as (inner & Hin & Hview).
  apply view2_ok in Hin as (Hgne & Hinner & _ & _).
  apply view2_ok in Hview as (_ & HrowsG & Hcat & _).
  assert (Hgroups : Forall (rows_of gne) grouped).
  { apply Forall_concat. rewrite Hcat. exact Hinner. }
  (* the local selections *)
  apply rmap_ok_Forall2 in Hsel.
  assert (Hlocal : Forall (fun s => length s = G
                     /\ Forall (fun p => length p = gt /\ distinct_below gne p) s)
                          (map (map (map fst)) sel)).
  { clear - Hsel HrowsG Hgroups.
    induction Hsel as [| r s grouped sel Hrs _ IH]; simpl; constructor.
    - assert (Hr := Forall_inv HrowsG). assert (Hg := Forall_inv Hgroups).
      simpl in Hr. clear HrowsG Hgroups IH.
      apply rmap_ok_Forall2 in Hrs. split.
      + rewrite length_map, <- (Forall2_length Hrs). exact Hr.
      + clear Hr. induction Hrs as [| grp p r s Hp _ IHr]; simpl; constructor.
        * eapply group_selection_distinct; [exact (Forall_inv Hg) | exact Hp].
        * apply IHr. exact (Forall_inv_tail Hg).
    - apply IH; [exact (Forall_inv_tail HrowsG) | exact (Forall_inv_tail Hgroups)]. }
  (* the offsets *)
  unfold arange in Hoff. destruct (Nat.eqb_spec gne 0); [lia |].
  injection Hoff as <-.
  set (A := (N + gne - 1) / gne) in *.
  assert (HGgne : G * gne <= N).
  { unfold gne. rewrite (Nat.div_mod_eq N G) at 2. lia. }
  assert (HA1 : G = 1 -> A = 1).
  { intros ->. unfold A, gne. rewrite Nat.div_1_r.
    unfold gne in Hgne. rewrite Nat.div_1_r in Hgne.
    symmetry. apply Nat.div_unique with (r := N - 1); lia. }
  assert (HA2 : A = 1 -> G = 1).
  { intros HA. destruct (Nat.eq_dec G 1) as [| HG1]; [assumption | exfalso].
    assert (N + gne - 1 < 2 * gne).
    { destruct (Nat.lt_ge_cases (N + gne - 1) (2 * gne)) as [| Hge]; [assumption |].
      apply (Nat.Div0.div_le_mono _ _ gne) in Hge.
      replace (2 * gne / gne) with 2 in Hge
        by (apply Nat.div_unique with (r := 0); lia).
      fold A in Hge. lia. }
    assert (2 * gne <= N) by nia. lia. }
  (* every row of the adjusted ids is made of shifted groups *)
  apply rmap_ok_Forall2 in Hadj.
  assert (Hrows : Forall (fun a => length (concat a) = G * gt
                                   /\ distinct_below N (concat a)) adj).
  { clear - Hadj Hlocal HA1 HA2 HGgne Hgne.
    induction Hadj as [| gs a ind adj Hga _ IH]; constructor.
    - destruct (Forall_inv Hlocal) as [HlG Hgs]. clear IH Hlocal.
      assert (HlenA : length (map (fun i => i * gne) (seq 0 A)) = A)
        by (rewrite length_map, length_seq; reflexivity).
      rewrite HlenA in Hga.
      destruct (Nat.eqb_spec (length gs) A) as [HGA | HGA].
      + injection Hga as <-. rewrite <- HGA.
        destruct (@shifted_groups_distinct gne gs 0) as [Hd Hb].
        { eapply Forall_impl; [| exact Hgs]. intros p [_ Hp]; exact Hp. }
        split; [| split; [exact Hd |]].
        * rewrite (@length_concat_rows _ gt).
          { rewrite length_map, length_combine, length_map, length_seq.
            rewrite Nat.min_id, HlG. reflexivity. }
          apply Forall_map. apply Forall_forall. intros [g o] Hin.
          rewrite length_map. apply in_combine_l in Hin.
          rewrite Forall_forall in Hgs. apply Hgs in Hin. tauto.
        * eapply Forall_impl; [| exact Hb]. intros e He. simpl in He. nia.
      + exfalso. clear HlenA.
        assert (HA : length (seq 0 A) = A) by apply length_seq.
        destruct (seq 0 A) as [| o [| o' os]]; simpl in Hga, HA.
        * destruct gs as [| g [| g' gs']]; try discriminate.
          simpl in HlG. symmetry in HlG. apply HA1 in HlG. lia.
        * symmetry in HA. specialize (HA2 HA). lia.
        * destruct gs as [| g [| g' gs']]; try discriminate.
          simpl in HlG, HGA. symmetry in HlG. apply HA1 in HlG. lia.
    - apply IH. exact (Forall_inv_tail Hlocal). }
  (* the last view cuts the rows where they were *)
  apply view2_ok in Hai as (Hk0 & Hrk & Hcat' & _).
  assert (HkG : k = G * gt).
  { unfold gt. rewrite (Nat.div_mod_eq k G) at 1. lia. }
  assert (E : ai = map (@concat nat) adj).
  { apply (@rows_unique _ k); auto.
    - apply Forall_map. eapply Forall_impl; [| exact Hrows].
      intros a [Ha _]. lia.
    - rewrite Hcat', concat_concat. reflexivity. }
  rewrite E. apply Forall_map. eapply Forall_impl; [| exact Hrows].
  intros a [_ Ha]. exact Ha.
Qed.

End GroupedIndices.

(** ** The method monad *)

Section MethodFacts.
Context {Sc : Scalar} {U : MoEUtils}.

Lemma bind_ok {A B} (m : M A) (k : A -> M B) s b s' :
  bind m k s = (inr b, s') ->
  exists a s1, m s = (inr a, s1) /\ k a s1 = (inr b, s').
Proof.
  unfold bind. destruct (m s) as [[e | a] s1]; intros H; [discriminate | eauto].
Qed.

Lemma bind_raises {A B} (m : M A) (k : A -> M B) s e s1 :
  m s = (inl e, s1) -> bind m k s = (inl e, s1).
Proof. unfold bind. intros ->. reflexivity. Qed.

Lemma bind_continues {A B} (m : M A) (k : A -> M B) s a s1 :
  m s = (inr a, s1) -> bind m k s = k a s1.
Proof. unfold bind. intros ->. reflexivity. Qed.

Lemma lift_ok {A} (r : result A) s a s' :
  lift r s = (inr a, s') -> r = inr a /\ s' = s.
Proof. unfold lift. intros H; injection H as -> ->. auto. Qed.

Lemma ret_ok {A} (a b : A) s s' :
  ret a s = (inr b, s') -> b = a /\ s' = s.
Proof. unfold ret, ok. intros H; injection H as -> ->. auto. Qed.

Lemma autoscaler_ok (v : Tensor) (loss : F) s v' s' :
  MoEAuxLossAutoScaler_apply v loss s = (inr v', s') ->
  v' = v /\ aux_losses s' = loss :: aux_losses s
  /\ input_jitter s' = input_jitter s /\ rng_pos s' = rng_pos s.
Proof.
  unfold MoEAuxLossAutoScaler_apply, ok. intros H; injection H as <- <-.
  simpl. auto.
Qed.

Variable self : TopKRouter.

Lemma view_ok (t : Tensor) (n : nat) t' :
  view t n = inr t' ->
  rows_of n (data t') /\ dtype t' = dtype t
  /\ requires_grad t' = requires_grad t /\ concat (data t') = concat (data t).
Proof.
  unfold view. intros H. apply rbind_ok in H as (rows & Hv & H).
  injection H as <-. simpl. apply view2_ok in Hv as (_ & H1 & H2 & _). auto.
Qed.

Lemma view_rows (t : Tensor) (n : nat) :
  0 < n -> rows_of n (data t) -> view t n = ok t.
Proof.
  intros Hn H. unfold view. rewrite view2_concat by assumption. simpl.
  destruct t; reflexivity.
Qed.

Lemma apply_aux_loss_ok (f : LossFunc) probs idx act s act' s' :
  apply_aux_loss self f probs idx act s = (inr act', s') -> act' = act.
Proof.
  unfold apply_aux_loss. intros H.
  apply bind_ok in H as (mask & s1 & _ & H).
  apply autoscaler_ok in H. tauto.
Qed.

Lemma apply_z_loss_ok (t : Tensor) s t' s' :
  apply_z_loss self t s = (inr t', s') -> t' = t.
Proof.
  unfold apply_z_loss. destruct (moe_z_loss_coeff _).
  - intros H. apply autoscaler_ok in H. tauto.
  - intros H. apply ret_ok in H. tauto.
Qed.

Lemma mul_tensor_rows (n : nat) (a b : Tensor) :
  rows_of n (data a) -> rows_of n (data b) ->
  rows_of n (data (mul_tensor a b)).
Proof.
  intros Ha Hb. simpl. apply Forall_map. apply Forall_forall.
  intros [ra rb] Hin. rewrite length_map, length_combine.
  unfold rows_of in Ha, Hb. rewrite Forall_forall in Ha, Hb.
  rewrite (Ha _ (in_combine_l _ _ _ _ Hin)), (Hb _ (in_combine_r _ _ _ _ Hin)).
  apply Nat.min_id.
Qed.

Lemma rsample_ok (low high : F) (sh : nat * nat) s t s' :
  rsample low high sh s = (inr t, s') ->
  rows_of (snd sh) (data t) /\ length (data t) = fst sh
  /\ dtype t = Float32 /\ rng_pos s' = rng_pos s + fst sh * snd sh.
Proof.
  unfold rsample. intros H. apply bind_ok in H as (u & s1 & Hu & H).
  apply ret_ok in H as [-> ->]. unfold rand in Hu. destruct sh as [rows cols].
  injection Hu as <- <-. simpl. repeat split.
  - apply Forall_map. apply Forall_map. apply Forall_forall. intros r _.
    rewrite length_map. unfold draws. rewrite length_map, length_seq. reflexivity.
  - rewrite !length_map, length_seq. reflexivity.
Qed.

Lemma shape_rows (n : nat) (rows : list (list F)) :
  rows_of n rows -> rows <> [] -> shape rows = (length rows, n).
Proof.
  intros H Hne. unfold shape. destruct rows as [| r rows]; [congruence |].
  simpl. rewrite (Forall_inv H). reflexivity.
Qed.

Lemma apply_input_jitter_rows (n : nat) (t : Tensor) s t' s' :
  apply_input_jitter self t s = (inr t', s') ->
  rows_of n (data t) ->
  rows_of n (data t') /\ length (data t') = length (data t).
Proof.
  unfold apply_input_jitter. destruct (moe_input_jitter_eps _) as [eps |].
  - intros H Hrows.
    apply bind_ok in H as (b & s1 & _ & H).
    apply bind_ok in H as (noise & s2 & Hn & H).
    apply ret_ok in H as [-> _].
    apply rsample_ok in Hn as (Hn1 & Hn2 & _).
    destruct (data t) as [| r rows] eqn:E.
    + simpl. rewrite E. simpl. split; [constructor | reflexivity].
    + assert (Hsh : shape (r :: rows) = (length (r :: rows), n))
        by (apply shape_rows; [assumption | discriminate]).
      rewrite Hsh in Hn1, Hn2. simpl fst in Hn2. simpl snd in Hn1. split.
      * apply mul_tensor_rows; [rewrite E |]; assumption.
      * simpl. rewrite length_map, length_combine, E, Hn2. apply Nat.min_id.
  - intros H Hrows. apply ret_ok in H as [-> _]. auto.
Qed.

End MethodFacts.

(** ** The ids selected by each strategy *)

Section IndexFacts.
Context {Sc : Scalar} {U : MoEUtils}.
Variable self : TopKRouter.

Lemma rows_of_map (f : list F -> list F) (n : nat) (rows : list (list F)) :
  (forall r, length (f r) = length r) ->
  rows_of n rows -> rows_of n (map f rows).
Proof.
  intros Hf H. apply Forall_map. eapply Forall_impl; [| exact H].
  intros r Hr. simpl in *. rewrite Hf. exact Hr.
Qed.

Lemma map_data_rows (f : F -> F) (n : nat) (t : Tensor) :
  rows_of n (data t) -> rows_of n (data (map_data f t)).
Proof. intros H. simpl. apply rows_of_map; [apply length_map | exact H]. Qed.

Lemma to_dtype_rows (d : DType) (n : nat) (t : Tensor) :
  rows_of n (data t) -> rows_of n (data (to_dtype d t)).
Proof. intros H. simpl. apply rows_of_map; [apply length_map | exact H]. Qed.

Lemma activation_rows (n : nat) (t : Tensor) :
  rows_of n (data t) -> rows_of n (data (_sinkhorn_activation self t)).
Proof.
  intros H. unfold _sinkhorn_activation. destruct (topk_ self =? 1).
  - apply map_data_rows. exact H.
  - apply to_dtype_rows, softmax_rows_of. exact H.
Qed.

Lemma mask_row_length (row : list F) (mask : list bool) (v : F) :
  length (mask_row row mask v) = length row.
Proof.
  revert mask; induction row as [| x row IH]; intros [| b mask]; simpl; auto.
Qed.

Lemma attention_mask_rows (n : nat) (t : Tensor) (mask : list (list bool)) :
  rows_of n (data t) -> rows_of n (data (attention_mask_func t mask)).
Proof.
  simpl. generalize (cast (dtype t) mask_fill_value) as v. intros v H.
  revert mask. induction H as [| r rows Hr Ht IH]; intros mask.
  - destruct mask; simpl; constructor.
  - destruct mask as [| m mask]; simpl.
    + constructor; assumption.
    + constructor; [rewrite mask_row_length; exact Hr | apply IH].
Qed.

Lemma topk_distinct (t : Tensor) (k n : nat) v i :
  topk t k = inr (v, i) -> rows_of n (data t) -> Forall (distinct_below n) i.
Proof.
  intros H Hrows. apply topk_ok in H as (_ & _ & sel & Hsel & _ & ->).
  eapply selection_rows_distinct; [exact Hsel |].
  eapply Forall_impl; [| exact Hrows]. simpl. intros; lia.
Qed.

Lemma gather_row_ok (row : list F) (idx : list nat) g :
  gather_row row idx = inr g ->
  Forall2 (fun e x => nth_error row e = Some x) idx g.
Proof.
  unfold gather_row. intros H. apply rmap_ok_Forall2 in H.
  eapply Forall2_impl; [| exact H]. intros e x. simpl.
  destruct (nth_error row e); [| discriminate]. intros E; injection E as ->.
  reflexivity.
Qed.

Lemma gather_rows_ok (rows : list (list F)) (idx : ITensor) g :
  gather_rows rows idx = inr g ->
  length idx <= length rows
  /\ Forall2 (fun ri gr => Forall2 (fun e x => nth_error (fst ri) e = Some x)
                                   (snd ri) gr)
             (combine rows idx) g.
Proof.
  revert rows g; induction idx as [| i idx IH]; intros rows g.
  - destruct rows; simpl; intros H; injection H as <-;
      (split; [lia | constructor]).
  - destruct rows as [| r rows]; simpl; [discriminate |]. intros H.
    apply rbind_ok in H as (gr & Hgr & H).
    apply rbind_ok in H as (gs & Hgs & H). injection H as <-.
    apply IH in Hgs as [Hl Hgs]. simpl. split; [lia |].
    constructor; [| exact Hgs]. apply gather_row_ok. exact Hgr.
Qed.

Lemma gather_rows_below (n : nat) (rows : list (list F)) (idx : ITensor) g :
  gather_rows rows idx = inr g -> rows_of n rows ->
  Forall (Forall (fun e => e < n)) idx.
Proof.
  revert rows g; induction idx as [| i idx IH]; intros rows g.
  - constructor.
  - destruct rows as [| r rows]; simpl; [discriminate |]. intros H Hrows.
    apply rbind_ok in H as (gr & Hgr & H).
    apply rbind_ok in H as (gs & Hgs & H).
    constructor.
    + apply gather_row_ok in Hgr. rewrite <- (Forall_inv Hrows).
      clear - Hgr. induction Hgr as [| e x i gr He _ IHg]; constructor; auto.
      apply nth_error_Some. rewrite He. discriminate.
    + eapply IH; [exact Hgs | exact (Forall_inv_tail Hrows)].
Qed.

Lemma sinkhorn_no_grad_ok (logits : Tensor) norm idx :
  sinkhorn_no_grad self logits = inr (norm, idx) ->
  norm = mkTensor Float32 false
           (sinkhorn (map (map (cast Float32)) (data logits)))
  /\ exists v, topk norm (topk_ self) = inr (v, idx).
Proof.
  unfold sinkhorn_no_grad. intros H.
  apply rbind_ok in H as ([v i] & Ht & H). injection H as <- <-.
  split; [reflexivity |]. exists v. exact Ht.
Qed.

Lemma sinkhorn_distinct (n : nat) (logits : Tensor) s w idx s' :
  sinkhorn_load_balancing self logits s = (inr (w, idx), s') ->
  rows_of n (data logits) -> Forall (distinct_below n) idx.
Proof.
  unfold sinkhorn_load_balancing. intros H Hrows.
  destruct (negb (eqb _ zero)); [discriminate |].
  destruct (training self).
  - apply bind_ok in H as ([v i] & s1 & Ht & H).
    apply lift_ok in Ht as [Ht _].
    apply sinkhorn_no_grad_ok in Ht as (_ & v' & Ht).
    apply bind_ok in H as (sc & s2 & Hg & H).
    apply lift_ok in Hg as [Hg _]. apply ret_ok in H as [H _].
    injection H as <- <-.
    apply topk_ok in Ht as (_ & _ & sel & Hsel & _ & ->).
    unfold gather in Hg. apply rbind_ok in Hg as (g & Hg & _).
    apply gather_rows_below with (n := n) in Hg;
      [| apply activation_rows; exact Hrows].
    clear - Hsel Hg. revert Hg.
    induction Hsel as [| r sl rows sel Hs _ IH]; simpl; intros Hg; constructor.
    + apply selection_fst in Hs as (_ & Hd & _). split; [exact Hd |].
      exact (Forall_inv Hg).
    + apply IH. exact (Forall_inv_tail Hg).
  - apply lift_ok in H as [H _].
    eapply topk_distinct; [exact H |]. apply activation_rows. exact Hrows.
Qed.

Lemma sigmoid_distinct (n : nat) (logits : Tensor) s w idx s' :
  sigmoid_load_balancing self logits s = (inr (w, idx), s') ->
  rows_of n (data logits) -> Forall (distinct_below n) idx.
Proof.
  unfold sigmoid_load_balancing. intros H Hrows.
  apply bind_ok in H as (l' & s1 & Hl & H).
  assert (Hrows' : rows_of n (data l')).
  { destruct (moe_dropout _) as [p |].
    - destruct (negb (eqb p zero) && training self).
      + apply bind_ok in Hl as (mask & s0 & _ & Hl).
        apply ret_ok in Hl as [-> _]. apply attention_mask_rows. exact Hrows.
      + apply ret_ok in Hl as [-> _]. exact Hrows.
    - apply ret_ok in Hl as [-> _]. exact Hrows. }
  apply bind_ok in H as ([v i] & s2 & Ht & H). apply lift_ok in Ht as [Ht _].
  apply bind_ok in H as (sc & s3 & _ & H). apply ret_ok in H as [H _].
  injection H as _ <-.
  eapply topk_distinct; [exact Ht |]. apply map_data_rows. exact Hrows'.
Qed.

Lemma aux_loss_distinct (n : nat) (logits : Tensor) s w idx s' :
  (moe_router_type (config (base self)) = "grouped" ->
   n = num_moe_experts (config (base self))
   /\ topk_ self mod moe_group_size (config (base self)) = 0) ->
  aux_loss_load_balancing self logits s = (inr (w, idx), s') ->
  rows_of n (data logits) -> Forall (distinct_below n) idx.
Proof.
  unfold aux_loss_load_balancing. intros Hgrp H Hrows.
  apply bind_ok in H as ([[probs sc] i] & s1 & Hsel & H).
  apply bind_ok in H as (sc' & s2 & _ & H). apply ret_ok in H as [H _].
  injection H as _ <-.
  destruct (String.eqb_spec (moe_router_type (config (base self))) "mixtral").
  { apply bind_ok in Hsel as ([v i'] & s0 & Ht & Hsel).
    apply lift_ok in Ht as [Ht _]. apply ret_ok in Hsel as [Hsel _].
    injection Hsel as _ _ ->. eapply topk_distinct; eauto. }
  destruct (String.eqb_spec (moe_router_type (config (base self))) "st").
  { apply bind_ok in Hsel as ([v i'] & s0 & Ht & Hsel).
    apply lift_ok in Ht as [Ht _]. apply ret_ok in Hsel as [Hsel _].
    injection Hsel as _ _ ->. eapply topk_distinct; [exact Ht |].
    apply to_dtype_rows, softmax_rows_of. exact Hrows. }
  destruct (String.eqb_spec (moe_router_type (config (base self))) "grouped")
    as [Hg |]; [| discriminate].
  apply lift_ok in Hsel as [Hsel _]. destruct (Hgrp Hg) as [-> Hk].
  eapply grouped_router_distinct; eauto.
Qed.

Lemma btx_distinct (n : nat) (logits : Tensor) s w idx s' :
  btx_aux_loss_load_balancing self logits s = (inr (w, idx), s') ->
  rows_of n (data logits) -> Forall (distinct_below n) idx.
Proof.
  unfold btx_aux_loss_load_balancing. intros H Hrows.
  apply bind_ok in H as ([v i] & s1 & Ht & H). apply lift_ok in Ht as [Ht _].
  apply bind_ok in H as (sc & s2 & _ & H).
  apply bind_ok in H as (sc' & s3 & _ & H). apply ret_ok in H as [H _].
  injection H as _ <-. eapply topk_distinct; eauto.
Qed.

Lemma routing_unfold (logits : Tensor) :
  routing self logits
  = (l <- lift (view logits (num_moe_experts (config (base self)))) ;;
     l <- apply_z_loss self l ;;
     l <- apply_input_jitter self l ;;
     strategy self l)%M.
Proof. reflexivity. Qed.

(** The logits that reach the strategy: those of the caller, seen as rows
    of [num_moe_experts] entries, after the z-loss and the jitter. *)
Lemma routing_ok (logits : Tensor) s r s' :
  routing self logits s = (inr r, s') ->
  exists l0 l1 s1 s2,
    view logits (num_moe_experts (config (base self))) = inr l0
    /\ apply_z_loss self l0 s = (inr l0, s1)
    /\ apply_input_jitter self l0 s1 = (inr l1, s2)
    /\ rows_of (num_moe_experts (config (base self))) (data l1)
    /\ length (data l1) = length (data l0)
    /\ strategy self l1 s2 = (inr r, s').
Proof.
  rewrite routing_unfold. intros H.
  apply bind_ok in H as (l0 & s0 & Hv & H). apply lift_ok in Hv as [Hv ->].
  apply bind_ok in H as (lz & s1 & Hz & H).
  assert (lz = l0) by (eapply apply_z_loss_ok; eauto). subst lz.
  apply bind_ok in H as (l1 & s2 & Hj & H).
  assert (Hrows : rows_of (num_moe_experts (config (base self))) (data l0))
    by (apply view_ok in Hv; tauto).
  assert (HJ := Hj). eapply apply_input_jitter_rows in HJ; [| exact Hrows].
  destruct HJ as [H1 H2].
  exists l0, l1, s1, s2. repeat split; assumption.
Qed.

Lemma strategy_distinct (logits : Tensor) s w idx s' :
  (routing_type self = "aux_loss" ->
   moe_aux_loss_type (config (base self)) = "switch" ->
   moe_router_type (config (base self)) = "grouped" ->
   topk_ self mod moe_group_size (config (base self)) = 0) ->
  strategy self logits s = (inr (w, idx), s') ->
  rows_of (num_moe_experts (config (base self))) (data logits) ->
  Forall (distinct_below (num_moe_experts (config (base self)))) idx.
Proof.
  unfold strategy. intros Hgrp H Hrows.
  destruct (String.eqb_spec (routing_type self) "sinkhorn").
  { eapply sinkhorn_distinct; eauto. }
  destruct (String.eqb_spec (routing_type self) "aux_loss") as [Ha |].
  { destruct (String.eqb_spec (moe_aux_loss_type (config (base self))) "switch")
      as [Hs |].
    { eapply aux_loss_distinct; eauto. }
    destruct (contains "btx" _); [| discriminate].
    eapply btx_distinct; eauto. }
  destruct (String.eqb_spec (routing_type self) "none").
  { apply bind_ok in H as ([v i] & s1 & Ht & H). apply lift_ok in Ht as [Ht _].
    apply ret_ok in H as [H _]. injection H as _ <-.
    eapply topk_distinct; eauto. }
  destruct (String.eqb_spec (routing_type self) "sigmoid"); [| discriminate].
  eapply sigmoid_distinct; eauto.
Qed.

End IndexFacts.

(** * The claims *)

Import QInstance.

(** An equation between closed terms, by evaluation of its left side. *)
Ltac by_evaluation :=
  lazymatch goal with
  | |- ?a = _ => vm_cast_no_check (@eq_refl _ a)
  end.

(** ** C1 *)

(** Claim C1.  Whatever the routing type (none, sinkhorn, aux_loss in
    each variant, sigmoid), the training mode, the jitter and the z-loss,
    when [TopKRouter.routing] returns, no row of the returned indices
    holds an expert id twice and every id lies in [0, num_moe_experts);
    for the grouped variant under its precondition that the group size
    divides [topk].  (When [topk] exceeds the number of experts the call
    raises, so [k <= N] is no hypothesis.) *)
Theorem C1_indices_distinct_in_range {Sc : Scalar} {U : MoEUtils}
  (self : TopKRouter) (logits : Tensor) (s : RouterState)
  (w : Tensor) (idx : ITensor) (s' : RouterState) :
  (routing_type self = "aux_loss" ->
   moe_aux_loss_type (config (base self)) = "switch" ->
   moe_router_type (config (base self)) = "grouped" ->
   topk_ self mod moe_group_size (config (base self)) = 0) ->
  routing self logits s = (inr (w, idx), s') ->
  Forall (distinct_below (num_moe_experts (config (base self)))) idx.
Proof.
  intros Hgrp H.
  apply routing_ok in H as (l0 & l1 & s1 & s2 & _ & _ & _ & Hrows & _ & H).
  eapply strategy_distinct; eauto.
Qed.

(** The grouped router on the logits of the docstring: 8 experts, top 4,
    2 groups. *)
Lemma C1_indices_distinct_in_range_witness :
  Forall (distinct_below 8) [[0; 1; 6; 5]; [2; 1; 6; 7]; [0; 2; 5; 6]; [3; 2; 5; 4]].
Proof.
  pose (out := routing (router_of (grouped_config 4) true)
                 (tensor Float32 example_logits) state0).
  apply (@C1_indices_distinct_in_range QScalar QUtils
           (router_of (grouped_config 4) true)
           (tensor Float32 example_logits) state0
           (weights_of out) _ (snd out)).
  - intros _ _ _. reflexivity.
  - by_evaluation.
Defined.

(** ** C10 *)

(** Claim C10.  [TopKRouter.__init__] with [moe_token_dropping] true
    fails its assertion, leaving the instance as [Router.__init__] built
    it, with none of the routing attributes ([topk], [routing_type],
    the loss function, the jitter sampler) set; with [moe_token_dropping]
    false it succeeds whatever the routing type; so every constructed
    router has [moe_token_dropping] false. *)
Theorem C10_token_dropping_rejected {Sc : Scalar} {U : MoEUtils}
  (cfg : TransformerConfig) (stream : nat -> F) :
  (moe_token_dropping cfg = true ->
   exists msg, TopKRouter_init cfg stream
               = InitRaised (AssertionError msg) (Router_init cfg)
               /\ base_moe_aux_loss_func (Router_init cfg) = None)
  /\ (moe_token_dropping cfg = false ->
      exists r, TopKRouter_init cfg stream = InitOk r (initial_state stream)
                /\ config (base r) = cfg
                /\ routing_type r = moe_router_load_balancing_type cfg
                /\ topk_ r = moe_router_topk cfg
                /\ input_jitter (initial_state stream) = None)
  /\ (forall r s, TopKRouter_init cfg stream = InitOk r s ->
                  moe_token_dropping (config (base r)) = false).
Proof.
  unfold TopKRouter_init. repeat split.
  - intros ->. simpl. eexists. split; reflexivity.
  - intros ->. simpl. eexists. repeat split; reflexivity.
  - destruct (moe_token_dropping cfg) eqn:E; simpl; intros r s H;
      [discriminate |].
    injection H as <- _. simpl. exact E.
Qed.

(** A configuration that asks for token dropping is refused. *)
Lemma C10_token_dropping_rejected_witness :
  exists msg,
    TopKRouter_init dropping_config stream7
    = InitRaised (AssertionError msg) (Router_init dropping_config).
Proof.
  destruct (proj1 (@C10_token_dropping_rejected QScalar QUtils
                     dropping_config stream7) eq_refl)
    as (msg & H & _).
  exists msg. exact H.
Defined.

(** ** C2 *)

Lemma gather_ok {Sc : Scalar} (t : Tensor) (idx : ITensor) (w : Tensor) :
  gather t idx = inr w ->
  dtype w = dtype t /\ requires_grad w = requires_grad t
  /\ length idx <= length (data t)
  /\ Forall2 (fun ri wr => Forall2 (fun e x => nth_error (fst ri) e = Some x)
                                   (snd ri) wr)
             (combine (data t) idx) (data w).
Proof.
  unfold gather. intros H. apply rbind_ok in H as (g & Hg & H).
  injection H as <-. simpl. apply gather_rows_ok in Hg. tauto.
Qed.



(** ** C3 *)

Lemma group_pick_ids {Sc : Scalar} (gt gne : nat) (grp : list F) :
  length grp = gne -> gt <= gne ->
  let ids := map fst (firstn gt (sort_desc (enumerate grp))) in
  length ids = gt /\ distinct_below gne ids.
Proof.
  intros Hl Hle. eapply group_selection_distinct; [exact Hl |].
  apply topk_row_exact. lia.
Qed.

(** With 8 experts, top 4 and 2 groups, a row of ids is two local ids of
    the first group of four, then two of the second moved by 4. *)
Lemma grouped_8_4_2_row {Sc : Scalar} (r : list F) :
  length r = 8 ->
  exists a b c d,
    grouped_indices_row (group_offsets 2 4) (group_picks 2 4 r)
    = [a; b; c + 4; d + 4]
    /\ a < 4 /\ b < 4 /\ c < 4 /\ d < 4 /\ a <> b /\ c <> d.
Proof.
  intros Hr.
  destruct (@chunks_rows _ 4 (length r) r 2) as (H1 & _ & H3); try lia.
  unfold group_picks. destruct (chunks (length r) 4 r) as [| g0 [| g1 [| ? ?]]];
    try discriminate.
  assert (Hg0 := Forall_inv H1). assert (Hg1 := Forall_inv (Forall_inv_tail H1)).
  simpl in Hg0, Hg1.
  destruct (@group_pick_ids _ 2 4 g0 Hg0) as (L0 & D0 & B0); [lia |].
  destruct (@group_pick_ids _ 2 4 g1 Hg1) as (L1 & D1 & B1); [lia |].
  cbn [map].
  remember (firstn 2 (sort_desc (enumerate g0))) as p0 eqn:E0.
  remember (firstn 2 (sort_desc (enumerate g1))) as p1 eqn:E1.
  clear E0 E1.
  unfold grouped_indices_row, group_offsets. cbn [map seq combine Nat.mul Nat.add].
  destruct (map fst p0) as [| a [| b [| ? ?]]]; try discriminate.
  destruct (map fst p1) as [| c [| d [| ? ?]]]; try discriminate.
  exists a, b, c, d. cbn [map concat app]. rewrite !Nat.add_0_r.
  inversion B0 as [| ? ? Ha B0']; inversion B0' as [| ? ? Hb _]; subst.
  inversion B1 as [| ? ? Hc B1']; inversion B1' as [| ? ? Hd _]; subst.
  inversion D0 as [| ? ? Hab _]; inversion D1 as [| ? ? Hcd _]; subst.
  repeat split; auto.
  - intros ->. apply Hab. left. reflexivity.
  - intros ->. apply Hcd. left. reflexivity.
Qed.

(** Claim C3.  For 8 experts, top 4 and 2 groups, on every matrix of
    logits with 8 columns [grouped_router] returns: the softmax in 32-bit
    float over the 8 experts; the scores and ids of the top 2 within each
    group of 4 of that softmax, row by row, the ids of the second group
    moved by 4, so that every row holds exactly two experts of each
    group.  On the logits of the docstring the ids are those of the
    docstring, [0, 1, 6, 5] for the first row, and the scores are within
    one ten-thousandth of those that the docstring prints. *)
Theorem C3_grouped_router_8_4_2 :
  (forall (Sc : Scalar) (logits : Tensor),
      rows_of 8 (data logits) ->
      let probs := softmax logits Float32 in
      grouped_router logits 8 4 2
      = ok (probs,
            mkTensor Float32 (requires_grad logits)
              (map (fun r => grouped_scores_row (group_picks 2 4 r))
                   (data probs)),
            map (fun r => grouped_indices_row [0; 4] (group_picks 2 4 r))
                (data probs))
      /\ Forall (fun r =>
                   exists a b c d,
                     grouped_indices_row [0; 4] (group_picks 2 4 r)
                     = [a; b; c + 4; d + 4]
                     /\ a < 4 /\ b < 4 /\ c < 4 /\ d < 4 /\ a <> b /\ c <> d)
                (data probs))
  /\ option_map snd
       (returned (grouped_router (tensor Float32 example_logits) 8 4 2))
     = Some [[0; 1; 6; 5]; [2; 1; 6; 7]; [0; 2; 5; 6]; [3; 2; 5; 4]]
  /\ option_map (fun out => within (1 # 10000) (data (snd (fst out)))
                                   example_scores)
       (returned (grouped_router (tensor Float32 example_logits) 8 4 2))
     = Some true.
Proof.
  split; [| split].
  - intros Sc logits Hrows probs. split.
    + apply (@grouped_router_closed Sc logits 2 4 2); auto; lia.
    + assert (HP : rows_of 8 (data probs)) by (apply softmax_rows_of; exact Hrows).
      eapply Forall_impl; [| exact HP]. intros r Hr.
      apply (grouped_8_4_2_row r Hr).
  - vm_compute. reflexivity.
  - vm_compute. reflexivity.
Qed.

(** The example of the docstring has 8 columns, so the router returns. *)
Lemma C3_grouped_router_8_4_2_witness :
  rows_of 8 (data (tensor Float32 example_logits))
  /\ exists out, grouped_router (tensor Float32 example_logits) 8 4 2 = ok out.
Proof.
  assert (Hrows : rows_of 8 (data (tensor Float32 example_logits)))
    by (repeat constructor).
  split; [exact Hrows |].
  eexists.
  exact (proj1 (proj1 C3_grouped_router_8_4_2 QScalar
                  (tensor Float32 example_logits) Hrows)).
Defined.

(** ** C4 *)

Section JitterFacts.
Context {Sc : Scalar} {U : MoEUtils}.
Variable self : TopKRouter.

Lemma apply_input_jitter_some (eps : F) (t : Tensor) (s : RouterState) :
  moe_input_jitter_eps (config (base self)) = Some eps ->
  jitter_ready self s = true ->
  let b := jitter_bounds eps s in
  let sh := shape (data t) in
  apply_input_jitter self t s
  = (inr (mul_tensor t (jitter_noise b (rng_stream s) (rng_pos s) sh)),
     after_jitter b sh s).
Proof.
  intros He Hr. unfold jitter_ready in Hr.
  unfold apply_input_jitter, jitter_bounds. rewrite He in *.
  unfold bind, rsample, rand, ret, jitter_noise, after_jitter.
  destruct (input_jitter s) as [b |] eqn:Eb; cbn [fst snd]; [| rewrite Hr];
    simpl; destruct (shape (data t)) as [rows cols]; simpl;
    rewrite !map_map; try reflexivity.
  destruct s; simpl in *. subst. reflexivity.
Qed.

Lemma apply_input_jitter_none (t : Tensor) (s : RouterState) :
  moe_input_jitter_eps (config (base self)) = None ->
  apply_input_jitter self t s = (inr t, s).
Proof. intros He. unfold apply_input_jitter. rewrite He. reflexivity. Qed.

(** The first use with bounds that [Uniform] rejects: the call raises and
    the state is as before. *)
Lemma apply_input_jitter_raises (t : Tensor) (s : RouterState) :
  jitter_ready self s = false ->
  apply_input_jitter self t s
  = (inl (ValueError "Uniform is not defined when low>= high"), s).
Proof.
  unfold jitter_ready, apply_input_jitter.
  destruct (moe_input_jitter_eps (config (base self))) as [eps |];
    [| discriminate].
  destruct (input_jitter s) as [b |] eqn:Eb; [discriminate |].
  intros Hr. unfold bind. rewrite Eb. cbn [fst snd]. rewrite Hr. reflexivity.
Qed.

Lemma apply_input_jitter_ready (t : Tensor) (s : RouterState) t' s' :
  apply_input_jitter self t s = (inr t', s') -> jitter_ready self s = true.
Proof.
  intros H. destruct (jitter_ready self s) eqn:Hr; [reflexivity |].
  rewrite (apply_input_jitter_raises t s Hr) in H. discriminate.
Qed.

Lemma apply_z_loss_total (t : Tensor) (s : RouterState) :
  exists s1,
    apply_z_loss self t s = (inr t, s1)
    /\ input_jitter s1 = input_jitter s /\ rng_pos s1 = rng_pos s
    /\ rng_stream s1 = rng_stream s
    /\ aux_losses s1
       = match moe_z_loss_coeff (config (base self)) with
         | Some c => z_loss_func (data t) c :: aux_losses s
         | None => aux_losses s
         end.
Proof.
  unfold apply_z_loss. destruct (moe_z_loss_coeff _).
  - eexists. split; [reflexivity |]. simpl. auto.
  - exists s. split; [reflexivity |]. auto.
Qed.

Lemma jitter_ready_same (s s1 : RouterState) :
  input_jitter s1 = input_jitter s ->
  jitter_ready self s1 = jitter_ready self s.
Proof. intros H. unfold jitter_ready. rewrite H. reflexivity. Qed.

Lemma apply_input_jitter_total (t : Tensor) (s : RouterState) :
  jitter_ready self s = true ->
  exists t' s2, apply_input_jitter self t s = (inr t', s2)
                /\ aux_losses s2 = aux_losses s.
Proof.
  intros Hr.
  destruct (moe_input_jitter_eps (config (base self))) as [eps |] eqn:He.
  - rewrite (apply_input_jitter_some _ _ He Hr). eexists. eexists.
    split; reflexivity.
  - rewrite (apply_input_jitter_none _ _ He). eauto.
Qed.

End JitterFacts.

(** Claim C4, as amended.  When an input-jitter epsilon is configured,
    [apply_input_jitter] multiplies its argument, element by element, by
    a sample of the uniform distribution over [1 - eps, 1 + eps]
    ([low + u * (high - low)] for the next draws [u]); the sampler is
    built on the first use and reused afterwards, so that a call that
    returned is followed by calls that return; the first use raises the
    ValueError of [Uniform], and builds nothing, unless [1 - eps] is
    below [1 + eps] as 32-bit floats; a call of [routing] that returns
    has applied the jitter exactly once, to the tensor that reaches the
    strategy; the training mode plays no part.  When no epsilon is
    configured the tensor is returned as it is and no draw is consumed. *)
Theorem C4_input_jitter {Sc : Scalar} {U : MoEUtils} (self : TopKRouter) :
  (forall eps, moe_input_jitter_eps (config (base self)) = Some eps ->
     (forall t s,
        jitter_ready self s = true ->
        let b := jitter_bounds eps s in
        let sh := shape (data t) in
        apply_input_jitter self t s
        = (inr (mul_tensor t (jitter_noise b (rng_stream s) (rng_pos s) sh)),
           after_jitter b sh s)
        /\ jitter_bounds eps (after_jitter b sh s) = b
        /\ jitter_ready self (after_jitter b sh s) = true)
     /\ (forall t s,
           input_jitter s = None ->
           ltb (cast Float32 (sub one eps)) (cast Float32 (add one eps))
           = false ->
           apply_input_jitter self t s
           = (inl (ValueError "Uniform is not defined when low>= high"), s))
     /\ (forall logits s r s',
           routing self logits s = (inr r, s') ->
           exists l0 s1,
             view logits (num_moe_experts (config (base self))) = inr l0
             /\ apply_z_loss self l0 s = (inr l0, s1)
             /\ jitter_ready self s1 = true
             /\ strategy self
                  (mul_tensor l0
                     (jitter_noise (jitter_bounds eps s1) (rng_stream s1)
                        (rng_pos s1) (shape (data l0))))
                  (after_jitter (jitter_bounds eps s1) (shape (data l0)) s1)
                = (inr r, s')))
  /\ (forall mode t s,
        apply_input_jitter (set_training mode self) t s
        = apply_input_jitter self t s)
  /\ (moe_input_jitter_eps (config (base self)) = None ->
      forall t s, apply_input_jitter self t s = (inr t, s)).
Proof.
  split; [| split].
  - intros eps He. split; [| split].
    + intros t s Hr b sh. split; [| split].
      * apply apply_input_jitter_some; assumption.
      * reflexivity.
      * unfold jitter_ready. rewrite He. reflexivity.
    + intros t s Hs Hl. apply apply_input_jitter_raises.
      unfold jitter_ready. rewrite He, Hs. exact Hl.
    + intros logits s r s' Hr.
      apply routing_ok in Hr as (l0 & l1 & s1 & s2 & Hv & Hz & Hj & _ & _ & Hs).
      assert (Hready := apply_input_jitter_ready _ _ _ Hj).
      exists l0, s1. repeat split; auto.
      rewrite (apply_input_jitter_some _ _ _ He Hready) in Hj.
      injection Hj as <- <-. exact Hs.
  - reflexivity.
  - intros He t s. apply apply_input_jitter_none. exact He.
Qed.

(** With [eps = 1/2] in evaluation mode, the token of [close_call] is
    multiplied by its sample and the sampler is kept; with [eps = 0] the
    first call raises. *)
Lemma C4_input_jitter_witness :
  (let self := router_of (top1_config (Some (1 # 2)%Q)) false in
   let t := tensor Float32 close_call in
   apply_input_jitter self t state0
   = (inr (mul_tensor t (jitter_noise (jitter_bounds (1 # 2)%Q state0)
                           stream7 0 (1, 8))),
      after_jitter (jitter_bounds (1 # 2)%Q state0) (1, 8) state0))
  /\ (let self := router_of (top1_config (Some 0%Q)) true in
      apply_input_jitter self (tensor Float32 close_call) state0
      = (inl (ValueError "Uniform is not defined when low>= high"), state0)).
Proof.
  split.
  - exact (proj1 (proj1 (proj1 (@C4_input_jitter QScalar QUtils
             (router_of (top1_config (Some (1 # 2)%Q)) false))
             (1 # 2)%Q eq_refl) (tensor Float32 close_call) state0 eq_refl)).
  - exact (proj1 (proj2 (proj1 (@C4_input_jitter QScalar QUtils
             (router_of (top1_config (Some 0%Q)) true))
             0%Q eq_refl)) (tensor Float32 close_call) state0
             eq_refl eq_refl).
Defined.

(** Claim C4 as stated fails: in evaluation mode the jitter still applies.
    With [eps = 1/2] the token of [close_call], which goes to expert 0
    when no jitter is configured, goes to expert 1. *)
Lemma C4_counterexample :
  let self := router_of (top1_config (Some (1 # 2)%Q)) false in
  let plain := router_of (top1_config None) false in
  let logits := tensor Float32 close_call in
  ~ (training self = false ->
     indices_of (routing self logits state0)
     = indices_of (routing plain logits state0)).
Proof.
  intros self plain logits H. specialize (H eq_refl).
  assert (E1 : indices_of (routing self logits state0) = [[1]])
    by (vm_compute; reflexivity).
  assert (E2 : indices_of (routing plain logits state0) = [[0]])
    by (vm_compute; reflexivity).
  rewrite E1, E2 in H. discriminate.
Qed.

(** ** C6 *)

(** Claim C6, as amended.  With the routing type "sinkhorn" and a
    non-zero aux-loss coefficient no call returns: [routing], once its
    view of the logits succeeds, raises the assertion error of
    [sinkhorn_load_balancing], in the state left by the z-loss and the
    input jitter of that call, which have run; unless the jitter is at
    its first use with bounds that [Uniform] rejects, in which case the
    call ends before the assertion, with that ValueError, in the state
    left by the z-loss; and [forward], which computes the gate projection
    first, never returns either. *)
Theorem C6_sinkhorn_with_aux_loss_raises {Sc : Scalar} {U : MoEUtils}
  (self : TopKRouter) :
  routing_type self = "sinkhorn" ->
  eqb (moe_aux_loss_coeff (config (base self))) zero = false ->
  (forall logits l0 s,
      view logits (num_moe_experts (config (base self))) = inr l0 ->
      exists s1,
        apply_z_loss self l0 s = (inr l0, s1)
        /\ (jitter_ready self s = true ->
            exists l1 s2,
              apply_input_jitter self l0 s1 = (inr l1, s2)
              /\ routing self logits s
                 = (inl (AssertionError
                           "Sinkhorn routing does not support aux loss."),
                    s2))
        /\ (jitter_ready self s = false ->
            routing self logits s
            = (inl (ValueError "Uniform is not defined when low>= high"),
               s1)))
  /\ (forall logits s r s', routing self logits s <> (inr r, s'))
  /\ (forall input s r s', forward self input s <> (inr r, s')).
Proof.
  intros Ht Hc.
  assert (Hstrategy : forall l s,
             strategy self l s
             = (inl (AssertionError "Sinkhorn routing does not support aux loss."),
                s)).
  { intros l s. unfold strategy. rewrite Ht. simpl.
    unfold sinkhorn_load_balancing. rewrite Hc. reflexivity. }
  assert (Hrouting : forall logits s r s', routing self logits s <> (inr r, s')).
  { intros logits s r s' H.
    apply routing_ok in H as (l0 & l1 & s1 & s2 & _ & _ & _ & _ & _ & H).
    rewrite Hstrategy in H. discriminate. }
  repeat split.
  - intros logits l0 s Hv.
    destruct (apply_z_loss_total self l0 s) as (s1 & Hz & Hj1 & _).
    assert (Hl : lift (view logits (num_moe_experts (config (base self)))) s
                 = (inr l0, s)) by (unfold lift; rewrite Hv; reflexivity).
    exists s1. split; [exact Hz |]. split.
    + intros Hr. rewrite <- (jitter_ready_same self _ _ Hj1) in Hr.
      destruct (apply_input_jitter_total self l0 s1 Hr) as (l1 & s2 & Hj & _).
      exists l1, s2. split; [exact Hj |].
      rewrite routing_unfold.
      erewrite bind_continues by exact Hl.
      erewrite bind_continues by exact Hz.
      erewrite bind_continues by exact Hj.
      apply Hstrategy.
    + intros Hr. rewrite <- (jitter_ready_same self _ _ Hj1) in Hr.
      rewrite routing_unfold.
      erewrite bind_continues by exact Hl.
      erewrite bind_continues by exact Hz.
      unfold bind. rewrite (apply_input_jitter_raises self l0 s1 Hr).
      reflexivity.
  - exact Hrouting.
  - intros input s r s' H. unfold forward in H.
    apply bind_ok in H as (u & s0 & _ & H).
    apply bind_ok in H as (l & s1 & _ & H).
    apply bind_ok in H as (l' & s2 & _ & H).
    exact (Hrouting _ _ _ _ H).
Qed.

(** The configuration [sinkhorn_aux_config] has both: a forward call does
    not return, and [routing] raises the assertion error on the logits of
    the example. *)
Lemma C6_sinkhorn_with_aux_loss_raises_witness :
  returned (fst (forward (router_of sinkhorn_aux_config true)
                         (tensor Float32 two_tokens) state0)) = None
  /\ exists s2,
       routing (router_of sinkhorn_aux_config true)
               (tensor Float32 example_logits) state0
       = (inl (AssertionError "Sinkhorn routing does not support aux loss."),
          s2).
Proof.
  assert (H := @C6_sinkhorn_with_aux_loss_raises QScalar QUtils
                 (router_of sinkhorn_aux_config true) eq_refl eq_refl).
  split.
  - destruct (forward (router_of sinkhorn_aux_config true)
                      (tensor Float32 two_tokens) state0) as [[e | r] s'] eqn:E.
    + reflexivity.
    + exfalso.
      exact (proj2 (proj2 H) (tensor Float32 two_tokens) state0 r s' E).
  - assert (Hv : view (tensor Float32 example_logits) 8
                 = inr (tensor Float32 example_logits))
      by (apply view_rows; [lia | repeat constructor]).
    destruct (proj1 H (tensor Float32 example_logits)
                (tensor Float32 example_logits) state0 Hv)
      as (s1 & _ & Hr & _).
    destruct (Hr eq_refl) as (l1 & s2 & _ & E).
    exists s2. exact E.
Defined.

(** Claim C6 as stated fails: the assertion is not the first thing that
    a forward call does.  With a z-loss and a jitter configured, when the
    call raises, the z-loss of the logits is computed and attached, the
    jitter sampler is built and one draw per logit is consumed. *)
Lemma C6_counterexample :
  let out := forward (router_of sinkhorn_aux_config true)
               (tensor Float32 two_tokens) state0 in
  fst out = inl (AssertionError "Sinkhorn routing does not support aux loss.")
  /\ ~ (length (aux_losses (snd out)) = 0 /\ rng_pos (snd out) = 0
        /\ input_jitter (snd out) = None).
Proof.
  intros out. split.
  - unfold out. by_evaluation.
  - intros (_ & H & _).
    assert (E : rng_pos (snd out) = 16) by (vm_compute; reflexivity).
    rewrite E in H. discriminate.
Qed.

(** ** C5 *)

Section SigmoidFacts.
Context {Sc : Scalar} {U : MoEUtils}.
Variable self : TopKRouter.

(** The mask that [bernoulli_] draws for a tensor of shape [sh]. *)
Lemma bernoulli_mask_ok (t : Tensor) (p : F) (s : RouterState) :
  ltb p zero || ltb one p = false ->
  let sh := shape (data t) in
  bernoulli_mask t p s
  = (inr (map (fun r => map (fun u => ltb u p)
                            (draws (rng_stream s) (rng_pos s + r * snd sh)
                                   (snd sh)))
              (seq 0 (fst sh))),
     mkState (input_jitter s) (hidden s) (rng_stream s)
             (rng_pos s + fst sh * snd sh) (aux_losses s)).
Proof.
  intros Hp. unfold bernoulli_mask. rewrite Hp. unfold bind, rand, ret.
  destruct (shape (data t)) as [rows cols]. simpl. rewrite map_map.
  reflexivity.
Qed.

(** What [sigmoid_load_balancing] does with the logits [l] that the
    dropout step hands over. *)
Lemma sigmoid_tail (l : Tensor) (s : RouterState) w idx s' :
  (let probs := sigmoid l in
   '(scores, indices) <- lift (topk probs (topk_ self)) ;;
   scores <- apply_aux_loss self (moe_aux_loss_func self)
               (softmax l Float32) indices scores ;;
   ret (scores, indices))%M s = (inr (w, idx), s') ->
  topk (sigmoid l) (topk_ self) = inr (w, idx)
  /\ exists mask,
       one_hot_sum (num_experts (base self)) idx = inr mask
       /\ aux_losses s'
          = moe_aux_loss_func self (data (softmax l Float32)) mask
              (moe_aux_loss_coeff (config (base self))) :: aux_losses s
       /\ rng_pos s' = rng_pos s.
Proof.
  intros H. cbv zeta in H.
  apply bind_ok in H as ([v i] & s1 & Ht & H). apply lift_ok in Ht as [Ht ->].
  apply bind_ok in H as (sc & s2 & Ha & H). apply ret_ok in H as [H ->].
  injection H as -> ->.
  unfold apply_aux_loss in Ha.
  apply bind_ok in Ha as (mask & s3 & Hm & Ha). apply lift_ok in Hm as [Hm ->].
  apply autoscaler_ok in Ha as (-> & Hl & _ & Hr).
  split; [exact Ht |]. exists mask. auto.
Qed.

End SigmoidFacts.

(** Claim C5, as amended.  Under the sigmoid strategy, when a non-zero
    dropout rate [p] is configured and the router is training, a boolean
    mask is drawn, one draw per logit, an element being set when its draw
    is below [p]; the masked logits are overwritten with the large
    negative value; weights and indices are the top-k of the sigmoid of
    these logits; and the softmax in 32-bit float that is fed to the
    balancing loss is computed over the same, masked, logits.  Without
    dropout, or in evaluation mode, no mask is drawn and the logits are
    used as they are. *)
Theorem C5_sigmoid_strategy {Sc : Scalar} {U : MoEUtils}
  (self : TopKRouter) (logits : Tensor) (s : RouterState)
  (w : Tensor) (idx : ITensor) (s' : RouterState) :
  sigmoid_load_balancing self logits s = (inr (w, idx), s') ->
  let active := match moe_dropout (config (base self)) with
                | Some p => negb (eqb p zero) && training self
                | None => false
                end in
  let sh := shape (data logits) in
  let mask p := map (fun r => map (fun u => ltb u p)
                                  (draws (rng_stream s)
                                         (rng_pos s + r * snd sh) (snd sh)))
                    (seq 0 (fst sh)) in
  let used := match moe_dropout (config (base self)) with
              | Some p => if active then attention_mask_func logits (mask p)
                          else logits
              | None => logits
              end in
  topk (sigmoid used) (topk_ self) = inr (w, idx)
  /\ (exists m,
        one_hot_sum (num_experts (base self)) idx = inr m
        /\ aux_losses s'
           = moe_aux_loss_func self (data (softmax used Float32)) m
               (moe_aux_loss_coeff (config (base self))) :: aux_losses s)
  /\ rng_pos s' = rng_pos s + (if active then fst sh * snd sh else 0).
Proof.
  intros H active sh mask used.
  unfold sigmoid_load_balancing in H.
  apply bind_ok in H as (l & s1 & Hl & H).
  assert (Hused : l = used /\ rng_pos s1 = rng_pos s
                              + (if active then fst sh * snd sh else 0)
                  /\ aux_losses s1 = aux_losses s).
  { unfold used, active. destruct (moe_dropout (config (base self))) as [p |].
    - destruct (negb (eqb p zero) && training self).
      + apply bind_ok in Hl as (m & s0 & Hm & Hl). apply ret_ok in Hl as [-> ->].
        unfold bernoulli_mask in Hm.
        destruct (ltb p zero || ltb one p) eqn:Hp; [discriminate |].
        assert (Hb := bernoulli_mask_ok logits p s Hp). cbv zeta in Hb.
        unfold bernoulli_mask in Hb. rewrite Hp in Hb. rewrite Hb in Hm.
        injection Hm as <- <-. simpl. auto.
      + apply ret_ok in Hl as [-> ->]. repeat split; lia.
    - apply ret_ok in Hl as [-> ->]. repeat split; lia. }
  destruct Hused as (-> & Hr & Ha).
  apply sigmoid_tail in H as (Ht & m & Hm & Hloss & Hpos).
  repeat split; [exact Ht | | lia].
  exists m. rewrite Hloss, Ha. auto.
Qed.

(** Training with dropout 1/2 on the token of [flat_token]: the draws mask
    experts 0, 2, 4, 5 and 7, and expert 1 is selected. *)
Lemma C5_sigmoid_strategy_witness :
  let self := router_of sigmoid_dropout_config true in
  let logits := tensor Float32 flat_token in
  let used := attention_mask_func logits
                [[true; false; true; false; true; true; false; true]] in
  exists w, topk (sigmoid used) 1 = inr (w, [[1]]).
Proof.
  intros self logits used.
  pose (out := sigmoid_load_balancing self logits state0).
  assert (E : out = (inr (weights_of out, [[1]]), snd out)) by by_evaluation.
  exists (weights_of out).
  exact (proj1 (@C5_sigmoid_strategy QScalar QUtils self logits state0
                  (weights_of out) [[1]] (snd out) E)).
Defined.

(** Claim C5 as stated fails: the probabilities of the balancing loss are
    those of the masked logits.  On the token of [flat_token], with the mask
    above and expert 1 selected, the loss that is attached differs from
    the loss of the softmax of the original logits. *)
Lemma C5_counterexample :
  let self := router_of sigmoid_dropout_config true in
  let logits := tensor Float32 flat_token in
  let out := routing self logits state0 in
  indices_of out = [[1]]
  /\ ~ (aux_losses (snd out)
        = [moe_aux_loss_func self (data (softmax logits Float32))
             [[0; 1; 0; 0; 0; 0; 0; 0]] (1 # 100)%Q]).
Proof.
  intros self logits out. split; [vm_compute; reflexivity |].
  intros H.
  apply (f_equal (fun l => same_losses l (aux_losses (snd out)))) in H.
  vm_compute in H. discriminate.
Qed.

(** ** C8 *)

Section ScatterFacts.
Context {Sc : Scalar}.

Lemma update_length {A} (l : list A) (i : nat) (x : A) :
  length (update l i x) = length l.
Proof.
  revert i; induction l as [| a l IH]; intros [| i]; simpl; auto.
Qed.







End ScatterFacts.



(** ** C9 *)

Section DtypeFacts.
Context {Sc : Scalar} {U : MoEUtils}.
Variable self : TopKRouter.

Lemma grouped_router_dtype (logits : Tensor) (N k G : nat) probs scores idx :
  grouped_router logits N k G = inr (probs, scores, idx) ->
  dtype scores = Float32 /\ dtype probs = Float32.
Proof.
  unfold grouped_router. destruct (G =? 0); [discriminate |]. intros H.
  apply rbind_ok in H as (grouped & _ & H).
  apply rbind_ok in H as (sel & _ & H).
  apply rbind_ok in H as (sc & _ & H).
  apply rbind_ok in H as (offsets & _ & H).
  apply rbind_ok in H as (adj & _ & H).
  apply rbind_ok in H as (ai & _ & H).
  injection H as Hp Hs _. subst probs scores. split; reflexivity.
Qed.

(** The dtype of the weights of the switch-style aux-loss variants. *)
Lemma aux_loss_dtype (l : Tensor) (s : RouterState) w idx s' :
  aux_loss_load_balancing self l s = (inr (w, idx), s') ->
  dtype w = if String.eqb (moe_router_type (config (base self))) "grouped"
            then Float32 else dtype l.
Proof.
  unfold aux_loss_load_balancing. intros H.
  apply bind_ok in H as ([[probs sc] i] & s1 & Hsel & H).
  apply bind_ok in H as (sc' & s2 & Ha & H). apply ret_ok in H as [H _].
  injection H as Hw _. apply apply_aux_loss_ok in Ha. subst sc' w.
  destruct (String.eqb_spec (moe_router_type (config (base self))) "mixtral")
    as [E |].
  { rewrite E. simpl.
    apply bind_ok in Hsel as ([v i'] & s0 & _ & Hsel).
    apply ret_ok in Hsel as [Hsel _]. injection Hsel as _ Hsc _. subst sc.
    reflexivity. }
  destruct (String.eqb_spec (moe_router_type (config (base self))) "st")
    as [E |].
  { rewrite E. simpl.
    apply bind_ok in Hsel as ([v i'] & s0 & Ht & Hsel).
    apply lift_ok in Ht as [Ht _]. apply ret_ok in Hsel as [Hsel _].
    injection Hsel as _ Hsc _. subst sc.
    apply topk_ok in Ht as (Hd & _). rewrite Hd. reflexivity. }
  destruct (String.eqb_spec (moe_router_type (config (base self))) "grouped");
    [| discriminate].
  apply lift_ok in Hsel as [Hsel _].
  apply grouped_router_dtype in Hsel. tauto.
Qed.

End DtypeFacts.

(** Claim C9, on the code.  Under the switch-style aux-loss routing
    without input jitter, the weights that [routing] returns have the
    dtype of the input logits in the mixtral and st variants, which cast
    the 32-bit softmax back, but are 32-bit floats in the grouped
    variant, whatever the dtype of the logits: [grouped_router] returns
    the top-k of the 32-bit softmax without the cast. *)
Theorem C9_grouped_weights_stay_float32 {Sc : Scalar} {U : MoEUtils}
  (self : TopKRouter) (logits : Tensor) (s : RouterState)
  (w : Tensor) (idx : ITensor) (s' : RouterState) :
  routing_type self = "aux_loss" ->
  moe_aux_loss_type (config (base self)) = "switch" ->
  moe_input_jitter_eps (config (base self)) = None ->
  routing self logits s = (inr (w, idx), s') ->
  dtype w = if String.eqb (moe_router_type (config (base self))) "grouped"
            then Float32 else dtype logits.
Proof.
  intros Ht Ha He H.
  apply routing_ok in H as (l0 & l1 & s1 & s2 & Hv & _ & Hj & _ & _ & H).
  rewrite (apply_input_jitter_none _ _ _ He) in Hj. injection Hj as <- <-.
  apply view_ok in Hv as (_ & Hd & _). rewrite <- Hd.
  unfold strategy in H. rewrite Ht, Ha in H. simpl in H.
  apply aux_loss_dtype in H. exact H.
Qed.

(** The grouped variant on the logits of the docstring in bfloat16: the
    weights come back as 32-bit floats. *)
Lemma C9_grouped_weights_stay_float32_witness :
  let out := routing (router_of (grouped_config 4) true)
               (tensor BFloat16 example_logits) state0 in
  dtype (tensor BFloat16 example_logits) = BFloat16
  /\ dtype (weights_of out) = Float32.
Proof.
  intros out. split; [reflexivity |].
  assert (E : out = (inr (weights_of out, indices_of out), snd out))
    by by_evaluation.
  exact (@C9_grouped_weights_stay_float32 QScalar QUtils
           (router_of (grouped_config 4) true)
           (tensor BFloat16 example_logits) state0
           (weights_of out) (indices_of out) (snd out)
           eq_refl eq_refl eq_refl E).
Defined.

(** ** C7 *)

Section SignFacts.
Context {Sc : Scalar} {U : MoEUtils} {OL : OrderLaws}.

Lemma sum_nonneg (l : list F) : Forall nonneg l -> nonneg (sum_list l).
Proof.
  induction 1 as [| x l Hx _ IH]; simpl.
  - apply nonneg_zero.
  - apply nonneg_add; assumption.
Qed.









Variable self : TopKRouter.



End SignFacts.

Section SumFacts.
Context {Sc : Scalar} {U : MoEUtils} {OL : OrderLaws} {EL : ExactLaws}.

Lemma sum_div (c : F) (l : list F) :
  sum_list (map (fun x => div x c) l) = div (sum_list l) c.
Proof.
  induction l as [| x l IH]; simpl.
  - symmetry. apply div_zero.
  - rewrite IH. symmetry. apply div_add.
Qed.

Lemma sum_exp_pos (l : list F) :
  l <> [] -> ltb zero (sum_list (map exp l)) = true.
Proof.
  destruct l as [| x l]; [congruence |]. intros _. simpl.
  apply pos_add; [apply pos_exp |].
  apply sum_nonneg. apply Forall_map. apply Forall_forall.
  intros y _. apply nonneg_exp.
Qed.

Lemma softmax_row_sum (l : list F) :
  l <> [] -> sum_list (softmax_row l) = one.
Proof.
  intros H. unfold softmax_row. rewrite sum_div.
  apply div_self. apply sum_exp_pos. exact H.
Qed.

Lemma map_cast_exact (d : DType) (l : list F) : map (cast d) l = l.
Proof.
  rewrite <- (map_id l) at 2. apply map_ext. intros x. apply cast_exact.
Qed.

(** In exact arithmetic the 32-bit softmax cast back is the softmax. *)
Lemma softmax_cast_exact (t other : Tensor) :
  data (type_as (softmax t Float32) other) = map softmax_row (data t).
Proof.
  simpl. rewrite map_map. apply map_ext. intros r.
  rewrite !map_cast_exact. reflexivity.
Qed.

Lemma softmax_rows_sum (k : nat) (rows : list (list F)) :
  0 < k -> rows_of k rows ->
  Forall (fun r => sum_list r = one) (map softmax_row rows).
Proof.
  intros Hk H. apply Forall_map. eapply Forall_impl; [| exact H].
  intros r Hr. simpl in Hr. apply softmax_row_sum.
  intros ->. simpl in Hr. lia.
Qed.


End SumFacts.


(** *** The rational instance satisfies the laws *)

Section QLaws.
Local Open Scope Q_scope.

Lemma Qnonneg_iff (x : Q) : @nonneg QScalar x <-> 0 <= x.
Proof.
  unfold nonneg. simpl. rewrite negb_false_iff. apply Qle_bool_iff.
Qed.

Lemma Qpos_iff (x : Q) : @ltb QScalar zero x = true <-> 0 < x.
Proof.
  simpl. rewrite negb_true_iff. split.
  - intros H. apply Qnot_le_lt. intros Hle.
    apply Qle_bool_iff in Hle. congruence.
  - intros H. destruct (Qle_bool x 0) eqn:E; [| reflexivity].
    apply Qle_bool_iff in E. lra.
Qed.

Lemma round40_ge (x : Q) : x <= round40 x.
Proof.
  unfold round40. rewrite Qred_correct.
  rewrite Qmake_Qdiv.
  assert (Hc : inject_Z (2 ^ 40) == inject_Z (Zpos (2 ^ 40))) by reflexivity.
  set (c := inject_Z (Zpos (2 ^ 40))) in *.
  assert (Hpos : 0 < c) by reflexivity.
  apply Qle_shift_div_l; [exact Hpos |].
  rewrite <- Hc. apply Qle_ceiling.
Qed.

Lemma exp_horner_ge1 (n : nat) (k : positive) (x : Q) :
  0 <= x -> 1 <= exp_horner n k x.
Proof.
  intros Hx. revert k. induction n as [| n IH]; intros k; simpl.
  - lra.
  - eapply Qle_trans; [| apply round40_ge].
    specialize (IH (Pos.succ k)).
    assert (Hk : 0 <= x / inject_Z (Zpos k)).
    { apply Qle_shift_div_l; [reflexivity | lra]. }
    assert (0 <= x / inject_Z (Z.pos k) * exp_horner n (Pos.succ k) x).
    { apply Qmult_le_0_compat; lra. }
    lra.
Qed.

Lemma Qexp_pos (x : Q) : 0 < Qexp x.
Proof.
  unfold Qexp. destruct (Qle_bool 0 x) eqn:E.
  - apply Qle_bool_iff in E. assert (H := @exp_horner_ge1 exp_degree 1 x E). lra.
  - assert (Hx : 0 <= - x).
    { destruct (Qlt_le_dec x 0) as [H | H]; [lra |].
      apply Qle_bool_iff in H. congruence. }
    assert (H := @exp_horner_ge1 exp_degree 1 (- x) Hx).
    eapply Qlt_le_trans; [| apply round40_ge].
    apply Qinv_lt_0_compat. lra.
Qed.

Lemma QOrderLaws : @OrderLaws QScalar.
Proof.
  constructor.
  - apply Qnonneg_iff. change (0 <= 0). lra.
  - apply Qnonneg_iff. change (0 <= 1). lra.
  - intros x. apply Qnonneg_iff. change (0 <= Qexp x).
    assert (H := Qexp_pos x). lra.
  - intros a b Ha Hb. apply Qnonneg_iff in Ha, Hb. apply Qnonneg_iff.
    change (0 <= Qred (a + b)). rewrite Qred_correct. lra.
  - intros a b Ha Hb. apply Qnonneg_iff in Ha, Hb. apply Qnonneg_iff.
    change (0 <= Qred (a / b)). rewrite Qred_correct. unfold Qdiv.
    apply Qmult_le_0_compat; [exact Ha |]. apply Qinv_le_0_compat. exact Hb.
  - intros d a Ha. exact Ha.
Qed.

Lemma QExactLaws : @ExactLaws QScalar.
Proof.
  constructor.
  - reflexivity.
  - intros a b c.
    change (Qred (Qred (a + b) / c) = Qred (Qred (a / c) + Qred (b / c))).
    apply Qred_complete. rewrite !Qred_correct. unfold Qdiv. ring.
  - intros c. change (Qred (0 / c) = Qred 0). apply Qred_complete.
    unfold Qdiv. ring.
  - intros c Hc. apply Qpos_iff in Hc. change (Qred (c / c) = Qred 1).
    apply Qred_complete. apply Qmult_inv_r. lra.
  - intros x. apply Qpos_iff. apply Qexp_pos.
  - intros a b Ha Hb. apply Qpos_iff in Ha. apply Qnonneg_iff in Hb.
    apply Qpos_iff. change (0 < Qred (a + b)). rewrite Qred_correct. lra.
Qed.

End QLaws.




(** * Further properties of the router *)

(** ** The quota of [grouped_router] *)

Section QuotaFacts.

Lemma count_in_inside (lo hi a b : nat) (row : list nat) :
  lo <= a -> b <= hi -> Forall (fun e => a <= e < b) row ->
  count_in lo hi row = length row.
Proof.
  intros Ha Hb H. unfold count_in.
  induction H as [| e row He _ IH]; simpl; [reflexivity |].
  destruct (Nat.leb_spec lo e); [| lia].
  destruct (Nat.ltb_spec e hi); [| lia]. simpl. rewrite IH. reflexivity.
Qed.

Lemma count_in_outside (lo hi a b : nat) (row : list nat) :
  b <= lo \/ hi <= a -> Forall (fun e => a <= e < b) row ->
  count_in lo hi row = 0.
Proof.
  intros Hd H. unfold count_in.
  induction H as [| e row He _ IH]; simpl; [reflexivity |].
  destruct (Nat.leb_spec lo e); destruct (Nat.ltb_spec e hi); simpl;
    try exact IH. lia.
Qed.

Lemma count_in_app (lo hi : nat) (a b : list nat) :
  count_in lo hi (a ++ b) = count_in lo hi a + count_in lo hi b.
Proof. unfold count_in. rewrite filter_app, length_app. reflexivity. Qed.

(** Groups of [gt] local ids below [gne], moved by the offsets of the
    groups [s], [s + 1], ...: each of these groups holds [gt] ids of the
    row, and no other group holds any. *)
Lemma shifted_groups_count (gt gne : nat) (gs : list (list nat)) (s g : nat) :
  Forall (fun ids => length ids = gt /\ Forall (fun e => e < gne) ids) gs ->
  count_in (g * gne) ((g + 1) * gne)
    (concat (map (fun '(ids, o) => map (fun i => i + o) ids)
                 (combine gs (map (fun i => i * gne) (seq s (length gs))))))
  = if (s <=? g) && (g <? s + length gs) then gt else 0.
Proof.
  intros H; revert s. induction H as [| ids gs [Hl Hb] _ IH]; intros s.
  - simpl. rewrite Nat.add_0_r.
    destruct (Nat.leb_spec s g); destruct (Nat.ltb_spec g s); simpl;
      try reflexivity; lia.
  - simpl. rewrite count_in_app, IH.
    assert (Hrange : Forall (fun e => s * gne <= e < (s + 1) * gne)
                            (map (fun i => i + s * gne) ids)).
    { apply Forall_map. eapply Forall_impl; [| exact Hb].
      intros e He. simpl in He. nia. }
    cbn [length].
    destruct (Nat.eq_dec g s) as [-> | Hne].
    + rewrite (@count_in_inside _ _ (s * gne) ((s + 1) * gne));
        [| lia | lia | exact Hrange].
      rewrite length_map, Hl.
      replace ((S s <=? s) && (s <? S s + length gs)) with false
        by (destruct (Nat.leb_spec (S s) s); [lia | reflexivity]).
      replace ((s <=? s) && (s <? s + S (length gs))) with true
        by (destruct (Nat.leb_spec s s); [| lia];
            destruct (Nat.ltb_spec s (s + S (length gs))); [reflexivity | lia]).
      lia.
    + rewrite (@count_in_outside _ _ (s * gne) ((s + 1) * gne));
        [| nia | exact Hrange].
      replace ((s <=? g) && (g <? s + S (length gs)))
        with ((S s <=? g) && (g <? S s + length gs)); [reflexivity |].
      destruct (Nat.leb_spec (S s) g); destruct (Nat.ltb_spec g (S s + length gs));
        destruct (Nat.leb_spec s g); destruct (Nat.ltb_spec g (s + S (length gs)));
        simpl; try reflexivity; lia.
Qed.

End QuotaFacts.

Section GroupedQuota.
Context {Sc : Scalar}.

Lemma group_picks_shape (gt gne groups : nat) (r : list F) :
  0 < gne -> gt <= gne -> length r = groups * gne ->
  length (group_picks gt gne r) = groups
  /\ Forall (fun p => length p = gt
                      /\ Forall (fun e => e < gne) (map fst p))
            (group_picks gt gne r).
Proof.
  intros Hgne Hle Hr. unfold group_picks.
  destruct (@chunks_rows _ gne (length r) r groups) as (H1 & _ & H3);
    [lia | exact Hr | rewrite Hr; nia |].
  split; [rewrite length_map; exact H3 |].
  apply Forall_map. eapply Forall_impl; [| exact H1]. intros grp Hg.
  simpl in Hg.
  destruct (@group_pick_ids _ gt gne grp Hg Hle) as (Hl & _ & Hb).
  rewrite length_map in Hl. split; assumption.
Qed.

(** The shape of the picks of every row of probabilities. *)
Lemma group_picks_rows (logits : Tensor) (groups gne gt : nat) :
  0 < gne -> gt <= gne ->
  rows_of (groups * gne) (data logits) ->
  Forall (fun r =>
            length (group_picks gt gne r) = groups
            /\ Forall (fun p => length p = gt
                                /\ Forall (fun e => e < gne) (map fst p))
                      (group_picks gt gne r))
         (data (softmax logits Float32)).
Proof.
  intros Hgne Hle Hrows.
  assert (HP : rows_of (groups * gne) (data (softmax logits Float32)))
    by (apply softmax_rows_of; exact Hrows).
  eapply Forall_impl; [| exact HP]. intros r Hr. simpl in Hr.
  apply group_picks_shape; assumption.
Qed.

(** The closed form of the grouped selection has one row of
    [groups * gt] scores and ids per token. *)
Lemma grouped_closed_rows (logits : Tensor) (groups gne gt : nat) :
  0 < gne -> gt <= gne ->
  rows_of (groups * gne) (data logits) ->
  let probs := softmax logits Float32 in
  let sc := map (fun r => grouped_scores_row (group_picks gt gne r))
                (data probs) in
  let idx := map (fun r => grouped_indices_row (group_offsets groups gne)
                             (group_picks gt gne r)) (data probs) in
  length idx = length (data logits) /\ length sc = length (data logits)
  /\ rows_of (groups * gt) idx /\ rows_of (groups * gt) sc.
Proof.
  intros Hgne Hle Hrows probs sc idx.
  assert (Hshape := @group_picks_rows logits groups gne gt Hgne Hle Hrows).
  split; [unfold idx, probs; simpl; rewrite !length_map; reflexivity |].
  split; [unfold sc, probs; simpl; rewrite !length_map; reflexivity |].
  split.
  - apply Forall_map. eapply Forall_impl; [| exact Hshape].
    intros r [Hl Hp].
    unfold grouped_indices_row. rewrite (@length_concat_rows _ gt).
    + rewrite length_map, length_combine, length_map, Hl.
      unfold group_offsets. rewrite length_map, length_seq.
      rewrite Nat.min_id. reflexivity.
    + apply Forall_map. apply Forall_forall. intros [ids o] Hin.
      rewrite length_map. apply in_combine_l in Hin.
      apply in_map_iff in Hin as (p & <- & Hin).
      rewrite length_map. rewrite Forall_forall in Hp.
      apply Hp in Hin. tauto.
  - apply Forall_map. eapply Forall_impl; [| exact Hshape].
    intros r [Hl Hp].
    unfold grouped_scores_row. rewrite (@length_concat_rows _ gt).
    + rewrite length_map, Hl. reflexivity.
    + apply Forall_map. eapply Forall_impl; [| exact Hp].
      intros p [Hlp _]. rewrite length_map. exact Hlp.
Qed.

(** X1.  When the group size divides the number of experts and [topk],
    and the quota of a group does not exceed its size, [grouped_router]
    returns, for every token, [topk] scores and [topk] ids of which
    exactly [topk / groups] lie in each group of experts. *)
Theorem grouped_router_quota (logits : Tensor) (groups gne gt : nat) :
  0 < groups -> 0 < gt -> gt <= gne ->
  rows_of (groups * gne) (data logits) ->
  exists probs scores idx,
    grouped_router logits (groups * gne) (groups * gt) groups
    = ok (probs, scores, idx)
    /\ length idx = length (data logits)
    /\ length (data scores) = length (data logits)
    /\ rows_of (groups * gt) idx
    /\ rows_of (groups * gt) (data scores)
    /\ Forall (fun row =>
                 forall g, g < groups ->
                   count_in (g * gne) ((g + 1) * gne) row = gt) idx.
Proof.
  intros HG Hgt Hle Hrows.
  assert (Hgne : 0 < gne) by lia.
  assert (Hshape := @group_picks_rows logits groups gne gt Hgne Hle Hrows).
  destruct (@grouped_closed_rows logits groups gne gt Hgne Hle Hrows)
    as (H1 & H2 & H3 & H4).
  eexists. eexists. eexists. split.
  { apply grouped_router_closed; assumption. }
  split; [exact H1 |]. split; [exact H2 |].
  split; [exact H3 |]. split; [exact H4 |].
  apply Forall_map. eapply Forall_impl; [| exact Hshape].
  intros r [Hl Hp] g Hg.
  unfold grouped_indices_row, group_offsets.
  set (picks := group_picks gt gne r) in *.
  assert (Hlen : length (map (map fst) picks) = groups)
    by (rewrite length_map; exact Hl).
  rewrite <- Hlen at 1.
  rewrite (@shifted_groups_count gt gne).
  + rewrite Hlen. destruct (Nat.leb_spec 0 g); [| lia].
    destruct (Nat.ltb_spec g (0 + groups)); [reflexivity | lia].
  + apply Forall_map. eapply Forall_impl; [| exact Hp].
    intros p [Hlp Hb]. rewrite length_map. split; assumption.
Qed.

End GroupedQuota.

(** The docstring's matrix: 2 groups of 4 experts, 2 picks in each. *)
Lemma grouped_router_quota_witness :
  exists probs scores idx,
    grouped_router (tensor Float32 example_logits) (2 * 4) (2 * 2) 2
    = ok (probs, scores, idx)
    /\ Forall (fun row => forall g, g < 2 ->
                 count_in (g * 4) ((g + 1) * 4) row = 2) idx.
Proof.
  destruct (@grouped_router_quota QScalar (tensor Float32 example_logits)
              2 4 2) as (probs & scores & idx & H & _ & _ & _ & _ & Hq);
    [lia | lia | lia | repeat constructor |].
  exists probs, scores, idx. split; assumption.
Defined.

(** ** What [grouped_router] requires *)

Section GroupedRequires.
Context {Sc : Scalar}.

Lemma length_concat_map {A} (f : list A -> list A) (rows : list (list A)) :
  (forall r, length (f r) = length r) ->
  length (concat (map f rows)) = length (concat rows).
Proof.
  intros Hf. induction rows as [| r rows IH]; simpl; [reflexivity |].
  rewrite !length_app, Hf, IH. reflexivity.
Qed.

(** The broadcast of the offsets succeeds only when there are as many
    offsets as groups. *)
Lemma add_offsets_row_lengths (N G : nat) (gs : list (list nat)) adj :
  0 < N / G -> length gs = G -> G <> 0 ->
  let offsets := map (fun i => i * (N / G))
                     (seq 0 ((N + N / G - 1) / (N / G))) in
  (if length gs =? length offsets
   then ok (map (fun '(g, o) => map (fun i => i + o) g) (combine gs offsets))
   else match offsets, gs with
        | [o], _ => ok (map (map (fun i => i + o)) gs)
        | _, [g] => ok (map (fun o => map (fun i => i + o) g) offsets)
        | _, _ => raise (RuntimeError "tensor sizes must match")
        end) = inr adj ->
  (N + N / G - 1) / (N / G) = G.
Proof.
  intros Hgne HlG HG offsets. set (gne := N / G) in *.
  set (A := (N + gne - 1) / gne) in *.
  assert (HlenA : length offsets = A)
    by (unfold offsets; rewrite length_map, length_seq; reflexivity).
  rewrite HlenA, HlG.
  destruct (Nat.eqb_spec G A) as [E | HGA]; [intros _; symmetry; exact E |].
  assert (HGgne : G * gne <= N).
  { unfold gne. rewrite (Nat.div_mod_eq N G) at 2. lia. }
  assert (HA1 : G = 1 -> A = 1).
  { intros E. unfold A, gne in *. rewrite E, Nat.div_1_r in *.
    symmetry. apply Nat.div_unique with (r := N - 1); lia. }
  assert (HA2 : A = 1 -> G = 1).
  { intros HA. destruct (Nat.eq_dec G 1) as [| HG1]; [assumption | exfalso].
    assert (N + gne - 1 < 2 * gne).
    { destruct (Nat.lt_ge_cases (N + gne - 1) (2 * gne)) as [| Hge];
        [assumption |].
      apply (Nat.Div0.div_le_mono _ _ gne) in Hge.
      replace (2 * gne / gne) with 2 in Hge
        by (apply Nat.div_unique with (r := 0); lia).
      fold A in Hge. lia. }
    assert (2 * gne <= N) by nia. lia. }
  intros H. exfalso. unfold offsets in H.
  assert (HA : length (seq 0 A) = A) by apply length_seq.
  destruct (seq 0 A) as [| o [| o' os]]; simpl in H, HA.
  - destruct gs as [| g [| g' gs']]; try discriminate.
    simpl in HlG. symmetry in HlG. apply HA1 in HlG. lia.
  - symmetry in HA. specialize (HA2 HA). lia.
  - destruct gs as [| g [| g' gs']]; try discriminate.
    simpl in HlG. symmetry in HlG. apply HA1 in HlG. lia.
Qed.

(** What a call that returned on at least one logit tells about its
    arguments. *)
Lemma grouped_router_needs (logits : Tensor) (N k G : nat) out :
  concat (data logits) <> [] ->
  grouped_router logits N k G = inr out ->
  G <> 0 /\ N mod G = 0 /\ 0 < N / G /\ k <> 0 /\ k / G <= N / G.
Proof.
  intros Hne. unfold grouped_router.
  destruct (Nat.eqb_spec G 0) as [| HG]; [discriminate |].
  set (gne := N / G). set (gt := k / G). intros H.
  apply rbind_ok in H as (grouped & Hview & H).
  apply rbind_ok in H as (sel & Hsel & H).
  apply rbind_ok in H as (sc & Hsc & H).
  apply rbind_ok in H as (offsets & Hoff & H).
  apply rbind_ok in H as (adj & Hadj & _).
  unfold view3 in Hview. apply rbind_ok in Hview as (inner & Hin & Hview).
  apply view2_ok in Hin as (Hgne & Hinner & Hc1 & _).
  apply view2_ok in Hview as (_ & HrowsG & Hc2 & _).
  apply view2_ok in Hsc as (Hk & _).
  assert (Hflat : concat (data (softmax logits Float32)) <> []).
  { intros E. apply Hne. apply length_zero_iff_nil.
    apply (f_equal (@length F)) in E. simpl in E.
    rewrite length_concat_map in E; [exact E |].
    intros r. rewrite softmax_row_length, length_map. reflexivity. }
  destruct grouped as [| gs0 grouped].
  { exfalso. apply Hflat. rewrite <- Hc1, <- Hc2. reflexivity. }
  assert (Hl0 : length gs0 = G) by exact (Forall_inv HrowsG).
  assert (Hg0 : rows_of gne gs0).
  { assert (Hall : Forall (rows_of gne) (gs0 :: grouped)).
    { apply Forall_concat. rewrite Hc2. exact Hinner. }
    exact (Forall_inv Hall). }
  apply rmap_ok_Forall2 in Hsel.
  destruct sel as [| s0 sel']; [inversion Hsel |].
  apply Forall2_cons_iff in Hsel as [Hs0 _].
  apply rmap_ok_Forall2 in Hs0.
  assert (Hls0 : length s0 = G) by (rewrite <- (Forall2_length Hs0); exact Hl0).
  assert (Hgt : gt <= gne).
  { destruct gs0 as [| grp gs0]; [simpl in Hl0; lia |].
    destruct s0 as [| p s0]; [inversion Hs0 |].
    apply Forall2_cons_iff in Hs0 as [Hp _].
    unfold topk_row in Hp.
    destruct (Nat.leb_spec gt (length grp)) as [Hle |]; [| discriminate].
    rewrite (Forall_inv Hg0) in Hle. exact Hle. }
  unfold arange in Hoff. destruct (Nat.eqb_spec gne 0); [lia |].
  injection Hoff as <-.
  unfold add_offsets in Hadj. simpl in Hadj.
  apply rbind_ok in Hadj as (a0 & Ha0 & _).
  apply (@add_offsets_row_lengths N G) in Ha0;
    [| exact Hgne | rewrite length_map; exact Hls0 | exact HG].
  fold gne in Ha0.
  assert (HGgne : G * gne <= N).
  { unfold gne. rewrite (Nat.div_mod_eq N G) at 2. lia. }
  assert (HN : N = gne * G).
  { assert (Hlt := Nat.mul_succ_div_gt (N + gne - 1) gne).
    rewrite Ha0 in Hlt. nia. }
  repeat split; try assumption; try lia.
  rewrite HN. apply Nat.Div0.mod_mul.
Qed.

(** X2.  On at least one logit, [grouped_router] returns only when the
    group size is not zero and divides the number of experts, [topk] is
    not zero and the quota [topk // group_size] of a group does not
    exceed its size; in every other case it raises, with
    ZeroDivisionError when the group size is zero. *)
Theorem grouped_router_requires (logits : Tensor) (N k G : nat) :
  concat (data logits) <> [] ->
  (forall out, grouped_router logits N k G = inr out ->
     G <> 0 /\ N mod G = 0 /\ 0 < N / G /\ k <> 0 /\ k / G <= N / G)
  /\ (G = 0 \/ N mod G <> 0 \/ k = 0 \/ N / G < k / G ->
      exists e, grouped_router logits N k G = inl e)
  /\ (G = 0 -> grouped_router logits N k G = inl ZeroDivisionError).
Proof.
  intros Hne. split; [| split].
  - intros out. apply grouped_router_needs. exact Hne.
  - intros Hbad.
    destruct (grouped_router logits N k G) as [e | out] eqn:E; [eauto |].
    apply grouped_router_needs in E; [| exact Hne]. lia.
  - intros ->. reflexivity.
Qed.

End GroupedRequires.

(** 8 experts cannot be cut in groups of 3: the call raises. *)
Lemma grouped_router_requires_witness :
  exists e, grouped_router (tensor Float32 example_logits) 8 4 3 = inl e.
Proof.
  assert (Hne : concat (data (tensor Float32 example_logits)) <> [])
    by (unfold example_logits; discriminate).
  apply (proj1 (proj2 (@grouped_router_requires QScalar
                         (tensor Float32 example_logits) 8 4 3 Hne))).
  right. left. discriminate.
Defined.

(** ** What [routing] does before it dispatches *)

Section RoutingPrefix.
Context {Sc : Scalar} {U : MoEUtils}.
Variable self : TopKRouter.

Lemma shape_numel (n : nat) (rows : list (list F)) :
  rows_of n rows -> fst (shape rows) * snd (shape rows) = length (concat rows).
Proof.
  intros H. destruct rows as [| r rows]; [reflexivity |].
  rewrite (shape_rows H) by discriminate.
  rewrite (length_concat_rows H). reflexivity.
Qed.

(** A call that returned found or built its jitter sampler. *)
Lemma routing_ready (logits : Tensor) (s : RouterState) r s' :
  routing self logits s = (inr r, s') -> jitter_ready self s = true.
Proof.
  intros H.
  apply routing_ok in H as (l0 & l1 & s1 & s2 & _ & Hz & Hj & _).
  destruct (apply_z_loss_total self l0 s) as (s1' & Hz' & Hj1 & _).
  rewrite Hz in Hz'. injection Hz' as <-.
  rewrite <- (jitter_ready_same self _ _ Hj1).
  exact (apply_input_jitter_ready _ _ _ Hj).
Qed.

(** The steps before the dispatch do not raise once the first view
    succeeded and the jitter sampler exists or can be built; they record
    the z-loss of the unjittered logits, build the sampler and draw one
    number per logit when a jitter is configured, and leave everything
    else as it was. *)
Lemma routing_prefix (logits l0 : Tensor) (s : RouterState) :
  view logits (num_moe_experts (config (base self))) = inr l0 ->
  jitter_ready self s = true ->
  exists l1 s2,
    routing self logits s = strategy self l1 s2
    /\ rows_of (num_moe_experts (config (base self))) (data l1)
    /\ length (data l1) = length (data l0)
    /\ dtype l1 = match moe_input_jitter_eps (config (base self)) with
                  | Some _ => promote_types (dtype logits) Float32
                  | None => dtype logits
                  end
    /\ aux_losses s2 = match moe_z_loss_coeff (config (base self)) with
                       | Some c => z_loss_func (data l0) c :: aux_losses s
                       | None => aux_losses s
                       end
    /\ rng_stream s2 = rng_stream s
    /\ hidden s2 = hidden s
    /\ rng_pos s2 = rng_pos s
                    + match moe_input_jitter_eps (config (base self)) with
                      | Some _ => length (concat (data logits))
                      | None => 0
                      end
    /\ input_jitter s2 = match moe_input_jitter_eps (config (base self)) with
                         | Some eps => Some (jitter_bounds eps s)
                         | None => input_jitter s
                         end.
Proof.
  intros Hv Hready. rewrite routing_unfold.
  erewrite bind_continues by (unfold lift; rewrite Hv; reflexivity).
  destruct (view_ok _ _ Hv) as (Hrows & Hd & _ & Hc).
  assert (Hz : exists s1,
             apply_z_loss self l0 s = (inr l0, s1)
             /\ input_jitter s1 = input_jitter s /\ rng_pos s1 = rng_pos s
             /\ rng_stream s1 = rng_stream s /\ hidden s1 = hidden s
             /\ aux_losses s1
                = match moe_z_loss_coeff (config (base self)) with
                  | Some c => z_loss_func (data l0) c :: aux_losses s
                  | None => aux_losses s
                  end).
  { unfold apply_z_loss. destruct (moe_z_loss_coeff _).
    - eexists. split; [reflexivity |]. simpl. auto.
    - exists s. split; [reflexivity |]. auto. }
  destruct Hz as (s1 & Hz & Hj1 & Hp1 & Hr1 & Hh1 & Ha1).
  erewrite bind_continues by exact Hz.
  rewrite <- (jitter_ready_same self _ _ Hj1) in Hready.
  destruct (moe_input_jitter_eps (config (base self))) as [eps |] eqn:He.
  - erewrite bind_continues
      by exact (apply_input_jitter_some self l0 s1 He Hready).
    eexists. eexists. split; [reflexivity |].
    assert (HJ := apply_input_jitter_some self l0 s1 He Hready).
    cbv zeta in HJ.
    apply apply_input_jitter_rows with (n := num_moe_experts (config (base self)))
      in HJ; [| exact Hrows].
    destruct HJ as [HJ1 HJ2].
    repeat split; unfold after_jitter;
      cbn [aux_losses rng_stream hidden rng_pos input_jitter];
      try assumption.
    + simpl. rewrite Hd. reflexivity.
    + rewrite (shape_numel Hrows), Hp1, Hc. reflexivity.
    + unfold jitter_bounds. rewrite Hj1. reflexivity.
  - erewrite bind_continues by exact (apply_input_jitter_none self l0 s1 He).
    exists l0, s1. repeat split; try assumption; try congruence.
    rewrite Hp1. lia.
Qed.

(** X3.  A routing type other than sinkhorn, aux_loss, none and sigmoid
    makes [routing] raise the ValueError that names it, for every input
    that can be seen as rows of [num_moe_experts] logits, in a state in
    which the jitter sampler exists or can be built; by then the z-loss
    is recorded and the jitter has consumed its draws. *)
Theorem routing_unsupported_type (logits l0 : Tensor) (s : RouterState) :
  routing_type self <> "sinkhorn" -> routing_type self <> "aux_loss" ->
  routing_type self <> "none" -> routing_type self <> "sigmoid" ->
  view logits (num_moe_experts (config (base self))) = inr l0 ->
  jitter_ready self s = true ->
  exists s',
    routing self logits s
    = (inl (ValueError (String.append "Unsupported MoE routing type: "
                                      (routing_type self))), s')
    /\ aux_losses s' = match moe_z_loss_coeff (config (base self)) with
                       | Some c => z_loss_func (data l0) c :: aux_losses s
                       | None => aux_losses s
                       end
    /\ rng_pos s' = rng_pos s
                    + match moe_input_jitter_eps (config (base self)) with
                      | Some _ => length (concat (data logits))
                      | None => 0
                      end.
Proof.
  intros H1 H2 H3 H4 Hv Hready.
  destruct (@routing_prefix logits l0 s Hv Hready)
    as (l1 & s2 & -> & _ & _ & _ & Ha & _ & _ & Hp & _).
  exists s2. split; [| split; assumption].
  unfold strategy.
  apply String.eqb_neq in H1, H2, H3, H4. rewrite H1, H2, H3, H4. reflexivity.
Qed.

(** X4.  Under the aux_loss routing type, an aux-loss type that is not
    switch and does not contain btx makes [routing] raise the ValueError
    that names it, on every input that can be seen as rows of
    [num_moe_experts] logits, in a state in which the jitter sampler
    exists or can be built. *)
Theorem routing_unsupported_aux_loss_type (logits l0 : Tensor) (s : RouterState) :
  routing_type self = "aux_loss" ->
  moe_aux_loss_type (config (base self)) <> "switch" ->
  contains "btx" (moe_aux_loss_type (config (base self))) = false ->
  view logits (num_moe_experts (config (base self))) = inr l0 ->
  jitter_ready self s = true ->
  exists s',
    routing self logits s
    = (inl (ValueError (String.append "Unsupported aux loss type: "
                          (moe_aux_loss_type (config (base self))))), s').
Proof.
  intros H1 H2 H3 Hv Hready.
  destruct (@routing_prefix logits l0 s Hv Hready) as (l1 & s2 & -> & _).
  exists s2. unfold strategy.
  apply String.eqb_neq in H2. rewrite H1, H2, H3. reflexivity.
Qed.

(** X5.  Under the aux_loss routing type with the switch loss, a router
    type other than mixtral, st and grouped makes [routing] raise
    NotImplementedError, on every input that can be seen as rows of
    [num_moe_experts] logits, in a state in which the jitter sampler
    exists or can be built; no balancing loss is recorded: the losses
    are those present before, and the z-loss if one is configured. *)
Theorem routing_unsupported_router_type (logits l0 : Tensor) (s : RouterState) :
  routing_type self = "aux_loss" ->
  moe_aux_loss_type (config (base self)) = "switch" ->
  moe_router_type (config (base self)) <> "mixtral" ->
  moe_router_type (config (base self)) <> "st" ->
  moe_router_type (config (base self)) <> "grouped" ->
  view logits (num_moe_experts (config (base self))) = inr l0 ->
  jitter_ready self s = true ->
  exists s',
    routing self logits s = (inl NotImplementedError, s')
    /\ aux_losses s' = match moe_z_loss_coeff (config (base self)) with
                       | Some c => z_loss_func (data l0) c :: aux_losses s
                       | None => aux_losses s
                       end.
Proof.
  intros H1 H2 H3 H4 H5 Hv Hready.
  destruct (@routing_prefix logits l0 s Hv Hready)
    as (l1 & s2 & -> & _ & _ & _ & Ha & _).
  exists s2. split; [| exact Ha].
  unfold strategy, aux_loss_load_balancing.
  apply String.eqb_neq in H3, H4, H5. rewrite H1, H2. simpl.
  rewrite H3, H4, H5. reflexivity.
Qed.

End RoutingPrefix.

(** An unknown routing type, with a z-loss and a jitter configured: the
    error comes after one loss is recorded and 32 draws are consumed. *)
Lemma routing_unsupported_type_witness :
  let r := router_of (config8 2 "expert_choice" "" "" 0 (Some (1 # 1000)%Q)
                        (Some (1 # 10)%Q) None 1) true in
  let x := tensor Float32 example_logits in
  exists s',
    routing r x state0
    = (inl (ValueError "Unsupported MoE routing type: expert_choice"), s')
    /\ length (aux_losses s') = 1 /\ rng_pos s' = 32.
Proof.
  intros r x.
  assert (Hv : view x 8 = inr x)
    by (apply view_rows; [lia | repeat constructor]).
  assert (H1 : routing_type r <> "sinkhorn") by discriminate.
  assert (H2 : routing_type r <> "aux_loss") by discriminate.
  assert (H3 : routing_type r <> "none") by discriminate.
  assert (H4 : routing_type r <> "sigmoid") by discriminate.
  destruct (@routing_unsupported_type QScalar QUtils r x x state0
              H1 H2 H3 H4 Hv eq_refl) as (s' & E & Ha & Hp).
  exists s'. split; [exact E |]. split.
  - rewrite Ha. reflexivity.
  - rewrite Hp. reflexivity.
Defined.

Lemma routing_unsupported_aux_loss_type_witness :
  let r := router_of (config8 2 "aux_loss" "mixtral" "entropy" (1 # 100)%Q
                        None None None 1) true in
  let x := tensor Float32 example_logits in
  exists s',
    routing r x state0
    = (inl (ValueError "Unsupported aux loss type: entropy"), s').
Proof.
  intros r x.
  assert (Hv : view x 8 = inr x)
    by (apply view_rows; [lia | repeat constructor]).
  assert (H1 : routing_type r = "aux_loss") by reflexivity.
  assert (H2 : moe_aux_loss_type (config (base r)) <> "switch") by discriminate.
  assert (H3 : contains "btx" (moe_aux_loss_type (config (base r))) = false)
    by reflexivity.
  destruct (@routing_unsupported_aux_loss_type QScalar QUtils r x x state0
              H1 H2 H3 Hv eq_refl) as (s' & E).
  exists s'. exact E.
Defined.

Lemma routing_unsupported_router_type_witness :
  let r := router_of (config8 2 "aux_loss" "top1" "switch" (1 # 100)%Q
                        None None None 1) true in
  let x := tensor Float32 example_logits in
  exists s',
    routing r x state0 = (inl NotImplementedError, s') /\ aux_losses s' = [].
Proof.
  intros r x.
  assert (Hv : view x 8 = inr x)
    by (apply view_rows; [lia | repeat constructor]).
  assert (H1 : routing_type r = "aux_loss") by reflexivity.
  assert (H2 : moe_aux_loss_type (config (base r)) = "switch") by reflexivity.
  assert (H3 : moe_router_type (config (base r)) <> "mixtral") by discriminate.
  assert (H4 : moe_router_type (config (base r)) <> "st") by discriminate.
  assert (H5 : moe_router_type (config (base r)) <> "grouped") by discriminate.
  destruct (@routing_unsupported_router_type QScalar QUtils r x x state0
              H1 H2 H3 H4 H5 Hv eq_refl) as (s' & E & Ha).
  exists s'. split; [exact E | exact Ha].
Defined.

(** ** The shape of what [routing] returns *)

Section ShapeFacts.
Context {Sc : Scalar} {U : MoEUtils}.
Variable self : TopKRouter.

Lemma selection_rows (k : nat) (rows : list (list F)) sel :
  Forall2 (selection k) rows sel ->
  rows_of k (map (map fst) sel) /\ rows_of k (map (map snd) sel)
  /\ length sel = length rows.
Proof.
  intros H. split; [| split].
  - apply Forall_map. induction H as [| r p rows sel Hp _ IH]; constructor; auto.
    rewrite length_map. exact (proj1 Hp).
  - apply Forall_map. induction H as [| r p rows sel Hp _ IH]; constructor; auto.
    rewrite length_map. exact (proj1 Hp).
  - symmetry. exact (Forall2_length H).
Qed.

Lemma topk_shape (t : Tensor) (k : nat) v i :
  topk t k = inr (v, i) ->
  rows_of k i /\ rows_of k (data v)
  /\ length i = length (data t) /\ length (data v) = length (data t).
Proof.
  intros H. apply topk_ok in H as (_ & _ & sel & Hsel & -> & ->).
  destruct (selection_rows Hsel) as (H1 & H2 & H3).
  rewrite !length_map. auto.
Qed.

Lemma gather_rows_shape (k : nat) (rows : list (list F)) (idx : ITensor) g :
  gather_rows rows idx = inr g -> rows_of k idx ->
  rows_of k g /\ length g = length idx /\ length idx <= length rows.
Proof.
  revert rows g; induction idx as [| i idx IH]; intros rows g.
  - destruct rows; simpl; intros H _; injection H as <-;
      (split; [constructor | split; [reflexivity | simpl; lia]]).
  - destruct rows as [| r rows]; simpl; [discriminate |]. intros H Hk.
    apply rbind_ok in H as (gr & Hgr & H).
    apply rbind_ok in H as (gs & Hgs & H). injection H as <-.
    apply IH in Hgs as (H1 & H2 & H3); [| exact (Forall_inv_tail Hk)].
    split; [| simpl; split; lia].
    constructor; [| exact H1].
    apply gather_row_ok in Hgr. rewrite <- (Forall2_length Hgr).
    exact (Forall_inv Hk).
Qed.

Lemma mask_rows_length (rows : list (list F)) (mask : list (list bool)) (v : F) :
  length (mask_rows rows mask v) = length rows.
Proof.
  revert mask; induction rows as [| r rows IH]; intros [| m mask]; simpl; auto.
Qed.

(** [softmax(v, dtype=float32).type_as(l)] keeps the shape of [v]. *)
Lemma top_activation_shape (k : nat) (v l : Tensor) :
  rows_of k (data v) ->
  rows_of k (data (type_as (softmax v Float32) l))
  /\ length (data (type_as (softmax v Float32) l)) = length (data v).
Proof.
  intros H. split.
  - apply to_dtype_rows, softmax_rows_of. exact H.
  - simpl. rewrite !length_map. reflexivity.
Qed.

Lemma view2_nil {A} (n : nat) (rows : list (list A)) :
  view2 [] n = inr rows -> rows = [].
Proof.
  unfold view2. destruct (n =? 0); [discriminate |].
  simpl length. rewrite Nat.Div0.mod_0_l. simpl. intros H; injection H as <-.
  reflexivity.
Qed.

Lemma grouped_router_shape (l : Tensor) (N k G : nat) probs sc idx :
  grouped_router l N k G = inr (probs, sc, idx) ->
  rows_of N (data l) -> k mod G = 0 ->
  rows_of k idx /\ rows_of k (data sc)
  /\ length idx = length (data l) /\ length (data sc) = length (data l).
Proof.
  intros H Hrows Hk.
  destruct (data l) as [| r rows] eqn:E.
  - (* no token *)
    unfold grouped_router in H. destruct (G =? 0); [discriminate |].
    assert (Hp : concat (data (softmax l Float32)) = [])
      by (simpl; rewrite E; reflexivity).
    rewrite Hp in H.
    apply rbind_ok in H as (grouped & Hview & H).
    unfold view3 in Hview. apply rbind_ok in Hview as (inner & Hin & Hview).
    apply view2_nil in Hin. subst inner. apply view2_nil in Hview.
    subst grouped. simpl in H.
    apply rbind_ok in H as (sc0 & Hsc & H). apply view2_nil in Hsc. subst sc0.
    apply rbind_ok in H as (offsets & _ & H). simpl in H.
    apply rbind_ok in H as (ai & Hai & H). apply view2_nil in Hai. subst ai.
    injection H as _ <- <-. simpl. repeat split; constructor.
  - assert (Hne : concat (data l) <> []).
    { rewrite E. intros Hc. apply (f_equal (@length F)) in Hc.
      assert (HlN := Forall_inv Hrows).
      simpl in Hc. rewrite length_app in Hc.
      assert (Hn := grouped_router_needs).
      destruct r; [| simpl in Hc; lia].
      simpl in HlN. subst N.
      unfold grouped_router in H. destruct (G =? 0) eqn:EG; [discriminate |].
      apply rbind_ok in H as (grouped & Hview & _).
      unfold view3 in Hview. apply rbind_ok in Hview as (inner & Hin & _).
      apply view2_ok in Hin as (Hgne & _).
      apply Nat.eqb_neq in EG. rewrite Nat.Div0.div_0_l in Hgne. lia. }
    destruct (grouped_router_needs _ _ _ _ Hne H) as (HG & HN & Hgne & Hk0 & Hle).
    assert (EN : N = G * (N / G)).
    { rewrite (Nat.div_mod_eq N G) at 1. lia. }
    assert (Ek : k = G * (k / G)).
    { rewrite (Nat.div_mod_eq k G) at 1. lia. }
    assert (Hgt : 0 < k / G).
    { destruct (k / G); [lia | lia]. }
    rewrite <- E in *.
    assert (Hrows' : rows_of (G * (N / G)) (data l)) by (rewrite <- EN; exact Hrows).
    assert (HC := @grouped_router_closed _ l G (N / G) (k / G)
                    ltac:(lia) Hgt Hle Hrows').
    cbv zeta in HC. rewrite <- EN, <- Ek in HC. rewrite HC in H.
    injection H as _ <- <-.
    destruct (@grouped_closed_rows _ l G (N / G) (k / G) Hgne Hle Hrows')
      as (H1 & H2 & H3 & H4).
    rewrite <- Ek in H3, H4. cbn [data]. auto.
Qed.

Lemma strategy_shape (l : Tensor) s w idx s' :
  (routing_type self = "aux_loss" ->
   moe_aux_loss_type (config (base self)) = "switch" ->
   moe_router_type (config (base self)) = "grouped" ->
   topk_ self mod moe_group_size (config (base self)) = 0) ->
  strategy self l s = (inr (w, idx), s') ->
  rows_of (num_moe_experts (config (base self))) (data l) ->
  rows_of (topk_ self) idx /\ rows_of (topk_ self) (data w)
  /\ length (data w) = length idx /\ length idx <= length (data l)
  /\ ((routing_type self = "sinkhorn" -> training self = false) ->
      length idx = length (data l)).
Proof.
  unfold strategy. intros Hgrp H Hrows.
  destruct (String.eqb_spec (routing_type self) "sinkhorn") as [Hsk |].
  { unfold sinkhorn_load_balancing in H.
    destruct (negb (eqb _ zero)); [discriminate |].
    destruct (training self).
    - apply bind_ok in H as ([v i] & s1 & Ht & H).
      apply lift_ok in Ht as [Ht _].
      apply sinkhorn_no_grad_ok in Ht as (_ & v' & Ht).
      apply bind_ok in H as (sc & s2 & Hg & H).
      apply lift_ok in Hg as [Hg _]. apply ret_ok in H as [H _].
      injection H as <- <-.
      apply topk_shape in Ht as (Hi & _).
      unfold gather in Hg. apply rbind_ok in Hg as (g & Hg & Hw).
      injection Hw as <-. cbn [data].
      apply gather_rows_shape with (k := topk_ self) in Hg as (H1 & H2 & H3);
        [| exact Hi].
      assert (Hl : length (data (_sinkhorn_activation self l)) = length (data l)).
      { unfold _sinkhorn_activation. destruct (topk_ self =? 1); simpl;
          rewrite !length_map; reflexivity. }
      rewrite Hl in H3.
      repeat split; try assumption. intros Hc. specialize (Hc Hsk). discriminate.
    - apply lift_ok in H as [H _].
      apply topk_shape in H as (H1 & H2 & H3 & H4).
      assert (Hl : length (data (_sinkhorn_activation self l)) = length (data l)).
      { unfold _sinkhorn_activation. destruct (topk_ self =? 1); simpl;
          rewrite !length_map; reflexivity. }
      rewrite Hl in H3, H4. repeat split; try assumption; lia. }
  assert (Hfin : forall (v : Tensor) (i : ITensor) (n : nat),
             rows_of (topk_ self) i -> rows_of (topk_ self) (data v) ->
             length i = n -> length (data v) = n -> n = length (data l) ->
             rows_of (topk_ self) i /\ rows_of (topk_ self) (data v)
             /\ length (data v) = length i /\ length i <= length (data l)
             /\ ((routing_type self = "sinkhorn" -> training self = false) ->
                 length i = length (data l))).
  { intros v i m H1 H2 H3 H4 H5. repeat split; try assumption; lia. }
  destruct (String.eqb_spec (routing_type self) "aux_loss") as [Ha |].
  { destruct (String.eqb_spec (moe_aux_loss_type (config (base self))) "switch")
      as [Hs |].
    { unfold aux_loss_load_balancing in H.
      apply bind_ok in H as ([[probs sc] i] & s1 & Hsel & H).
      apply bind_ok in H as (sc' & s2 & Hal & H). apply ret_ok in H as [H _].
      apply apply_aux_loss_ok in Hal. subst sc'. injection H as <- <-.
      destruct (String.eqb_spec (moe_router_type (config (base self))) "mixtral").
      { apply bind_ok in Hsel as ([v i'] & s0 & Ht & Hsel).
        apply lift_ok in Ht as [Ht _]. apply ret_ok in Hsel as [Hsel _].
        injection Hsel as _ -> ->.
        apply topk_shape in Ht as (H1 & H2 & H3 & H4).
        destruct (@top_activation_shape (topk_ self) v l H2) as [H5 H6].
        eapply Hfin; eauto. congruence. }
      destruct (String.eqb_spec (moe_router_type (config (base self))) "st").
      { apply bind_ok in Hsel as ([v i'] & s0 & Ht & Hsel).
        apply lift_ok in Ht as [Ht _]. apply ret_ok in Hsel as [Hsel _].
        injection Hsel as _ -> ->.
        apply topk_shape in Ht as (H1 & H2 & H3 & H4).
        eapply Hfin; eauto. simpl. rewrite !length_map. reflexivity. }
      destruct (String.eqb_spec (moe_router_type (config (base self))) "grouped")
        as [Hg |]; [| discriminate].
      apply lift_ok in Hsel as [Hsel _].
      apply grouped_router_shape in Hsel as (H1 & H2 & H3 & H4); auto.
      eapply Hfin; eauto. }
    destruct (contains "btx" _); [| discriminate].
    unfold btx_aux_loss_load_balancing in H.
    apply bind_ok in H as ([v i] & s1 & Ht & H). apply lift_ok in Ht as [Ht _].
    apply bind_ok in H as (sc & s2 & _ & H).
    apply bind_ok in H as (sc' & s3 & Hsc & H). apply ret_ok in H as [H _].
    apply autoscaler_ok in Hsc as [-> _]. injection H as -> ->.
    apply topk_shape in Ht as (H1 & H2 & H3 & H4).
    destruct (@top_activation_shape (topk_ self) v l H2) as [H5 H6].
    eapply Hfin; eauto. congruence. }
  destruct (String.eqb_spec (routing_type self) "none").
  { apply bind_ok in H as ([v i] & s1 & Ht & H). apply lift_ok in Ht as [Ht _].
    apply ret_ok in H as [H _]. injection H as -> ->.
    apply topk_shape in Ht as (H1 & H2 & H3 & H4).
    destruct (@top_activation_shape (topk_ self) v l H2) as [H5 H6].
    eapply Hfin; eauto. congruence. }
  destruct (String.eqb_spec (routing_type self) "sigmoid"); [| discriminate].
  unfold sigmoid_load_balancing in H.
  apply bind_ok in H as (l' & s1 & Hl & H).
  assert (Hlen : length (data l') = length (data l)).
  { destruct (moe_dropout _) as [p |].
    - destruct (negb (eqb p zero) && training self).
      + apply bind_ok in Hl as (mask & s0 & _ & Hl).
        apply ret_ok in Hl as [-> _]. simpl. apply mask_rows_length.
      + apply ret_ok in Hl as [-> _]. reflexivity.
    - apply ret_ok in Hl as [-> _]. reflexivity. }
  apply bind_ok in H as ([v i] & s2 & Ht & H). apply lift_ok in Ht as [Ht _].
  apply bind_ok in H as (sc & s3 & Hal & H). apply ret_ok in H as [H _].
  apply apply_aux_loss_ok in Hal. subst sc. injection H as <- <-.
  apply topk_shape in Ht as (H1 & H2 & H3 & H4).
  eapply Hfin; eauto. simpl. rewrite length_map. exact Hlen.
Qed.

(** X6.  What [routing] returns has one row of [topk] weights and one
    row of [topk] expert ids per selected token, and never more rows than
    tokens; outside the training mode of the sinkhorn strategy, whose
    row count is that of the [sinkhorn] kernel, there is exactly one row
    per token.  For the grouped variant this needs the group size to
    divide [topk]. *)
Theorem routing_shape (logits : Tensor) s w idx s' :
  (routing_type self = "aux_loss" ->
   moe_aux_loss_type (config (base self)) = "switch" ->
   moe_router_type (config (base self)) = "grouped" ->
   topk_ self mod moe_group_size (config (base self)) = 0) ->
  routing self logits s = (inr (w, idx), s') ->
  rows_of (topk_ self) idx /\ rows_of (topk_ self) (data w)
  /\ length (data w) = length idx
  /\ length idx * num_moe_experts (config (base self))
     <= length (concat (data logits))
  /\ ((routing_type self = "sinkhorn" -> training self = false) ->
      length idx * num_moe_experts (config (base self))
      = length (concat (data logits))).
Proof.
  intros Hgrp H.
  apply routing_ok in H as (l0 & l1 & s1 & s2 & Hv & _ & _ & Hrows & Hlen & H).
  apply view_ok in Hv as (Hr0 & _ & _ & Hc).
  apply strategy_shape in H as (H1 & H2 & H3 & H4 & H5); auto.
  rewrite <- Hc, (length_concat_rows Hr0), <- Hlen.
  repeat split; try assumption.
  - apply Nat.mul_le_mono_r. exact H4.
  - intros Hsk. rewrite (H5 Hsk). reflexivity.
Qed.

End ShapeFacts.

(** Top-1 routing of one token over 8 experts: one row of one id. *)
Lemma routing_shape_witness :
  let out := routing (router_of (top1_config None) true)
               (tensor Float32 close_call) state0 in
  rows_of 1 (indices_of out) /\ rows_of 1 (data (weights_of out))
  /\ length (indices_of out) * 8 = 8.
Proof.
  intros out.
  assert (E : routing (router_of (top1_config None) true)
                (tensor Float32 close_call) state0
              = (inr (weights_of out, indices_of out), snd out))
    by by_evaluation.
  destruct (@routing_shape QScalar QUtils (router_of (top1_config None) true)
              (tensor Float32 close_call) state0 _ _ _
              (fun _ _ _ => eq_refl) E) as (H1 & H2 & _ & _ & H5).
  split; [exact H1 |]. split; [exact H2 |].
  apply H5. intros Hsk. discriminate Hsk.
Defined.

(** ** What a call of [routing] leaves behind *)

Section EffectFacts.
Context {Sc : Scalar} {U : MoEUtils}.
Variable self : TopKRouter.

Lemma evolves_refl (s : RouterState) : evolves s s 0 [].
Proof. unfold evolves. repeat split. lia. Qed.

Lemma evolves_trans (s s1 s2 : RouterState) (d1 d2 : nat) (e1 e2 : list F) :
  evolves s s1 d1 e1 -> evolves s1 s2 d2 e2 ->
  evolves s s2 (d1 + d2) (e2 ++ e1).
Proof.
  unfold evolves. intros (H1 & H2 & H3 & H4) (K1 & K2 & K3 & K4).
  repeat split; try congruence; [lia |].
  rewrite K4, H4, app_assoc. reflexivity.
Qed.

Lemma autoscaler_evolves (v : Tensor) (loss : F) s v' s' :
  MoEAuxLossAutoScaler_apply v loss s = (inr v', s') ->
  v' = v /\ input_jitter s' = input_jitter s /\ evolves s s' 0 [loss].
Proof.
  unfold MoEAuxLossAutoScaler_apply, ok, evolves.
  intros H; injection H as <- <-. simpl. repeat split. lia.
Qed.

Lemma apply_aux_loss_evolves (f : LossFunc) probs idx act s act' s' :
  apply_aux_loss self f probs idx act s = (inr act', s') ->
  input_jitter s' = input_jitter s /\ exists loss, evolves s s' 0 [loss].
Proof.
  unfold apply_aux_loss. intros H.
  apply bind_ok in H as (mask & s1 & Hm & H). apply lift_ok in Hm as [_ ->].
  apply autoscaler_evolves in H as (_ & H1 & H2). eauto.
Qed.

Lemma bernoulli_mask_evolves (t : Tensor) (p : F) s mask s' :
  bernoulli_mask t p s = (inr mask, s') ->
  input_jitter s' = input_jitter s
  /\ evolves s s' (fst (shape (data t)) * snd (shape (data t))) [].
Proof.
  unfold bernoulli_mask. destruct (ltb p zero || ltb one p); [discriminate |].
  intros H. apply bind_ok in H as (u & s1 & Hu & H).
  apply ret_ok in H as [_ ->]. unfold rand in Hu.
  destruct (shape (data t)) as [rows cols].
  injection Hu as _ <-. unfold evolves. simpl. repeat split.
Qed.

Lemma strategy_effects (l : Tensor) s r s' :
  strategy self l s = (inr r, s') ->
  rows_of (num_moe_experts (config (base self))) (data l) ->
  input_jitter s' = input_jitter s
  /\ exists bal,
       length bal = (if records_balancing_loss self then 1 else 0)
       /\ evolves s s'
            (if dropout_active self then length (concat (data l)) else 0) bal.
Proof.
  unfold strategy, records_balancing_loss, dropout_active. intros H Hrows.
  destruct (String.eqb_spec (routing_type self) "sinkhorn") as [Hsk |].
  { rewrite Hsk. simpl. unfold sinkhorn_load_balancing in H.
    destruct (negb (eqb _ zero)); [discriminate |].
    assert (s' = s); [| subst s'; split; [reflexivity |]; exists [];
                        split; [reflexivity | apply evolves_refl]].
    destruct (training self).
    - apply bind_ok in H as ([v i] & s1 & Ht & H).
      apply lift_ok in Ht as [_ ->].
      apply bind_ok in H as (sc & s2 & Hg & H).
      apply lift_ok in Hg as [_ ->]. apply ret_ok in H as [_ ->]. reflexivity.
    - apply lift_ok in H as [_ ->]. reflexivity. }
  destruct (String.eqb_spec (routing_type self) "aux_loss") as [Ha |].
  { rewrite Ha. simpl.
    destruct (String.eqb_spec (moe_aux_loss_type (config (base self))) "switch")
      as [Hs |].
    { unfold aux_loss_load_balancing in H.
      apply bind_ok in H as ([[probs sc] i] & s1 & Hsel & H).
      apply bind_ok in H as (sc' & s2 & Hal & H). apply ret_ok in H as [_ ->].
      assert (s1 = s).
      { destruct (String.eqb (moe_router_type (config (base self))) "mixtral").
        { apply bind_ok in Hsel as ([v i'] & s0 & Ht & Hsel).
          apply lift_ok in Ht as [_ ->]. apply ret_ok in Hsel as [_ ->].
          reflexivity. }
        destruct (String.eqb (moe_router_type (config (base self))) "st").
        { apply bind_ok in Hsel as ([v i'] & s0 & Ht & Hsel).
          apply lift_ok in Ht as [_ ->]. apply ret_ok in Hsel as [_ ->].
          reflexivity. }
        destruct (String.eqb (moe_router_type (config (base self))) "grouped");
          [| discriminate].
        apply lift_ok in Hsel as [_ ->]. reflexivity. }
      subst s1. apply apply_aux_loss_evolves in Hal as (Hj & loss & He).
      split; [exact Hj |]. exists [loss]. split; [reflexivity | exact He]. }
    destruct (contains "btx" _); [| discriminate].
    unfold btx_aux_loss_load_balancing in H.
    apply bind_ok in H as ([v i] & s1 & Ht & H). apply lift_ok in Ht as [_ ->].
    apply bind_ok in H as (sc & s2 & Hsc & H). apply lift_ok in Hsc as [_ ->].
    apply bind_ok in H as (sc' & s3 & Hal & H). apply ret_ok in H as [_ ->].
    apply autoscaler_evolves in Hal as (_ & Hj & He).
    split; [exact Hj |]. eexists. split; [| exact He]. reflexivity. }
  destruct (String.eqb_spec (routing_type self) "none") as [Hn |].
  { rewrite Hn. simpl.
    apply bind_ok in H as ([v i] & s1 & Ht & H). apply lift_ok in Ht as [_ ->].
    apply ret_ok in H as [_ ->]. split; [reflexivity |].
    exists []. split; [reflexivity | apply evolves_refl]. }
  destruct (String.eqb_spec (routing_type self) "sigmoid") as [Hsg |];
    [| discriminate].
  simpl. unfold sigmoid_load_balancing in H.
  apply bind_ok in H as (l' & s1 & Hl & H).
  apply bind_ok in H as ([v i] & s2 & Ht & H). apply lift_ok in Ht as [_ ->].
  apply bind_ok in H as (sc & s3 & Hal & H). apply ret_ok in H as [_ ->].
  apply apply_aux_loss_evolves in Hal as (Hj & loss & He).
  assert (Hd : input_jitter s1 = input_jitter s
               /\ evolves s s1
                    (if match moe_dropout (config (base self)) with
                        | Some p => negb (eqb p zero) && training self
                        | None => false
                        end
                     then length (concat (data l)) else 0) []).
  { destruct (moe_dropout _) as [p |].
    - destruct (negb (eqb p zero) && training self).
      + apply bind_ok in Hl as (mask & s0 & Hb & Hl).
        apply ret_ok in Hl as [_ ->].
        apply bernoulli_mask_evolves in Hb.
        rewrite (shape_numel Hrows) in Hb. exact Hb.
      + apply ret_ok in Hl as [_ ->]. split; [reflexivity | apply evolves_refl].
    - apply ret_ok in Hl as [_ ->]. split; [reflexivity | apply evolves_refl]. }
  destruct Hd as [Hj1 He1]. split; [congruence |].
  exists [loss]. split; [reflexivity |].
  assert (HT := evolves_trans He1 He). rewrite Nat.add_0_r in HT. exact HT.
Qed.

(** The two parts of a call that returned: the state at the dispatch and
    the state at the end. *)
Lemma routing_effects (logits : Tensor) s r s' :
  routing self logits s = (inr r, s') ->
  exists l0 bal,
    view logits (num_moe_experts (config (base self))) = inr l0
    /\ length bal = (if records_balancing_loss self then 1 else 0)
    /\ input_jitter s'
       = match moe_input_jitter_eps (config (base self)) with
         | Some eps => Some (jitter_bounds eps s)
         | None => input_jitter s
         end
    /\ evolves s s'
         (length (concat (data logits))
          * (match moe_input_jitter_eps (config (base self)) with
              | Some _ => 1
              | None => 0
              end
             + (if dropout_active self then 1 else 0)))
         (bal ++ z_losses self l0).
Proof.
  intros H. assert (H0 := H).
  apply routing_ok in H0 as (l0 & _ & _ & _ & Hv & _).
  destruct (@routing_prefix _ _ self logits l0 s Hv (@routing_ready _ _ _ _ _ _ _ H))
    as (l1 & s2 & E & Hrows & Hlen & _ & Ha & Hst & Hh & Hp & Hj).
  rewrite E in H. apply strategy_effects in H as (Hj' & bal & Hb & He);
    [| exact Hrows].
  exists l0, bal. split; [exact Hv |]. split; [exact Hb |].
  split; [congruence |].
  assert (Hn : length (concat (data l1)) = length (concat (data logits))).
  { destruct (view_ok _ _ Hv) as (Hr0 & _ & _ & Hc).
    rewrite (length_concat_rows Hrows), Hlen, <- Hc.
    rewrite (length_concat_rows Hr0). reflexivity. }
  rewrite Hn in He. destruct He as (K1 & K2 & K3 & K4).
  unfold evolves, z_losses. repeat split; try congruence.
  - rewrite K3, Hp.
    destruct (moe_input_jitter_eps _); destruct (dropout_active self); lia.
  - rewrite K4, Ha. destruct (moe_z_loss_coeff _); rewrite <- app_assoc;
      reflexivity.
Qed.

(** X7.  A call of [routing] that returns records the z-loss of the
    logits as the caller passed them (before any jitter) when a z-loss
    coefficient is configured, then exactly one balancing loss under the
    aux_loss and sigmoid routing types and none under sinkhorn and none;
    the losses recorded before stay in place. *)
Theorem routing_recorded_losses (logits : Tensor) s r s' :
  routing self logits s = (inr r, s') ->
  exists l0 bal,
    view logits (num_moe_experts (config (base self))) = inr l0
    /\ length bal = (if records_balancing_loss self then 1 else 0)
    /\ aux_losses s' = bal ++ z_losses self l0 ++ aux_losses s.
Proof.
  intros H. apply routing_effects in H as (l0 & bal & Hv & Hb & _ & He).
  exists l0, bal. split; [exact Hv |]. split; [exact Hb |].
  destruct He as (_ & _ & _ & He). rewrite He, app_assoc. reflexivity.
Qed.

(** X8.  A call of [routing] that returns never changes the stream of
    random numbers nor [self.hidden]; it consumes one draw per logit for
    the input jitter when an epsilon is configured and one more per logit
    for the dropout mask of the sigmoid strategy in training mode; and
    it keeps a jitter sampler that was already built, building one from
    the epsilon only when there was none. *)
Theorem routing_random_draws (logits : Tensor) s r s' :
  routing self logits s = (inr r, s') ->
  rng_stream s' = rng_stream s /\ hidden s' = hidden s
  /\ rng_pos s'
     = rng_pos s
       + length (concat (data logits))
         * (match moe_input_jitter_eps (config (base self)) with
              | Some _ => 1
              | None => 0
              end
            + (if dropout_active self then 1 else 0))
  /\ input_jitter s'
     = match moe_input_jitter_eps (config (base self)), input_jitter s with
       | Some _, Some b => Some b
       | Some eps, None =>
           Some (cast Float32 (sub one eps), cast Float32 (add one eps))
       | None, j => j
       end.
Proof.
  intros H. apply routing_effects in H as (l0 & bal & _ & _ & Hj & He).
  destruct He as (H1 & H2 & H3 & _).
  repeat split; try assumption.
  rewrite Hj. unfold jitter_bounds.
  destruct (moe_input_jitter_eps _); destruct (input_jitter s); reflexivity.
Qed.

End EffectFacts.

(** Sigmoid routing of one token in training mode, with a z-loss, an
    input jitter and a dropout rate of 1/2: the call returns. *)
Lemma noisy_sigmoid_returns :
  let r := router_of (config8 1 "sigmoid" "" "" (1 # 100)%Q (Some (1 # 1000)%Q)
                        (Some (1 # 10)%Q) (Some (1 # 2)%Q) 1) true in
  let out := routing r (tensor Float32 close_call) state0 in
  routing r (tensor Float32 close_call) state0
  = (inr (weights_of out, indices_of out), snd out).
Proof. intros r out. by_evaluation. Qed.

(** That call records two losses, the z-loss first. *)
Lemma routing_recorded_losses_witness :
  let r := router_of (config8 1 "sigmoid" "" "" (1 # 100)%Q (Some (1 # 1000)%Q)
                        (Some (1 # 10)%Q) (Some (1 # 2)%Q) 1) true in
  let out := routing r (tensor Float32 close_call) state0 in
  length (aux_losses (snd out)) = 2.
Proof.
  intros r out.
  assert (E : routing r (tensor Float32 close_call) state0
              = (inr (weights_of out, indices_of out), snd out))
    by exact noisy_sigmoid_returns.
  destruct (@routing_recorded_losses QScalar QUtils r
              (tensor Float32 close_call) state0 _ _ E)
    as (l0 & bal & _ & Hb & Ha).
  clearbody out. rewrite Ha, !length_app, Hb. reflexivity.
Defined.

(** That call consumes 16 draws: 8 for the jitter, 8 for the dropout. *)
Lemma routing_random_draws_witness :
  let r := router_of (config8 1 "sigmoid" "" "" (1 # 100)%Q (Some (1 # 1000)%Q)
                        (Some (1 # 10)%Q) (Some (1 # 2)%Q) 1) true in
  let out := routing r (tensor Float32 close_call) state0 in
  rng_pos (snd out) = 16 /\ hidden (snd out) = None.
Proof.
  intros r out.
  assert (E : routing r (tensor Float32 close_call) state0
              = (inr (weights_of out, indices_of out), snd out))
    by exact noisy_sigmoid_returns.
  destruct (@routing_random_draws QScalar QUtils r
              (tensor Float32 close_call) state0 _ _ E)
    as (_ & Hh & Hp & _).
  clearbody out.
  split; [rewrite Hp; reflexivity | rewrite Hh; reflexivity].
Defined.

(** ** What the result of [routing] does not depend on *)

Section ObliviousFacts.
Context {Sc : Scalar} {U : MoEUtils}.

Lemma same_rng_refl (s : RouterState) : same_rng s s.
Proof. unfold same_rng. auto. Qed.

Lemma oblivious_ret {A} (a : A) : oblivious (ret a).
Proof. intros s t H. simpl. auto. Qed.

Lemma oblivious_throw {A} (e : Error) : oblivious (@throw _ A e).
Proof. intros s t H. simpl. auto. Qed.

Lemma oblivious_lift {A} (r : result A) : oblivious (lift r).
Proof. intros s t H. simpl. auto. Qed.

Lemma oblivious_bind {A B} (m : M A) (k : A -> M B) :
  oblivious m -> (forall a, oblivious (k a)) -> oblivious (bind m k).
Proof.
  intros Hm Hk s t H. destruct (Hm s t H) as [E1 E2]. unfold bind.
  destruct (m s) as [[e | a] s1]; destruct (m t) as [[e' | a'] t1];
    simpl in E1, E2; try discriminate.
  - injection E1 as ->. simpl. auto.
  - injection E1 as <-. apply Hk. exact E2.
Qed.

Lemma oblivious_rand (sh : nat * nat) : oblivious (rand sh).
Proof.
  intros s t (H1 & H2 & H3). unfold rand, same_rng. destruct sh as [rows cols].
  simpl. rewrite H1, H2, H3. auto.
Qed.

Lemma oblivious_autoscaler (v : Tensor) (loss : F) :
  oblivious (MoEAuxLossAutoScaler_apply v loss).
Proof. intros s t H. unfold MoEAuxLossAutoScaler_apply. simpl. auto. Qed.

Lemma oblivious_rsample (low high : F) (sh : nat * nat) :
  oblivious (rsample low high sh).
Proof.
  unfold rsample. apply oblivious_bind; [apply oblivious_rand |].
  intros u. apply oblivious_ret.
Qed.

Lemma oblivious_bernoulli_mask (t : Tensor) (p : F) :
  oblivious (bernoulli_mask t p).
Proof.
  unfold bernoulli_mask. destruct (ltb p zero || ltb one p);
    [apply oblivious_throw |].
  apply oblivious_bind; [apply oblivious_rand |].
  intros u. apply oblivious_ret.
Qed.

Variable self : TopKRouter.

Lemma oblivious_apply_aux_loss (f : LossFunc) probs idx act :
  oblivious (apply_aux_loss self f probs idx act).
Proof.
  unfold apply_aux_loss. apply oblivious_bind; [apply oblivious_lift |].
  intros mask. apply oblivious_autoscaler.
Qed.

Lemma oblivious_apply_input_jitter (t : Tensor) :
  oblivious (apply_input_jitter self t).
Proof.
  unfold apply_input_jitter. destruct (moe_input_jitter_eps _) as [eps |];
    [| apply oblivious_ret].
  apply oblivious_bind.
  - intros s u (H1 & H2 & H3). rewrite H1.
    destruct (input_jitter u) eqn:Eu; cbn [fst snd];
      [| destruct (ltb _ _)]; simpl; unfold same_rng; simpl;
      repeat split; congruence.
  - intros b. apply oblivious_bind; [apply oblivious_rsample |].
    intros noise. apply oblivious_ret.
Qed.

Ltac oblivious_steps :=
  repeat first
    [ apply oblivious_ret | apply oblivious_throw | apply oblivious_lift
    | apply oblivious_autoscaler | apply oblivious_apply_aux_loss
    | apply oblivious_bernoulli_mask
    | apply oblivious_bind
    | match goal with
      | |- forall _ : _ * _, _ => intros [? ?]
      | |- forall _, _ => intro
      end ].

Lemma oblivious_strategy (l : Tensor) : oblivious (strategy self l).
Proof.
  unfold strategy.
  destruct (String.eqb (routing_type self) "sinkhorn").
  { unfold sinkhorn_load_balancing.
    destruct (negb (eqb _ zero)); [apply oblivious_throw |].
    destruct (training self); oblivious_steps. }
  destruct (String.eqb (routing_type self) "aux_loss").
  { destruct (String.eqb (moe_aux_loss_type (config (base self))) "switch").
    { unfold aux_loss_load_balancing. apply oblivious_bind.
      - destruct (String.eqb (moe_router_type (config (base self))) "mixtral");
          [oblivious_steps |].
        destruct (String.eqb (moe_router_type (config (base self))) "st");
          [oblivious_steps |].
        destruct (String.eqb (moe_router_type (config (base self))) "grouped");
          oblivious_steps.
      - intros [[probs sc] i]. oblivious_steps. }
    destruct (contains "btx" _); [| apply oblivious_throw].
    unfold btx_aux_loss_load_balancing. oblivious_steps. }
  destruct (String.eqb (routing_type self) "none"); [oblivious_steps |].
  destruct (String.eqb (routing_type self) "sigmoid"); [| apply oblivious_throw].
  unfold sigmoid_load_balancing. apply oblivious_bind.
  - destruct (moe_dropout _) as [p |]; [| apply oblivious_ret].
    destruct (negb (eqb p zero) && training self); oblivious_steps.
  - intros l'. oblivious_steps.
Qed.

(** The z-loss coefficient is read by [apply_z_loss] alone. *)
Lemma with_z_loss_rest (z : option F) (l : Tensor) :
  (l' <- apply_input_jitter (with_z_loss z self) l ;;
   strategy (with_z_loss z self) l')%M
  = (l' <- apply_input_jitter self l ;; strategy self l')%M.
Proof. reflexivity. Qed.

Lemma apply_z_loss_same (z : option F) (l : Tensor) s t :
  same_rng s t ->
  exists s1 t1,
    apply_z_loss self l s = (inr l, s1)
    /\ apply_z_loss (with_z_loss z self) l t = (inr l, t1)
    /\ same_rng s1 t1.
Proof.
  intros H. unfold apply_z_loss.
  destruct (moe_z_loss_coeff (config (base self)));
    destruct (moe_z_loss_coeff (config (base (with_z_loss z self))));
    eexists; eexists; (split; [reflexivity |]); (split; [reflexivity |]);
    exact H.
Qed.

(** X9.  The weights and expert ids that [routing] returns, the error it
    raises, and the random state it leaves depend on the logits, on the
    configuration other than the z-loss coefficient, and on the random
    state only: another z-loss coefficient, other recorded losses or
    another [self.hidden] give the same result. *)
Theorem routing_ignores_z_loss (z : option F) (logits : Tensor)
  (s t : RouterState) :
  same_rng s t ->
  fst (routing (with_z_loss z self) logits t) = fst (routing self logits s)
  /\ same_rng (snd (routing self logits s))
              (snd (routing (with_z_loss z self) logits t)).
Proof.
  intros H. rewrite !routing_unfold.
  change (num_moe_experts (config (base (with_z_loss z self))))
    with (num_moe_experts (config (base self))).
  assert (Hb : forall (k : Tensor -> M (Tensor * ITensor)) u,
             bind (lift (view logits (num_moe_experts (config (base self))))) k u
             = match view logits (num_moe_experts (config (base self))) with
               | inl e => (inl e, u)
               | inr l => k l u
               end).
  { intros k u. unfold bind, lift. destruct (view _ _); reflexivity. }
  rewrite !Hb.
  destruct (view logits (num_moe_experts (config (base self)))) as [e | l0];
    [simpl; auto |].
  destruct (apply_z_loss_same z l0 H) as (s1 & t1 & E1 & E2 & H1).
  rewrite (bind_continues (apply_z_loss self l0) _ s E1).
  rewrite (bind_continues (apply_z_loss (with_z_loss z self) l0) _ t E2).
  rewrite with_z_loss_rest.
  assert (Ho : oblivious (l' <- apply_input_jitter self l0 ;; strategy self l')%M).
  { apply oblivious_bind; [apply oblivious_apply_input_jitter |].
    intros l'. apply oblivious_strategy. }
  destruct (Ho s1 t1 H1) as [K1 K2]. split; [symmetry; exact K1 | exact K2].
Qed.

End ObliviousFacts.

(** A router with a z-loss, called after a loss was recorded and
    [self.hidden] set, selects as the router without z-loss does on a
    fresh state. *)
Lemma routing_ignores_z_loss_witness :
  let r := router_of st_config true in
  let x := tensor Float32 example_logits in
  let t := @mkState QScalar None (Some 2) stream7 0 [(1 # 2)%Q] in
  fst (routing (with_z_loss (Some (1 # 1000)%Q) r) x t)
  = fst (routing r x state0).
Proof.
  intros r x t.
  assert (H : same_rng state0 t) by (repeat split).
  exact (proj1 (@routing_ignores_z_loss QScalar QUtils r
                  (Some (1 # 1000)%Q) x state0 t H)).
Defined.

(** ** [forward] *)

Section ForwardFacts.
Context {Sc : Scalar} {U : MoEUtils}.
Variable self : TopKRouter.

Lemma DType_eqb_refl (d : DType) : DType_eqb d d = true.
Proof. destruct d; reflexivity. Qed.

Lemma forallb_rows (n : nat) (rows : list (list F)) :
  rows_of n rows -> forallb (fun r => length r =? n) rows = true.
Proof.
  intros H. apply forallb_forall. intros r Hin.
  unfold rows_of in H. rewrite Forall_forall in H.
  apply Nat.eqb_eq. apply H. exact Hin.
Qed.

(** The logits of [gating]: the dot products of every token with every
    row of the weight. *)
Lemma gating_projection (input : Tensor) :
  let W := weight_tensor (weight (base self)) in
  dtype input = dtype W ->
  rows_of (length (hd [] (data W))) (data input) ->
  gating self input
  = inr (mkTensor (dtype input) (requires_grad input || requires_grad W)
           (map (fun x => map (fun wr => dot x wr) (data W)) (data input))).
Proof.
  intros W Hd Hrows. unfold gating, linear. fold W.
  rewrite Hd, DType_eqb_refl. simpl negb. cbv iota.
  rewrite (forallb_rows Hrows). reflexivity.
Qed.

Lemma projection_rows (rows w : list (list F)) :
  rows_of (length w) (map (fun x => map (fun wr => dot x wr) w) rows).
Proof.
  apply Forall_map. apply Forall_forall. intros x _. apply length_map.
Qed.

(** X10.  On an input whose rows have the width of the gate weight and
    the weight's dtype, with one weight row per expert, [forward] is
    [routing] applied to the matrix of the dot products of every token
    with every weight row, after [self.hidden] was set to the width of
    the input; the reshaping between the two is the identity. *)
Theorem forward_routes_projection (input : Tensor) (s : RouterState) :
  let W := weight_tensor (weight (base self)) in
  dtype input = dtype W ->
  rows_of (length (hd [] (data W))) (data input) ->
  length (data W) = num_moe_experts (config (base self)) ->
  0 < num_moe_experts (config (base self)) ->
  forward self input s
  = routing self
      (mkTensor (dtype input) (requires_grad input || requires_grad W)
         (map (fun x => map (fun wr => dot x wr) (data W)) (data input)))
      (mkState (input_jitter s) (Some (length (hd [] (data input))))
         (rng_stream s) (rng_pos s) (aux_losses s)).
Proof.
  intros W Hd Hrows HN Hpos.
  assert (Hg := gating_projection input Hd Hrows). cbv zeta in Hg. fold W in Hg.
  set (logits := mkTensor (dtype input) (requires_grad input || requires_grad W)
                   (map (fun x => map (fun wr => dot x wr) (data W))
                        (data input))) in *.
  assert (Hv : view logits (num_moe_experts (config (base self))) = inr logits).
  { apply view_rows; [exact Hpos |]. rewrite <- HN. apply projection_rows. }
  unfold forward, bind, lift. cbv beta iota. rewrite Hg. cbv beta iota.
  rewrite Hv. reflexivity.
Qed.

End ForwardFacts.

(** Two tokens of width 2 through a gate of 8 experts whose weight is
    zero: the logits are zero and the router returns. *)
Lemma forward_routes_projection_witness :
  let r := router_of (top1_config None) true in
  forward r (tensor Float32 two_tokens) state0
  = routing r
      (mkTensor Float32 true
         (map (fun x => map (fun wr => dot x wr)
                            (data (weight_tensor (weight (base r)))))
              two_tokens))
      (mkState None (Some 2) stream7 0 []).
Proof.
  intros r.
  apply (@forward_routes_projection QScalar QUtils r
           (tensor Float32 two_tokens) state0).
  - reflexivity.
  - repeat constructor.
  - reflexivity.
  - apply Nat.lt_0_succ.
Defined.

(** ** The dtype of the returned weights *)

Section WeightDtype.
Context {Sc : Scalar} {U : MoEUtils}.
Variable self : TopKRouter.

Lemma activation_dtype (l : Tensor) :
  dtype (_sinkhorn_activation self l) = dtype l.
Proof. unfold _sinkhorn_activation. destruct (topk_ self =? 1); reflexivity. Qed.

Lemma topk_dtype (t : Tensor) (k : nat) v i :
  topk t k = inr (v, i) -> dtype v = dtype t.
Proof. intros H. apply topk_ok in H. tauto. Qed.

Lemma strategy_dtype (l : Tensor) s w idx s' :
  strategy self l s = (inr (w, idx), s') ->
  dtype w = if String.eqb (routing_type self) "aux_loss"
               && String.eqb (moe_aux_loss_type (config (base self))) "switch"
               && String.eqb (moe_router_type (config (base self))) "grouped"
            then Float32 else dtype l.
Proof.
  unfold strategy. intros H.
  destruct (String.eqb_spec (routing_type self) "sinkhorn") as [Hsk |].
  { rewrite Hsk. simpl. unfold sinkhorn_load_balancing in H.
    destruct (negb (eqb _ zero)); [discriminate |].
    destruct (training self).
    - apply bind_ok in H as ([v i] & s1 & _ & H).
      apply bind_ok in H as (sc & s2 & Hg & H).
      apply lift_ok in Hg as [Hg _]. apply ret_ok in H as [H _].
      injection H as -> ->. apply gather_ok in Hg as (Hd & _).
      rewrite Hd. apply activation_dtype.
    - apply lift_ok in H as [H _]. apply topk_dtype in H.
      rewrite H. apply activation_dtype. }
  destruct (String.eqb_spec (routing_type self) "aux_loss") as [Ha |].
  { destruct (String.eqb_spec (moe_aux_loss_type (config (base self))) "switch")
      as [Hs |].
    { simpl. apply aux_loss_dtype in H. exact H. }
    simpl. destruct (contains "btx" _); [| discriminate].
    unfold btx_aux_loss_load_balancing in H.
    apply bind_ok in H as ([v i] & s1 & _ & H).
    apply bind_ok in H as (sc & s2 & _ & H).
    apply bind_ok in H as (sc' & s3 & Hal & H). apply ret_ok in H as [H _].
    apply autoscaler_ok in Hal as [-> _]. injection H as -> _. reflexivity. }
  simpl.
  destruct (String.eqb_spec (routing_type self) "none").
  { apply bind_ok in H as ([v i] & s1 & _ & H).
    apply ret_ok in H as [H _]. injection H as -> _. reflexivity. }
  destruct (String.eqb_spec (routing_type self) "sigmoid"); [| discriminate].
  unfold sigmoid_load_balancing in H.
  apply bind_ok in H as (l' & s1 & Hl & H).
  assert (Hd : dtype l' = dtype l).
  { destruct (moe_dropout _) as [p |].
    - destruct (negb (eqb p zero) && training self).
      + apply bind_ok in Hl as (mask & s0 & _ & Hl).
        apply ret_ok in Hl as [-> _]. reflexivity.
      + apply ret_ok in Hl as [-> _]. reflexivity.
    - apply ret_ok in Hl as [-> _]. reflexivity. }
  apply bind_ok in H as ([v i] & s2 & Ht & H). apply lift_ok in Ht as [Ht _].
  apply bind_ok in H as (sc & s3 & Hal & H). apply ret_ok in H as [H _].
  apply apply_aux_loss_ok in Hal. subst sc. injection H as -> _.
  apply topk_dtype in Ht. rewrite Ht. exact Hd.
Qed.

(** X11.  The weights that [routing] returns are 32-bit floats in the
    grouped variant of the switch aux-loss routing; in every other
    configuration they have the dtype of the logits that reach the
    strategy, which is the dtype of the caller's logits without input
    jitter and their promotion with 32-bit float when a jitter is
    configured (16-bit logits give 32-bit weights). *)
Theorem routing_weights_dtype (logits : Tensor) s w idx s' :
  routing self logits s = (inr (w, idx), s') ->
  dtype w
  = if String.eqb (routing_type self) "aux_loss"
       && String.eqb (moe_aux_loss_type (config (base self))) "switch"
       && String.eqb (moe_router_type (config (base self))) "grouped"
    then Float32
    else match moe_input_jitter_eps (config (base self)) with
         | Some _ => promote_types (dtype logits) Float32
         | None => dtype logits
         end.
Proof.
  intros H. assert (H0 := H).
  apply routing_ok in H0 as (l0 & _ & _ & _ & Hv & _).
  destruct (@routing_prefix _ _ self logits l0 s Hv (@routing_ready _ _ _ _ _ _ _ H))
    as (l1 & s2 & E & _ & _ & Hd & _).
  rewrite E in H. apply strategy_dtype in H. rewrite H, Hd. reflexivity.
Qed.

End WeightDtype.

(** Top-1 routing of bfloat16 logits with an input jitter: the weight
    comes back as a 32-bit float. *)
Lemma routing_weights_dtype_witness :
  let out := routing (router_of (top1_config (Some (1 # 10)%Q)) true)
               (tensor BFloat16 close_call) state0 in
  dtype (weights_of out) = Float32.
Proof.
  intros out.
  assert (E : routing (router_of (top1_config (Some (1 # 10)%Q)) true)
                (tensor BFloat16 close_call) state0
              = (inr (weights_of out, indices_of out), snd out))
    by by_evaluation.
  exact (@routing_weights_dtype QScalar QUtils
           (router_of (top1_config (Some (1 # 10)%Q)) true)
           (tensor BFloat16 close_call) state0 _ _ _ E).
Defined.

(** ** Weights renormalised over the selected experts *)

Section TopSoftmax.
Context {Sc : Scalar} {U : MoEUtils} {OL : OrderLaws} {EL : ExactLaws}.
Variable self : TopKRouter.

(** [softmax(top_logits, dtype=float32).type_as(logits)] in exact
    arithmetic: every row sums to one. *)
Lemma top_softmax_sums (l top : Tensor) (k : nat) i :
  0 < k -> topk l k = inr (top, i) ->
  Forall (fun wr => sum_list wr = one)
         (data (type_as (softmax top Float32) l)).
Proof.
  intros Hk Htop. rewrite softmax_cast_exact.
  apply topk_ok in Htop as (_ & _ & sel & Hs & -> & _).
  apply (@softmax_rows_sum _ _ _ k); [exact Hk |].
  clear - Hs. induction Hs as [| r x rs sel Hx _ IH]; simpl; constructor; auto.
  apply selection_snd in Hx. tauto.
Qed.

(** X12.  In exact arithmetic, the mixtral variant of the switch aux-loss
    routing and the BTX aux-loss routing return, for every token, [topk]
    weights that sum to one: the softmax is taken over the selected
    logits, not over all experts. *)
Theorem routing_top_softmax_normalised (logits : Tensor) s w idx s' :
  routing_type self = "aux_loss" ->
  (moe_aux_loss_type (config (base self)) = "switch" ->
   moe_router_type (config (base self)) = "mixtral") ->
  0 < topk_ self ->
  routing self logits s = (inr (w, idx), s') ->
  Forall (fun wr => sum_list wr = one) (data w).
Proof.
  intros Ht Hm Hk H.
  apply routing_ok in H as (l0 & l1 & s1 & s2 & _ & _ & _ & _ & _ & H).
  unfold strategy in H. rewrite Ht in H. simpl in H.
  destruct (String.eqb_spec (moe_aux_loss_type (config (base self))) "switch")
    as [Hs |].
  - unfold aux_loss_load_balancing in H. rewrite (Hm Hs) in H. simpl in H.
    apply bind_ok in H as ([[probs sc] i] & s3 & Hsel & H).
    apply bind_ok in H as (sc' & s4 & Hl & H). apply ret_ok in H as [H _].
    apply apply_aux_loss_ok in Hl. subst sc'. injection H as -> _.
    apply bind_ok in Hsel as ([v i'] & s0 & Htop & Hsel).
    apply lift_ok in Htop as [Htop _]. apply ret_ok in Hsel as [Hsel _].
    injection Hsel as _ -> _.
    eapply top_softmax_sums; eauto.
  - destruct (contains "btx" _); [| discriminate].
    unfold btx_aux_loss_load_balancing in H.
    apply bind_ok in H as ([v i] & s3 & Htop & H).
    apply lift_ok in Htop as [Htop _].
    apply bind_ok in H as (sc & s4 & _ & H).
    apply bind_ok in H as (sc' & s5 & Hal & H). apply ret_ok in H as [H _].
    apply autoscaler_ok in Hal as [-> _]. injection H as -> _.
    eapply top_softmax_sums; eauto.
Qed.

End TopSoftmax.

(** The BTX routing of one token to its top 2 experts, over the
    rationals: the two weights sum to one. *)
Lemma routing_top_softmax_normalised_witness :
  let out := routing (router_of (btx_config "btx") true)
               (tensor Float32 close_call) state0 in
  Forall (fun wr => @sum_list QScalar wr = 1%Q) (data (weights_of out)).
Proof.
  intros out.
  assert (E : routing (router_of (btx_config "btx") true)
                (tensor Float32 close_call) state0
              = (inr (weights_of out, indices_of out), snd out))
    by by_evaluation.
  assert (Hm : moe_aux_loss_type (config (base (router_of (btx_config "btx") true)))
               = "switch" ->
               moe_router_type (config (base (router_of (btx_config "btx") true)))
               = "mixtral")
    by (intros Hs; discriminate Hs).
  exact (@routing_top_softmax_normalised QScalar QUtils QOrderLaws QExactLaws
           (router_of (btx_config "btx") true)
           (tensor Float32 close_call) state0 _ _ _ eq_refl Hm
           (Nat.lt_0_succ 1) E).
Defined.

(** ** The selected experts are the largest *)

Section LargestFacts.
Context {Sc : Scalar} {WO : WeakOrder}.

Lemma combine_seq_In_iff (l : list F) (s i : nat) (v : F) :
  In (i, v) (combine (seq s (length l)) l)
  <-> s <= i /\ nth_error l (i - s) = Some v.
Proof.
  revert s; induction l as [| a l IH]; intros s; simpl.
  - split; [tauto |]. intros [_ H]. destruct (i - s); discriminate.
  - rewrite IH. split.
    + intros [E | [Hle Hn]].
      * injection E as <- <-. rewrite Nat.sub_diag. split; [lia | reflexivity].
      * split; [lia |]. replace (i - s) with (S (i - S s)) by lia. exact Hn.
    + intros [Hle Hn]. destruct (Nat.eq_dec i s) as [-> | Hne].
      * rewrite Nat.sub_diag in Hn. injection Hn as <-. left; reflexivity.
      * right. split; [lia |].
        replace (i - s) with (S (i - S s)) in Hn by lia. exact Hn.
Qed.

Lemma enumerate_In (l : list F) (i : nat) (v : F) :
  In (i, v) (enumerate l) <-> nth_error l i = Some v.
Proof.
  unfold enumerate. rewrite combine_seq_In_iff, Nat.sub_0_r.
  split; [tauto | intros H; split; [lia | exact H]].
Qed.

Lemma descending_insert (p : nat * F) (l : list (nat * F)) :
  descending l -> descending (insert_desc p l).
Proof.
  induction l as [| q l IH]; simpl.
  - intros _. split; [constructor | exact I].
  - intros [Hq Hl]. destruct (ltb (snd p) (snd q)) eqn:E; simpl.
    + split; [| apply IH; exact Hl].
      eapply Permutation_Forall;
        [apply Permutation_sym, insert_desc_perm |].
      constructor; [apply ltb_asym; exact E | exact Hq].
    + split; [| split; assumption].
      constructor; [exact E |].
      eapply Forall_impl; [| exact Hq]. intros x Hx. simpl in Hx.
      eapply ltb_negtrans; eassumption.
Qed.

Lemma descending_sort (l : list (nat * F)) : descending (sort_desc l).
Proof.
  induction l as [| p l IH]; simpl; [exact I |].
  apply descending_insert. exact IH.
Qed.

Lemma descending_app (a b : list (nat * F)) :
  descending (a ++ b) ->
  forall p q, In p a -> In q b -> ltb (snd p) (snd q) = false.
Proof.
  induction a as [| x a IH]; simpl; [tauto |].
  intros [Hx Hd] p q [<- | Hp] Hq.
  - rewrite Forall_forall in Hx. apply Hx. apply in_or_app. right; exact Hq.
  - eapply IH; eauto.
Qed.

(** [torch.topk] on a row leaves no larger entry behind. *)
Lemma topk_row_dominant (k : nat) (l : list F) sel :
  topk_row k l = inr sel -> dominant l (map fst sel).
Proof.
  unfold topk_row. destruct (k <=? length l); [| discriminate].
  intros H; injection H as <-.
  set (srt := sort_desc (enumerate l)).
  assert (HP : Permutation srt (enumerate l)) by apply sort_desc_perm.
  assert (HD : descending (firstn k srt ++ skipn k srt))
    by (rewrite firstn_skipn; apply descending_sort).
  intros e e' x x' He Hne Hx Hx'.
  apply in_map_iff in He as ([e0 y] & He0 & Hin). simpl in He0. subst e0.
  assert (Hy : y = x).
  { apply In_firstn in Hin. apply (Permutation_in _ HP) in Hin.
    apply enumerate_In in Hin. congruence. }
  subst y.
  assert (Hin' : In (e', x') (skipn k srt)).
  { apply enumerate_In in Hx'.
    apply (Permutation_in _ (Permutation_sym HP)) in Hx'.
    rewrite <- (firstn_skipn k srt) in Hx'. apply in_app_or in Hx'.
    destruct Hx' as [Hf | Hs]; [| exact Hs].
    exfalso. apply Hne. apply in_map_iff. exists (e', x'). auto. }
  exact (descending_app _ _ HD _ _ Hin Hin').
Qed.

Lemma topk_dominant (t : Tensor) (k : nat) v i :
  topk t k = inr (v, i) -> Forall2 dominant (data t) i.
Proof.
  unfold topk, topk_rows. intros H.
  apply rbind_ok in H as ([v' i'] & Hr & H). injection H as _ <-.
  apply rbind_ok in Hr as (sel & Hsel & Hr). injection Hr as _ <-.
  apply rmap_ok_Forall2 in Hsel.
  induction Hsel as [| r p rows sel Hp _ IH]; simpl; constructor; auto.
  apply topk_row_dominant with (k := k). exact Hp.
Qed.

Context {U : MoEUtils}.
Variable self : TopKRouter.

(** X13.  Where the comparison is a strict weak order and no input
    jitter is configured, the strategies that select on the logits
    themselves (routing type none, the mixtral variant of the switch
    aux-loss routing, the BTX aux-loss routing) return for every token
    experts that no other expert beats: no expert left out has a larger
    logit than a selected one. *)
Theorem routing_selects_largest (logits : Tensor) s w idx s' :
  moe_input_jitter_eps (config (base self)) = None ->
  routing_type self = "none"
  \/ (routing_type self = "aux_loss"
      /\ (moe_aux_loss_type (config (base self)) = "switch" ->
          moe_router_type (config (base self)) = "mixtral")) ->
  rows_of (num_moe_experts (config (base self))) (data logits) ->
  routing self logits s = (inr (w, idx), s') ->
  Forall2 dominant (data logits) idx.
Proof.
  intros He Hty Hrows H.
  apply routing_ok in H as (l0 & l1 & s1 & s2 & Hv & _ & Hj & _ & _ & H).
  rewrite (apply_input_jitter_none _ _ _ He) in Hj. injection Hj as <- <-.
  assert (Hpos : 0 < num_moe_experts (config (base self))).
  { unfold view in Hv. apply rbind_ok in Hv as (rows & Hv & _).
    apply view2_ok in Hv. tauto. }
  rewrite (view_rows _ Hpos Hrows) in Hv. injection Hv as <-.
  unfold strategy in H. destruct Hty as [Hn | [Ha Hm]].
  - rewrite Hn in H. simpl in H.
    apply bind_ok in H as ([v i] & s3 & Htop & H).
    apply lift_ok in Htop as [Htop _]. apply ret_ok in H as [H _].
    injection H as _ ->. eapply topk_dominant; eauto.
  - rewrite Ha in H. simpl in H.
    destruct (String.eqb_spec (moe_aux_loss_type (config (base self))) "switch")
      as [Hs |].
    + unfold aux_loss_load_balancing in H. rewrite (Hm Hs) in H. simpl in H.
      apply bind_ok in H as ([[probs sc] i] & s3 & Hsel & H).
      apply bind_ok in H as (sc' & s4 & _ & H). apply ret_ok in H as [H _].
      injection H as _ ->.
      apply bind_ok in Hsel as ([v i'] & s0 & Htop & Hsel).
      apply lift_ok in Htop as [Htop _]. apply ret_ok in Hsel as [Hsel _].
      injection Hsel as _ _ ->. eapply topk_dominant; eauto.
    + destruct (contains "btx" _); [| discriminate].
      unfold btx_aux_loss_load_balancing in H.
      apply bind_ok in H as ([v i] & s3 & Htop & H).
      apply lift_ok in Htop as [Htop _].
      apply bind_ok in H as (sc & s4 & _ & H).
      apply bind_ok in H as (sc' & s5 & _ & H). apply ret_ok in H as [H _].
      injection H as _ ->. eapply topk_dominant; eauto.
Qed.

End LargestFacts.

(** The comparison of rationals is a strict weak order. *)
Lemma QWeakOrder : @WeakOrder QScalar.
Proof.
  split; simpl.
  - intros a b H. apply negb_true_iff in H. apply negb_false_iff.
    apply Qle_bool_iff. destruct (Qlt_le_dec b a) as [Hlt | Hle].
    + apply Qlt_le_weak in Hlt. apply Qle_bool_iff in Hlt. congruence.
    + exact Hle.
  - intros a b c H1 H2. apply negb_false_iff in H1, H2. apply negb_false_iff.
    apply Qle_bool_iff in H1, H2. apply Qle_bool_iff.
    eapply Qle_trans; eassumption.
Qed.

(** The mixtral routing of the docstring's four tokens to their top 2
    experts. *)
Lemma routing_selects_largest_witness :
  let mixtral_config :=
    config8 2 "aux_loss" "mixtral" "switch" (1 # 100)%Q None None None 1 in
  let x := tensor Float32 example_logits in
  let out := routing (router_of mixtral_config true) x state0 in
  Forall2 dominant (data x) (indices_of out).
Proof.
  intros mixtral_config x out.
  assert (E : routing (router_of mixtral_config true) x state0
              = (inr (weights_of out, indices_of out), snd out))
    by by_evaluation.
  assert (Hm : moe_aux_loss_type
                 (config (base (router_of mixtral_config true)))
               = "switch" ->
               moe_router_type
                 (config (base (router_of mixtral_config true)))
               = "mixtral")
    by (intros _; reflexivity).
  assert (Hrows : rows_of 8 (data x)) by (repeat constructor).
  exact (@routing_selects_largest QScalar QWeakOrder QUtils
           (router_of mixtral_config true) x state0 _ _ _
           eq_refl (or_intror (conj eq_refl Hm)) Hrows E).
Defined.

(** ** When [routing] returns *)

Section ReturnFacts.
Context {Sc : Scalar} {U : MoEUtils}.
Variable self : TopKRouter.

Lemma bind_returns {A B} (m : M A) (k : A -> M B) s a s1 :
  m s = (inr a, s1) ->
  (exists b s', k a s1 = (inr b, s')) ->
  exists b s', bind m k s = (inr b, s').
Proof. intros E H. rewrite (bind_continues m k s E). exact H. Qed.

Lemma one_hot_sum_total (n : nat) (idx : ITensor) :
  Forall (Forall (fun e => e < n)) idx -> exists m, one_hot_sum n idx = inr m.
Proof.
  intros H. unfold one_hot_sum. apply rmap_total.
  eapply Forall_impl; [| exact H]. intros row Hrow. unfold one_hot_sum_row.
  replace (forallb (fun i => i <? n) row) with true; [eexists; reflexivity |].
  symmetry. apply forallb_forall. intros e He.
  rewrite Forall_forall in Hrow. apply Nat.ltb_lt. auto.
Qed.

Lemma apply_aux_loss_returns (f : LossFunc) probs idx act s :
  Forall (Forall (fun e => e < num_experts (base self))) idx ->
  exists s', apply_aux_loss self f probs idx act s = (inr act, s').
Proof.
  intros H. apply one_hot_sum_total in H as [mask Hm].
  unfold apply_aux_loss, bind, lift. rewrite Hm.
  unfold MoEAuxLossAutoScaler_apply. eexists; reflexivity.
Qed.

(** [torch.topk] on rows of [n] entries with [k <= n]. *)
Lemma topk_returns (t : Tensor) (k n : nat) :
  rows_of n (data t) -> k <= n ->
  exists v i, topk t k = inr (v, i)
              /\ Forall (Forall (fun e => e < n)) i
              /\ rows_of k i /\ rows_of k (data v)
              /\ length i = length (data t)
              /\ length (data v) = length (data t).
Proof.
  intros Hrows Hk.
  destruct (@topk_total _ t k) as (v & i & H).
  { eapply Forall_impl; [| exact Hrows]. intros r Hr. simpl in Hr. lia. }
  exists v, i. split; [exact H |].
  assert (Hd := topk_distinct _ _ H Hrows).
  apply topk_shape in H as (H1 & H2 & H3 & H4).
  repeat split; try assumption.
  eapply Forall_impl; [| exact Hd]. intros r [_ Hr]. exact Hr.
Qed.

Lemma scatter_row_total (row : list F) (idx : list nat) (src : list F) :
  Forall (fun e => e < length row) idx -> length idx <= length src ->
  exists row', scatter_row row idx src = inr row'.
Proof.
  revert row src; induction idx as [| i idx IH]; intros row src Hb Hl; simpl.
  - eexists; reflexivity.
  - destruct src as [| x src]; [simpl in Hl; lia |].
    destruct (Nat.ltb_spec i (length row)) as [Hi | Hi];
      [| apply Forall_inv in Hb; lia].
    apply IH; [| simpl in Hl; lia].
    rewrite update_length. exact (Forall_inv_tail Hb).
Qed.

Lemma scatter_rows_total (n k : nat) (rows : list (list F)) (idx : ITensor)
  (src : list (list F)) :
  rows_of n rows -> rows_of k idx -> rows_of k src ->
  Forall (Forall (fun e => e < n)) idx ->
  length idx = length rows -> length src = length rows ->
  exists out, scatter_rows rows idx src = inr out.
Proof.
  revert rows src; induction idx as [| i idx IH];
    intros rows src Hr Hi Hs Hb Hl1 Hl2.
  - destruct rows; simpl; eexists; reflexivity.
  - destruct rows as [| r rows]; [discriminate |].
    destruct src as [| sr src]; [discriminate |]. simpl.
    destruct (@scatter_row_total r i sr) as [r' Hr'].
    + rewrite (Forall_inv Hr). exact (Forall_inv Hb).
    + rewrite (Forall_inv Hi), (Forall_inv Hs). lia.
    + rewrite Hr'. simpl.
      destruct (IH rows src) as [out Hout];
        try (eapply Forall_inv_tail; eassumption);
        try (simpl in Hl1, Hl2; lia).
      rewrite Hout. simpl. eexists; reflexivity.
Qed.

Lemma strategy_returns (l : Tensor) (s : RouterState) :
  rows_of (num_moe_experts (config (base self))) (data l) ->
  topk_ self <= num_moe_experts (config (base self)) ->
  num_experts (base self) = num_moe_experts (config (base self)) ->
  (routing_type self = "none" \/ routing_type self = "sigmoid"
   \/ (routing_type self = "aux_loss"
       /\ if String.eqb (moe_aux_loss_type (config (base self))) "switch"
          then moe_router_type (config (base self)) = "mixtral"
               \/ moe_router_type (config (base self)) = "st"
          else contains "btx" (moe_aux_loss_type (config (base self)))
               = true)) ->
  (forall p, moe_dropout (config (base self)) = Some p ->
             ltb p zero || ltb one p = false) ->
  exists r s', strategy self l s = (inr r, s').
Proof.
  intros Hrows Hk HN Hty Hdrop. unfold strategy.
  set (N := num_moe_experts (config (base self))) in *.
  destruct Hty as [Hn | [Hsg | [Ha Hcase]]].
  - (* none *)
    rewrite Hn. simpl.
    destruct (@topk_returns l (topk_ self) N Hrows Hk) as (v & i & Ht & _).
    eapply bind_returns; [unfold lift; rewrite Ht; reflexivity |].
    eexists; eexists; reflexivity.
  - (* sigmoid *)
    rewrite Hsg. simpl. unfold sigmoid_load_balancing.
    assert (Hl : exists l' s1,
               (match moe_dropout (config (base self)) with
                | Some p =>
                    if negb (eqb p zero) && training self
                    then (mask <- bernoulli_mask l p ;;
                          ret (attention_mask_func l mask))%M
                    else ret l
                | None => ret l
                end) s = (inr l', s1) /\ rows_of N (data l')).
    { destruct (moe_dropout (config (base self))) as [p |] eqn:Ep.
      - destruct (negb (eqb p zero) && training self).
        + assert (Hb := bernoulli_mask_ok l p s (Hdrop p eq_refl)).
          cbv zeta in Hb. unfold bind. rewrite Hb. unfold ret.
          eexists; eexists. split; [reflexivity |].
          apply attention_mask_rows. exact Hrows.
        + exists l, s. split; [reflexivity | exact Hrows].
      - exists l, s. split; [reflexivity | exact Hrows]. }
    destruct Hl as (l' & s1 & Hl & Hrows').
    eapply bind_returns; [exact Hl |].
    destruct (@topk_returns (sigmoid l') (topk_ self) N) as (v & i & Ht & Hb & _);
      [apply map_data_rows; exact Hrows' | exact Hk |].
    eapply bind_returns; [unfold lift; rewrite Ht; reflexivity |].
    cbv zeta beta iota.
    destruct (@apply_aux_loss_returns (moe_aux_loss_func self)
                (softmax l' Float32) i v s1) as [s2 Hal];
      [rewrite HN; exact Hb |].
    eapply bind_returns; [exact Hal |]. eexists; eexists; reflexivity.
  - (* aux_loss *)
    rewrite Ha. simpl.
    destruct (String.eqb (moe_aux_loss_type (config (base self))) "switch").
    + unfold aux_loss_load_balancing.
      destruct Hcase as [Hm | Hst].
      * rewrite Hm. simpl.
        destruct (@topk_returns l (topk_ self) N Hrows Hk) as (v & i & Ht & Hb & _).
        unfold bind at 2. unfold lift. rewrite Ht. unfold ret.
        unfold bind at 1. cbv beta iota zeta.
        destruct (@apply_aux_loss_returns (moe_aux_loss_func self)
                    (softmax l Float32) i
                    (type_as (softmax v Float32) l) s) as [s2 Hal];
          [rewrite HN; exact Hb |].
        eapply bind_returns; [exact Hal |]. eexists; eexists; reflexivity.
      * rewrite Hst. simpl.
        destruct (@topk_returns (type_as (softmax l Float32) l) (topk_ self) N)
          as (v & i & Ht & Hb & _);
          [apply to_dtype_rows, softmax_rows_of; exact Hrows | exact Hk |].
        unfold bind at 2. unfold lift. rewrite Ht. unfold ret.
        unfold bind at 1. cbv beta iota zeta.
        destruct (@apply_aux_loss_returns (moe_aux_loss_func self)
                    (type_as (softmax l Float32) l) i v s) as [s2 Hal];
          [rewrite HN; exact Hb |].
        eapply bind_returns; [exact Hal |]. eexists; eexists; reflexivity.
    + rewrite Hcase. unfold btx_aux_loss_load_balancing.
      destruct (@topk_returns l (topk_ self) N Hrows Hk) as (v & i & Ht & Hb & Hi & Hv & Hli & Hlv).
      eapply bind_returns; [unfold lift; rewrite Ht; reflexivity |].
      cbv zeta beta iota.
      assert (Hsc : exists t, btx_scattered self (softmax l Float32) i
                                (softmax v Float32) = inr t).
      { destruct (@scatter_rows_total N (topk_ self)
                    (data (zeros_like (softmax l Float32))) i
                    (data (softmax v Float32))) as [out Hout].
        - simpl. apply Forall_map. apply Forall_map.
          eapply Forall_impl; [| exact Hrows]. intros r Hr. simpl in Hr.
          rewrite length_map, softmax_row_length, length_map. exact Hr.
        - exact Hi.
        - apply softmax_rows_of. exact Hv.
        - exact Hb.
        - simpl. rewrite !length_map. exact Hli.
        - simpl. rewrite !length_map. exact Hlv.
        - unfold btx_scattered, scatter_.
          rewrite Hout. simpl.
          destruct (String.eqb _ "btx_nograd"); eexists; reflexivity. }
      destruct Hsc as [t Hsc].
      eapply bind_returns; [unfold lift; rewrite Hsc; reflexivity |].
      eapply bind_returns; [reflexivity |]. eexists; eexists; reflexivity.
Qed.

(** X14.  [routing] returns, without raising, on every matrix of logits
    with one row of [num_moe_experts] entries per token when [topk] is
    at most the number of experts, the router counts as many experts as
    its configuration, the jitter sampler (if a jitter is configured)
    exists or can be built, the dropout rate (if any) lies in [0, 1],
    and the strategy is none, sigmoid, the mixtral or st variant of the
    switch aux-loss routing, or the BTX aux-loss routing. *)
Theorem routing_returns (logits : Tensor) (s : RouterState) :
  0 < num_moe_experts (config (base self)) ->
  rows_of (num_moe_experts (config (base self))) (data logits) ->
  topk_ self <= num_moe_experts (config (base self)) ->
  num_experts (base self) = num_moe_experts (config (base self)) ->
  jitter_ready self s = true ->
  (routing_type self = "none" \/ routing_type self = "sigmoid"
   \/ (routing_type self = "aux_loss"
       /\ if String.eqb (moe_aux_loss_type (config (base self))) "switch"
          then moe_router_type (config (base self)) = "mixtral"
               \/ moe_router_type (config (base self)) = "st"
          else contains "btx" (moe_aux_loss_type (config (base self)))
               = true)) ->
  (forall p, moe_dropout (config (base self)) = Some p ->
             ltb p zero || ltb one p = false) ->
  exists w idx s', routing self logits s = (inr (w, idx), s').
Proof.
  intros Hpos Hrows Hk HN Hready Hty Hdrop.
  destruct (@routing_prefix _ _ self logits logits s
              (view_rows _ Hpos Hrows) Hready)
    as (l1 & s2 & E & Hrows1 & _).
  destruct (@strategy_returns l1 s2 Hrows1 Hk HN Hty Hdrop) as ([w idx] & s' & H).
  exists w, idx, s'. rewrite E. exact H.
Qed.

End ReturnFacts.

(** The st variant of the switch aux-loss routing, top 2 of 8 experts,
    with a jitter of epsilon 1/10 at its first use, on the four tokens
    of the docstring. *)
Lemma routing_returns_witness :
  let cfg := config8 2 "aux_loss" "st" "switch" (1 # 100)%Q None
               (Some (1 # 10)%Q) None 1 in
  jitter_ready (router_of cfg true) state0 = true
  /\ exists w idx s',
       routing (router_of cfg true) (tensor Float32 example_logits) state0
       = (inr (w, idx), s').
Proof.
  intros cfg. split; [reflexivity |].
  apply (@routing_returns QScalar QUtils (router_of cfg true)
           (tensor Float32 example_logits) state0).
  - apply Nat.lt_0_succ.
  - repeat constructor.
  - repeat constructor.
  - reflexivity.
  - reflexivity.
  - right. right. split; [reflexivity |]. right. reflexivity.
  - intros p Hp. discriminate Hp.
Defined.

(** ** The picks of [grouped_router] are the largest of their group *)

Section GroupTops.
Context {Sc : Scalar} {WO : WeakOrder}.

Lemma nth_error_concat_rows {A} (n : nat) (rows : list (list A)) (g i : nat)
  (grp : list A) :
  rows_of n rows -> nth_error rows g = Some grp -> i < n ->
  nth_error (concat rows) (g * n + i) = nth_error grp i.
Proof.
  intros H; revert g. induction H as [| r rows Hr _ IH]; intros g Hg Hi.
  - destruct g; discriminate.
  - destruct g as [| g]; simpl in Hg.
    + injection Hg as ->. simpl. apply nth_error_app1. lia.
    + simpl concat. rewrite nth_error_app2 by (rewrite Hr; simpl; lia).
      rewrite Hr. replace (S g * n + i - n) with (g * n + i) by (simpl; lia).
      apply IH; assumption.
Qed.

(** The ids of a row of [grouped_router]: the local ids of some group
    moved by the offset of that group. *)
Lemma in_shifted_groups (gne : nat) (gs : list (list nat)) (s e : nat) :
  In e (concat (map (fun '(ids, o) => map (fun i => i + o) ids)
                    (combine gs (map (fun i => i * gne) (seq s (length gs))))))
  <-> exists j ids i, nth_error gs j = Some ids /\ In i ids
                      /\ e = i + (s + j) * gne.
Proof.
  revert s; induction gs as [| ids gs IH]; intros s; simpl.
  - split; [tauto |]. intros (j & ids & i & H & _). destruct j; discriminate.
  - rewrite in_app_iff, IH, in_map_iff. split.
    + intros [(i & <- & Hi) | (j & ids' & i & Hj & Hi & ->)].
      * exists 0, ids, i. rewrite Nat.add_0_r. auto.
      * exists (S j), ids', i. simpl. repeat split; auto. lia.
    + intros ([| j] & ids' & i & Hj & Hi & ->); simpl in Hj.
      * injection Hj as <-. left. exists i. rewrite Nat.add_0_r. auto.
      * right. exists j, ids', i. repeat split; auto. lia.
Qed.

Lemma grouped_row_tops (groups gne gt : nat) (r : list F) :
  0 < gne -> gt <= gne -> length r = groups * gne ->
  forall g, g < groups ->
    dominant_within (g * gne) ((g + 1) * gne) r
      (grouped_indices_row (group_offsets groups gne) (group_picks gt gne r)).
Proof.
  intros Hgne Hle Hr g Hg e e' x x' He He' Hin Hnin Hx Hx'.
  destruct (@chunks_rows _ gne (length r) r groups) as (Hrows & Hcat & Hlen);
    [lia | exact Hr | rewrite Hr; nia |].
  set (cs := chunks (length r) gne r) in *.
  set (top := fun grp : list F => firstn gt (sort_desc (enumerate grp))).
  assert (Hpicks : group_picks gt gne r = map top cs) by reflexivity.
  unfold grouped_indices_row, group_offsets in Hin, Hnin.
  rewrite Hpicks in Hin, Hnin.
  assert (Hl : length (map (map fst) (map top cs)) = groups)
    by (rewrite !length_map; exact Hlen).
  rewrite <- Hl in Hin, Hnin.
  (* the chunk of the group *)
  destruct (nth_error cs g) as [grp |] eqn:Eg;
    [| apply nth_error_None in Eg; lia].
  assert (Hgrp : length grp = gne).
  { unfold rows_of in Hrows. rewrite Forall_forall in Hrows.
    apply Hrows. eapply nth_error_In. exact Eg. }
  assert (Hids : nth_error (map (map fst) (map top cs)) g
                 = Some (map fst (top grp))).
  { rewrite !nth_error_map, Eg. reflexivity. }
  assert (Hlocal : forall j ids i,
             nth_error (map (map fst) (map top cs)) j = Some ids ->
             In i ids -> i < gne).
  { intros j ids i Hj Hi. rewrite !nth_error_map in Hj.
    destruct (nth_error cs j) as [grp' |] eqn:Ej; [| discriminate].
    injection Hj as <-.
    assert (Hg' : length grp' = gne).
    { unfold rows_of in Hrows. rewrite Forall_forall in Hrows.
      apply Hrows. eapply nth_error_In. exact Ej. }
    assert (Hsel : topk_row gt grp' = inr (top grp')).
    { unfold topk_row. destruct (Nat.leb_spec gt (length grp'));
        [reflexivity | lia]. }
    apply topk_row_ok, selection_fst in Hsel as (_ & _ & Hb).
    rewrite Forall_forall in Hb. rewrite <- Hg'. apply Hb. exact Hi. }
  (* the selected expert is a pick of the group *)
  apply in_shifted_groups in Hin as (j & ids & i & Hj & Hi & Ee).
  assert (Hi' := Hlocal _ _ _ Hj Hi). simpl in Ee.
  assert (j = g) by nia. subst j.
  rewrite Hids in Hj. injection Hj as <-.
  (* the other expert is a member of the group that is no pick *)
  set (i' := e' - g * gne).
  assert (Hi'' : i' < gne) by (unfold i'; nia).
  assert (Hnot : ~ In i' (map fst (top grp))).
  { intros Hc. apply Hnin. apply in_shifted_groups.
    exists g, (map fst (top grp)), i'. repeat split; auto.
    unfold i'. simpl. lia. }
  assert (Ex : nth_error grp i = Some x).
  { rewrite <- (@nth_error_concat_rows _ gne cs g i grp Hrows Eg Hi'), Hcat.
    replace (g * gne + i) with e by lia. exact Hx. }
  assert (Ex' : nth_error grp i' = Some x').
  { rewrite <- (@nth_error_concat_rows _ gne cs g i' grp Hrows Eg Hi''), Hcat.
    replace (g * gne + i') with e' by (unfold i'; lia). exact Hx'. }
  assert (Hsel : topk_row gt grp = inr (top grp)).
  { unfold topk_row. destruct (Nat.leb_spec gt (length grp));
      [reflexivity | lia]. }
  exact (@topk_row_dominant _ _ gt grp (top grp) Hsel i i' x x' Hi Hnot Ex Ex').
Qed.

(** X15.  Where the comparison is a strict weak order, and under the
    divisibility conditions of the quota, the experts that
    [grouped_router] selects in a group are the largest of that group:
    within a group, no expert left out has a larger probability than a
    selected one.  Across groups this need not hold. *)
Theorem grouped_router_group_tops (logits : Tensor) (groups gne gt : nat) :
  0 < groups -> 0 < gt -> gt <= gne ->
  rows_of (groups * gne) (data logits) ->
  exists probs scores idx,
    grouped_router logits (groups * gne) (groups * gt) groups
    = ok (probs, scores, idx)
    /\ probs = softmax logits Float32
    /\ Forall2 (fun prow irow =>
                  forall g, g < groups ->
                    dominant_within (g * gne) ((g + 1) * gne) prow irow)
               (data probs) idx.
Proof.
  intros HG Hgt Hle Hrows.
  assert (Hgne : 0 < gne) by lia.
  assert (HP : rows_of (groups * gne) (data (softmax logits Float32)))
    by (apply softmax_rows_of; exact Hrows).
  eexists. eexists. eexists. split.
  { apply grouped_router_closed; assumption. }
  split; [reflexivity |].
  induction HP as [| r rows Hr _ IH]; simpl; constructor; [| exact IH].
  intros g Hg. apply grouped_row_tops; assumption.
Qed.

End GroupTops.

(** The docstring's matrix: 2 groups of 4 experts, 2 picks in each. *)
Lemma grouped_router_group_tops_witness :
  exists probs scores idx,
    grouped_router (tensor Float32 example_logits) (2 * 4) (2 * 2) 2
    = ok (probs, scores, idx)
    /\ Forall2 (fun prow irow =>
                  forall g, g < 2 ->
                    dominant_within (g * 4) ((g + 1) * 4) prow irow)
               (data probs) idx.
Proof.
  destruct (@grouped_router_group_tops QScalar QWeakOrder
              (tensor Float32 example_logits) 2 4 2)
    as (probs & scores & idx & H & _ & Hd);
    [lia | lia | lia | repeat constructor |].
  exists probs, scores, idx. split; assumption.
Defined.

(** ** Routers that differ in one setting *)

Section VariantFacts.
Context {Sc : Scalar} {U : MoEUtils}.
Variable self : TopKRouter.

(** X16.  The mixtral variant of the switch aux-loss routing and the BTX
    aux-loss routing change the recorded losses only: whenever one of
    them returns weights and expert ids, the same router with the
    routing type none returns the same weights and the same ids. *)
Theorem balancing_keeps_selection (logits : Tensor) s w idx s' :
  routing_type self = "aux_loss" ->
  (moe_aux_loss_type (config (base self)) = "switch" ->
   moe_router_type (config (base self)) = "mixtral") ->
  routing self logits s = (inr (w, idx), s') ->
  exists s'',
    routing (without_balancing self) logits s = (inr (w, idx), s'')
    /\ same_rng s' s''.
Proof.
  intros Ht Hm H. rewrite routing_unfold in H |- *.
  change (num_moe_experts (config (base (without_balancing self))))
    with (num_moe_experts (config (base self))).
  apply bind_ok in H as (l0 & s0 & Hv & H).
  apply bind_ok in H as (lz & s1 & Hz & H).
  apply bind_ok in H as (l1 & s2 & Hj & H).
  rewrite (bind_continues _ _ _ Hv).
  change (apply_z_loss (without_balancing self)) with (apply_z_loss self).
  rewrite (bind_continues _ _ _ Hz).
  change (apply_input_jitter (without_balancing self))
    with (apply_input_jitter self).
  rewrite (bind_continues _ _ _ Hj).
  assert (Htop : exists v, topk l1 (topk_ self) = inr (v, idx)
                           /\ w = type_as (softmax v Float32) l1
                           /\ same_rng s' s2).
  { unfold strategy in H. rewrite Ht in H. simpl in H.
    destruct (String.eqb_spec (moe_aux_loss_type (config (base self))) "switch")
      as [Hs |].
    - unfold aux_loss_load_balancing in H. rewrite (Hm Hs) in H. simpl in H.
      apply bind_ok in H as ([[probs sc] i] & s3 & Hsel & H).
      apply bind_ok in H as (sc' & s4 & Hal & H). apply ret_ok in H as [H ->].
      assert (Hsame : same_rng s4 s3).
      { apply apply_aux_loss_evolves in Hal as (Hjit & loss & _ & Hst & Hp & _).
        unfold same_rng. repeat split; try assumption. lia. }
      apply apply_aux_loss_ok in Hal. subst sc'. injection H as -> ->.
      apply bind_ok in Hsel as ([v i'] & s5 & Htop & Hsel).
      apply lift_ok in Htop as [Htop ->]. apply ret_ok in Hsel as [Hsel ->].
      injection Hsel as _ -> ->. exists v. auto.
    - destruct (contains "btx" _); [| discriminate].
      unfold btx_aux_loss_load_balancing in H.
      apply bind_ok in H as ([v i] & s3 & Htop & H).
      apply lift_ok in Htop as [Htop ->].
      apply bind_ok in H as (sc & s4 & Hsc & H). apply lift_ok in Hsc as [_ ->].
      apply bind_ok in H as (sc' & s5 & Hal & H). apply ret_ok in H as [H ->].
      apply autoscaler_evolves in Hal as (-> & Hjit & _ & Hst & Hp & _).
      injection H as -> ->. exists v. repeat split; try assumption. lia. }
  destruct Htop as (v & Htop & -> & Hsame).
  exists s2. split; [| exact Hsame].
  unfold strategy. simpl.
  rewrite (@bind_continues _ _ _ (lift (topk l1 (topk_ self))) _ s2 (v, idx) s2)
    by (unfold lift; rewrite Htop; reflexivity).
  reflexivity.
Qed.

(** X17.  The training flag of the module is read by the sinkhorn
    strategy and by the dropout of the sigmoid strategy only: under the
    none and aux_loss routing types, and under sigmoid without dropout,
    [routing] does in evaluation mode exactly what it does in training
    mode, input jitter included. *)
Theorem routing_ignores_mode (mode : bool) (logits : Tensor) (s : RouterState) :
  routing_type self <> "sinkhorn" ->
  (routing_type self = "sigmoid" -> moe_dropout (config (base self)) = None) ->
  routing (set_training mode self) logits s = routing self logits s.
Proof.
  intros Hsk Hdrop. rewrite !routing_unfold.
  assert (Hs : forall l, strategy (set_training mode self) l = strategy self l).
  { intros l. unfold strategy.
    change (routing_type (set_training mode self)) with (routing_type self).
    apply String.eqb_neq in Hsk. rewrite Hsk.
    destruct (String.eqb (routing_type self) "aux_loss"); [reflexivity |].
    destruct (String.eqb (routing_type self) "none"); [reflexivity |].
    destruct (String.eqb_spec (routing_type self) "sigmoid") as [Hsg |];
      [| reflexivity].
    unfold sigmoid_load_balancing.
    change (moe_dropout (config (base (set_training mode self))))
      with (moe_dropout (config (base self))).
    rewrite (Hdrop Hsg). reflexivity. }
  change (num_moe_experts (config (base (set_training mode self))))
    with (num_moe_experts (config (base self))).
  change (apply_z_loss (set_training mode self)) with (apply_z_loss self).
  change (apply_input_jitter (set_training mode self))
    with (apply_input_jitter self).
  unfold bind.
  destruct (lift (view logits (num_moe_experts (config (base self)))) s)
    as [[e | l0] s0]; [reflexivity |].
  destruct (apply_z_loss self l0 s0) as [[e | l1] s1]; [reflexivity |].
  destruct (apply_input_jitter self l1 s1) as [[e | l2] s2]; [reflexivity |].
  apply (f_equal (fun f => f s2)). apply Hs.
Qed.

End VariantFacts.

(** The mixtral routing of the docstring's tokens returns what the
    routing without balancing returns. *)
Lemma balancing_keeps_selection_witness :
  let r := router_of (config8 2 "aux_loss" "mixtral" "switch" (1 # 100)%Q
                        None None None 1) true in
  let x := tensor Float32 close_call in
  let out := routing r x state0 in
  exists s'',
    routing (without_balancing r) x state0
    = (inr (weights_of out, indices_of out), s'').
Proof.
  intros r x out.
  assert (E : routing r x state0
              = (inr (weights_of out, indices_of out), snd out))
    by by_evaluation.
  assert (Hm : moe_aux_loss_type (config (base r)) = "switch" ->
               moe_router_type (config (base r)) = "mixtral")
    by (intros _; reflexivity).
  destruct (@balancing_keeps_selection QScalar QUtils r x state0 _ _ _
              eq_refl Hm E) as (s'' & H & _).
  exists s''. exact H.
Defined.

(** Top-1 routing with an input jitter: the evaluation mode routes as
    the training mode does. *)
Lemma routing_ignores_mode_witness :
  let r := router_of (top1_config (Some (1 # 10)%Q)) true in
  routing (set_training false r) (tensor Float32 close_call) state0
  = routing r (tensor Float32 close_call) state0.
Proof.
  intros r.
  apply (@routing_ignores_mode QScalar QUtils r false).
  - discriminate.
  - intros Hs. discriminate Hs.
Defined.

(** ** From the constructor to the first call *)

Section EndToEnd.
Context {Sc : Scalar} {U : MoEUtils}.

(** X18.  A router built by [TopKRouter.__init__] from a configuration
    without token dropping, whose [init_method] keeps the shape of the
    weight, with at least one expert, [topk] at most the number of
    experts, a dropout rate (if any) in [0, 1], a jitter epsilon (if
    any) with [1 - eps] below [1 + eps] as 32-bit floats, and one of the
    strategies none, sigmoid, switch aux-loss (mixtral or st) or BTX
    aux-loss, routes every 32-bit float batch of tokens of width
    [hidden_size]:
    [forward] returns one row of [topk] weights and one row of [topk]
    distinct expert ids below the number of experts per token. *)
Theorem constructed_router_routes (cfg : TransformerConfig)
  (stream : nat -> F) (input : Tensor) :
  let N := num_moe_experts cfg in
  let H := hidden_size cfg in
  moe_token_dropping cfg = false ->
  0 < N -> moe_router_topk cfg <= N ->
  length (init_method cfg (empty N H)) = N ->
  rows_of H (init_method cfg (empty N H)) ->
  dtype input = Float32 -> rows_of H (data input) ->
  (moe_router_load_balancing_type cfg = "none"
   \/ moe_router_load_balancing_type cfg = "sigmoid"
   \/ (moe_router_load_balancing_type cfg = "aux_loss"
       /\ if String.eqb (moe_aux_loss_type cfg) "switch"
          then moe_router_type cfg = "mixtral" \/ moe_router_type cfg = "st"
          else contains "btx" (moe_aux_loss_type cfg) = true)) ->
  (forall p, moe_dropout cfg = Some p -> ltb p zero || ltb one p = false) ->
  (forall eps, moe_input_jitter_eps cfg = Some eps ->
               ltb (cast Float32 (sub one eps)) (cast Float32 (add one eps))
               = true) ->
  exists r s0 w idx s',
    TopKRouter_init cfg stream = InitOk r s0
    /\ forward r input s0 = (inr (w, idx), s')
    /\ length idx = length (data input)
    /\ rows_of (moe_router_topk cfg) idx
    /\ rows_of (moe_router_topk cfg) (data w)
    /\ Forall (distinct_below N) idx.
Proof.
  intros N H Hdrop HN Hk Hlen Hw Hd Hrows Hty Hp Hj.
  set (r := mkTopKRouter (Router_init cfg) (moe_router_topk cfg)
              (moe_router_load_balancing_type cfg)
              switch_load_balancing_loss_func true).
  exists r, (initial_state stream).
  assert (Hinit : TopKRouter_init cfg stream = InitOk r (initial_state stream)).
  { unfold TopKRouter_init. rewrite Hdrop. reflexivity. }
  assert (HW : weight_tensor (weight (base r))
               = mkTensor Float32 true (init_method cfg (empty N H))).
  { unfold r. cbn [base]. unfold Router_init. cbn [weight].
    destruct (moe_groupedmoe cfg); reflexivity. }
  assert (Hcfg : config (base r) = cfg) by reflexivity.
  assert (Hcols : length (hd [] (init_method cfg (empty N H))) = H).
  { destruct (init_method cfg (empty N H)) as [| w0 ws]; [simpl in Hlen; lia |].
    exact (Forall_inv Hw). }
  (* the logits *)
  assert (Hg := gating_projection r input). cbv zeta in Hg.
  rewrite HW in Hg. cbn [dtype data requires_grad] in Hg.
  rewrite Hcols in Hg. specialize (Hg Hd Hrows).
  set (logits := mkTensor (dtype input) (requires_grad input || true)
                   (map (fun x => map (fun wr => dot x wr)
                                      (init_method cfg (empty N H)))
                        (data input))) in *.
  assert (Hlrows : rows_of N (data logits)).
  { assert (Hpr := projection_rows (data input) (init_method cfg (empty N H))).
    rewrite Hlen in Hpr. exact Hpr. }
  assert (Hv : view logits (num_moe_experts (config (base r))) = inr logits)
    by (apply view_rows; assumption).
  (* the call *)
  set (s1 := mkState (input_jitter (initial_state stream))
               (Some (length (hd [] (data input))))
               (rng_stream (initial_state stream))
               (rng_pos (initial_state stream))
               (aux_losses (initial_state stream))).
  assert (Hf : forward r input (initial_state stream) = routing r logits s1).
  { unfold forward, bind, lift. cbv beta iota. rewrite Hg. cbv beta iota.
    rewrite Hv. reflexivity. }
  assert (Hready : jitter_ready r s1 = true).
  { unfold jitter_ready. rewrite Hcfg.
    destruct (moe_input_jitter_eps cfg) as [eps |]; [| reflexivity].
    exact (Hj eps eq_refl). }
  destruct (@routing_prefix _ _ r logits logits s1 Hv Hready)
    as (l1 & s2 & E & Hrows1 & Hlen1 & _).
  destruct (@strategy_returns _ _ r l1 s2 Hrows1 Hk eq_refl Hty Hp)
    as ([w idx] & s' & Hs).
  exists w, idx, s'. split; [exact Hinit |].
  split; [rewrite Hf, E; exact Hs |].
  assert (Hnog : routing_type r = "aux_loss" ->
                 moe_aux_loss_type (config (base r)) = "switch" ->
                 moe_router_type (config (base r)) = "grouped" ->
                 topk_ r mod moe_group_size (config (base r)) = 0).
  { intros Ha Hsw Hgr. exfalso.
    change (moe_router_load_balancing_type cfg = "aux_loss") in Ha.
    change (moe_aux_loss_type cfg = "switch") in Hsw.
    change (moe_router_type cfg = "grouped") in Hgr.
    destruct Hty as [Hn | [Hsg | [_ Hcase]]]; try congruence.
    rewrite Hsw in Hcase. simpl in Hcase. destruct Hcase; congruence. }
  assert (Hshape := @strategy_shape _ _ r l1 s2 w idx s' Hnog Hs Hrows1).
  destruct Hshape as (H1 & H2 & _ & _ & H5).
  assert (Hdist := @strategy_distinct _ _ r l1 s2 w idx s' Hnog Hs Hrows1).
  repeat split; try assumption.
  rewrite H5.
  - rewrite Hlen1. unfold logits. cbn [data]. apply length_map.
  - intros Hsk. exfalso. change (moe_router_load_balancing_type cfg = "sinkhorn") in Hsk.
    destruct Hty as [Hn | [Hsg | [Ha _]]]; congruence.
Qed.

End EndToEnd.

(** The st configuration of 8 experts and hidden size 2, whose weight
    is left at zero, with a jitter of epsilon 1/10, on two tokens. *)
Lemma constructed_router_routes_witness :
  let cfg := config8 2 "aux_loss" "st" "switch" (1 # 100)%Q None
               (Some (1 # 10)%Q) None 1 in
  exists r s0 w idx s',
    TopKRouter_init cfg stream7 = InitOk r s0
    /\ forward r (tensor Float32 two_tokens) s0 = (inr (w, idx), s')
    /\ length idx = 2
    /\ rows_of 2 idx
    /\ Forall (distinct_below 8) idx.
Proof.
  intros cfg.
  destruct (@constructed_router_routes QScalar QUtils cfg stream7
              (tensor Float32 two_tokens))
    as (r & s0 & w & idx & s' & H1 & H2 & H3 & H4 & _ & H6).
  - reflexivity.
  - apply Nat.lt_0_succ.
  - repeat constructor.
  - reflexivity.
  - repeat constructor.
  - reflexivity.
  - repeat constructor.
  - right. right. split; [reflexivity |]. right. reflexivity.
  - intros p Hp. discriminate Hp.
  - intros eps He. injection He as <-. reflexivity.
  - exists r, s0, w, idx, s'. repeat split; assumption.
Defined.

(** * Paths of the data batches *)

Section GetPathsFacts.
Import GetPaths.

Lemma skipn_cons_firstn {A} (k : nat) (l : list A) (x : A) (rest : list A) :
  skipn k l = x :: rest ->
  firstn (S k) l = firstn k l ++ [x] /\ skipn (S k) l = rest /\ k < length l.
Proof.
  revert l; induction k as [| k IH]; intros l H.
  - simpl in H. subst l. simpl. repeat split. lia.
  - destruct l as [| a l]; [discriminate |]. simpl in H.
    apply IH in H as (H1 & H2 & H3).
    change (firstn (S (S k)) (a :: l)) with (a :: firstn (S k) l).
    rewrite H1. simpl. repeat split; [exact H2 | lia].
Qed.

Lemma vectors_step (dir : DataDir) (k : nat) (p : string) (n : nat) rest :
  skipn k dir = (p, n) :: rest -> vectors dir (S k) = vectors dir k + n.
Proof.
  intros H. apply skipn_cons_firstn in H as (H & _). unfold vectors.
  rewrite H, map_app, list_sum_app. simpl. lia.
Qed.

Lemma vectors_mono (dir : DataDir) (a b : nat) :
  a <= b -> vectors dir a <= vectors dir b.
Proof.
  intros H. replace b with (a + (b - a)) by lia. unfold vectors.
  generalize (b - a) as d. clear. revert dir.
  induction a as [| a IH]; intros dir d; simpl; [lia |].
  destruct dir as [| x dir]; simpl; [lia |].
  specialize (IH dir d). lia.
Qed.

Lemma reached_mono (dir : DataDir) (goal : Z) (k k' : nat) v :
  k <= k' -> reached dir goal k (Some v) -> reached dir goal k' (Some v).
Proof.
  intros Hk. destruct v as [n ps]. simpl. intros (i & Hi & H).
  exists i. split; [lia | exact H].
Qed.

(** One pass of the body keeps what is known of a goal. *)
Lemma body_reached (dir : DataDir) (goal : Z) (k : nat) (p : string) (n : nat)
  rest (total : nat) (found : option (nat * list string)) :
  skipn k dir = (p, n) :: rest -> total = vectors dir k ->
  reached dir goal k found ->
  reached dir goal (S k)
    (if (goal <=? Z.of_nat (total + n))%Z && is_none found
     then Some (total + n, firstn (k + 1) (get_all_data_paths dir))
     else found).
Proof.
  intros Hs -> H.
  assert (Hk : k < length dir) by (apply skipn_cons_firstn in Hs; tauto).
  rewrite <- (vectors_step _ _ Hs).
  destruct found as [v |]; simpl is_none.
  - rewrite andb_false_r. eapply reached_mono; [| exact H]. lia.
  - rewrite andb_true_r. destruct (Z.leb_spec goal (Z.of_nat (vectors dir (S k)))).
    + simpl. exists k. split; [lia |]. split; [| split; [reflexivity |]].
      * split; [exact Hk |]. split; [assumption |]. exact H.
      * rewrite Nat.add_1_r. reflexivity.
    + simpl. intros j Hj. destruct (Nat.eq_dec j k) as [-> |]; [assumption |].
      apply H. lia.
Qed.

Lemma loop_reached (dir : DataDir) (args : Args) (m k : nat) (st : Locals) :
  k + m = length dir -> ntotal st = vectors dir k ->
  reached dir (ntrain args) k (train st) ->
  reached dir (nadd args) k (add st) ->
  let st' := loop args (get_all_data_paths dir)
               (combine (seq k m) (skipn k dir)) st in
  reached dir (ntrain args) (length dir) (train st')
  /\ reached dir (nadd args) (length dir) (add st').
Proof.
  revert k st; induction m as [| m IH]; intros k st Hkm Ht Htr Had; cbv zeta.
  - cbn [seq combine loop]. rewrite Nat.add_0_r in Hkm. subst k.
    split; assumption.
  - destruct (skipn k dir) as [| [p n] rest] eqn:Hs.
    { assert (Hl := length_skipn k dir). rewrite Hs in Hl. simpl in Hl. lia. }
    cbn [seq combine loop].
    set (st1 := body args (get_all_data_paths dir) st k n).
    assert (H1 : reached dir (ntrain args) (S k) (train st1)).
    { unfold st1, body. cbn [train].
      apply body_reached with (p := p) (rest := rest); assumption. }
    assert (H2 : reached dir (nadd args) (S k) (add st1)).
    { unfold st1, body. cbn [add].
      apply body_reached with (p := p) (rest := rest); assumption. }
    destruct (negb (is_none (train st1)) && negb (is_none (add st1))) eqn:Hb.
    + destruct (train st1) as [v |]; [| discriminate].
      destruct (add st1) as [v' |]; [| simpl in Hb; discriminate].
      split; eapply reached_mono; try eassumption; lia.
    + assert (Hrest : rest = skipn (S k) dir)
        by (apply skipn_cons_firstn in Hs; symmetry; tauto).
      rewrite Hrest. apply IH; try assumption; [lia |].
      unfold st1, body. cbn [ntotal]. rewrite Ht.
      symmetry. eapply vectors_step. exact Hs.
Qed.

Lemma final_reached (dir : DataDir) (args : Args) :
  let st := loop args (get_all_data_paths dir)
              (combine (seq 0 (length (get_all_data_paths dir))) dir)
              (mkLocals 0 None None) in
  reached dir (ntrain args) (length dir) (train st)
  /\ reached dir (nadd args) (length dir) (add st).
Proof.
  unfold get_all_data_paths at 2. rewrite length_map.
  apply (@loop_reached dir args (length dir) 0 (mkLocals 0 None None));
    simpl; try reflexivity; intros j Hj; lia.
Qed.

(** X19.  When [get_train_add_data_paths] returns, the training paths
    are the shortest non-empty prefix of the sorted paths whose files
    hold at least [args.ntrain] vectors together, [ntrain] is the number
    of vectors of that prefix, and the same holds of the paths to add
    and [args.nadd]. *)
Theorem get_train_add_data_paths_prefixes (dir : DataDir) (args : Args)
  (ntrain' nadd' : nat) (train_paths add_paths : list string) :
  get_train_add_data_paths dir args
  = inr (ntrain', nadd', train_paths, add_paths) ->
  exists i j,
    first_reaching dir (ntrain args) i /\ first_reaching dir (nadd args) j
    /\ ntrain' = vectors dir (S i) /\ nadd' = vectors dir (S j)
    /\ train_paths = firstn (S i) (get_all_data_paths dir)
    /\ add_paths = firstn (S j) (get_all_data_paths dir).
Proof.
  unfold get_train_add_data_paths. intros H.
  destruct (final_reached dir args) as [Ht Ha]. cbv zeta in Ht, Ha.
  destruct (train _) as [[v ps] |]; [| discriminate].
  destruct (add _) as [[v' ps'] |]; [| discriminate].
  injection H as -> -> -> ->.
  destruct Ht as (i & _ & Hi & -> & ->). destruct Ha as (j & _ & Hj & -> & ->).
  exists i, j. repeat split; try apply Hi; try apply Hj.
Qed.

(** X20.  [get_train_add_data_paths] raises the exception "insufficient
    data paths?" exactly when there is no data file at all, even for
    goals of zero, or the files together hold fewer vectors than
    [args.ntrain] or than [args.nadd]; in every other case it returns. *)
Theorem get_train_add_data_paths_raises_iff (dir : DataDir) (args : Args) :
  get_train_add_data_paths dir args
  = inl (mkException "insufficient data paths?")
  <-> dir = []
      \/ (Z.of_nat (vectors dir (length dir))
          < Z.max (ntrain args) (nadd args))%Z.
Proof.
  unfold get_train_add_data_paths.
  destruct (final_reached dir args) as [Ht Ha]. cbv zeta in Ht, Ha.
  assert (Hlast : forall goal,
             (forall j, j < length dir ->
                        (Z.of_nat (vectors dir (S j)) < goal)%Z) ->
             dir = [] \/ (Z.of_nat (vectors dir (length dir)) < goal)%Z).
  { intros goal H. destruct dir as [| x dir]; [left; reflexivity | right].
    apply (H (length dir)). simpl. lia. }
  assert (Hfirst : forall goal i,
             first_reaching dir goal i ->
             dir <> [] /\ (goal <= Z.of_nat (vectors dir (length dir)))%Z).
  { intros goal i (Hi & Hg & _). split.
    - intros ->. simpl in Hi. lia.
    - assert (Hm := @vectors_mono dir (S i) (length dir) ltac:(lia)). lia. }
  destruct (train _) as [[v ps] |].
  - destruct (add _) as [[v' ps'] |].
    + destruct Ht as (i & _ & Hi & _). destruct Ha as (j & _ & Hj & _).
      apply Hfirst in Hi, Hj. split; [discriminate |].
      intros [-> | Hlt]; [tauto | lia].
    + split; [intros _ | reflexivity].
      destruct (Hlast _ Ha); [left; assumption | right; lia].
  - split; [intros _ | reflexivity].
    destruct (Hlast _ Ht); [left; assumption | right; lia].
Qed.

End GetPathsFacts.

(** Three files of 3, 4 and 5 vectors, 5 vectors to train on and 3 to
    add: the first two files and the first file. *)
Lemma get_train_add_data_paths_prefixes_witness :
  let dir := [("a.hdf5", 3); ("b.hdf5", 4); ("c.hdf5", 5)] in
  let args := GetPaths.mkArgs 5 3 in
  exists i j,
    GetPaths.first_reaching dir 5 i /\ GetPaths.first_reaching dir 3 j
    /\ ["a.hdf5"; "b.hdf5"] = firstn (S i) (GetPaths.get_all_data_paths dir)
    /\ ["a.hdf5"] = firstn (S j) (GetPaths.get_all_data_paths dir).
Proof.
  intros dir args.
  destruct (@get_train_add_data_paths_prefixes dir args 7 3
              ["a.hdf5"; "b.hdf5"] ["a.hdf5"] eq_refl)
    as (i & j & Hi & Hj & _ & _ & Ht & Ha).
  exists i, j. auto.
Defined.

(** * The parameter groups of the optimizer *)

Section ParamGroupFacts.
Import Optimizer.
Variables no_weight_decay_cond scale_lr_cond : option Cond.

(** The parameters of a class among a list of named parameters. *)
Let sel (l : NamedParameters) (nowd scale : bool) : list Param :=
  of_class no_weight_decay_cond scale_lr_cond [l] nowd scale.

Lemma of_class_app (ms1 ms2 : list NamedParameters) (nowd scale : bool) :
  of_class no_weight_decay_cond scale_lr_cond (ms1 ++ ms2) nowd scale
  = of_class no_weight_decay_cond scale_lr_cond ms1 nowd scale
    ++ of_class no_weight_decay_cond scale_lr_cond ms2 nowd scale.
Proof.
  unfold of_class. rewrite concat_app, filter_app, map_app. reflexivity.
Qed.

Lemma of_class_cons (np : string * Param) (l : NamedParameters)
  (nowd scale : bool) :
  sel (np :: l) nowd scale
  = (if requires_grad (snd np)
        && Bool.eqb (no_wd no_weight_decay_cond (fst np) (snd np)) nowd
        && Bool.eqb (scale_lr scale_lr_cond (fst np) (snd np)) scale
     then [snd np] else [])
    ++ sel l nowd scale.
Proof.
  unfold sel, of_class. simpl. rewrite !app_nil_r. destruct np as [name p].
  simpl. destruct (requires_grad p && _ && _); reflexivity.
Qed.

Lemma fold_visit (l : NamedParameters) (acc : Lists) :
  fold_left (visit no_weight_decay_cond scale_lr_cond) l acc
  = mkLists (wd_no_scale_lr acc ++ sel l false false)
            (wd_scale_lr acc ++ sel l false true)
            (no_wd_no_scale_lr acc ++ sel l true false)
            (no_wd_scale_lr acc ++ sel l true true).
Proof.
  revert acc; induction l as [| [name p] l IH]; intros acc.
  - unfold sel, of_class. simpl. rewrite !app_nil_r. destruct acc; reflexivity.
  - cbn [fold_left]. rewrite IH. rewrite !of_class_cons. cbn [fst snd].
    unfold visit.
    destruct (requires_grad p); cbn [negb andb]; [| reflexivity].
    destruct (no_wd no_weight_decay_cond name p);
      destruct (scale_lr scale_lr_cond name p); cbn;
      rewrite <- ?app_assoc; reflexivity.
Qed.

Lemma fold_modules (modules : list NamedParameters) (acc : Lists) :
  fold_left
    (fun acc module =>
       fold_left (visit no_weight_decay_cond scale_lr_cond) module acc)
    modules acc
  = mkLists
      (wd_no_scale_lr acc
       ++ of_class no_weight_decay_cond scale_lr_cond modules false false)
      (wd_scale_lr acc
       ++ of_class no_weight_decay_cond scale_lr_cond modules false true)
      (no_wd_no_scale_lr acc
       ++ of_class no_weight_decay_cond scale_lr_cond modules true false)
      (no_wd_scale_lr acc
       ++ of_class no_weight_decay_cond scale_lr_cond modules true true).
Proof.
  revert acc; induction modules as [| m ms IH]; intros acc.
  - unfold of_class. simpl. rewrite !app_nil_r. destruct acc; reflexivity.
  - cbn [fold_left]. rewrite IH, fold_visit.
    cbn [wd_no_scale_lr wd_scale_lr no_wd_no_scale_lr no_wd_scale_lr].
    change (m :: ms) with ([m] ++ ms). rewrite !of_class_app.
    unfold sel. rewrite <- !app_assoc. reflexivity.
Qed.

(** The loops sort the trainable parameters by class. *)
Lemma get_param_groups_closed (modules : list NamedParameters) (lr : Q) :
  get_param_groups modules no_weight_decay_cond scale_lr_cond lr
  = group_if_any
      (of_class no_weight_decay_cond scale_lr_cond modules false false) 1 1
    ++ group_if_any
         (of_class no_weight_decay_cond scale_lr_cond modules false true) 1 lr
    ++ group_if_any
         (of_class no_weight_decay_cond scale_lr_cond modules true false) 0 1
    ++ group_if_any
         (of_class no_weight_decay_cond scale_lr_cond modules true true) 0 lr.
Proof. unfold get_param_groups. rewrite fold_modules. reflexivity. Qed.

Lemma group_if_any_In (l : list Param) (wd lr : Q) (g : ParamGroup) :
  In g (group_if_any l wd lr) -> g = mkGroup l wd lr /\ l <> [].
Proof.
  unfold group_if_any. destruct l as [| p l]; simpl; [tauto |].
  intros [<- | []]. split; [reflexivity | discriminate].
Qed.

Lemma group_if_any_params (l : list Param) (wd lr : Q) :
  concat (map params (group_if_any l wd lr)) = l.
Proof.
  unfold group_if_any. destruct l as [| p l]; simpl; [reflexivity |].
  rewrite app_nil_r. reflexivity.
Qed.

(** X21.  Every group that [get_param_groups] returns is non-empty and
    holds exactly the trainable parameters of one class, in the order of
    the modules: those with or without weight decay, with or without
    scaled learning rate; its [wd_mult] is 0 when the class is exempt
    from weight decay and 1 otherwise, and its [lr_mult] is the
    argument [lr_mult] when the class has a scaled learning rate and 1
    otherwise. *)
Theorem get_param_groups_classes (modules : list NamedParameters) (lr : Q)
  (g : ParamGroup) :
  In g (get_param_groups modules no_weight_decay_cond scale_lr_cond lr) ->
  params g <> []
  /\ exists nowd scale : bool,
       params g
       = of_class no_weight_decay_cond scale_lr_cond modules nowd scale
       /\ wd_mult g = (if nowd then 0 else 1)%Q
       /\ lr_mult g = (if scale then lr else 1)%Q.
Proof.
  rewrite get_param_groups_closed. intros H.
  repeat (apply in_app_or in H; destruct H as [H | H]);
    apply group_if_any_In in H as [-> Hne]; (split; [exact Hne |]).
  - exists false, false. auto.
  - exists false, true. auto.
  - exists true, false. auto.
  - exists true, true. auto.
Qed.

Lemma classes_partition (l : NamedParameters) :
  Permutation
    (sel l false false ++ sel l false true ++ sel l true false
     ++ sel l true true)
    (map snd (filter (fun np => requires_grad (snd np)) l)).
Proof.
  induction l as [| [name p] l IH]; [reflexivity |].
  rewrite !of_class_cons. cbn [fst snd filter].
  set (A := sel l false false) in *. set (B := sel l false true) in *.
  set (C := sel l true false) in *. set (D := sel l true true) in *.
  destruct (requires_grad p); cbn [andb]; [| exact IH].
  apply Permutation_sym. cbn [map snd].
  destruct (no_wd no_weight_decay_cond name p);
    destruct (scale_lr scale_lr_cond name p); cbn [Bool.eqb andb app].
  - replace (A ++ B ++ C ++ p :: D) with ((A ++ B ++ C) ++ p :: D)
      by (rewrite <- !app_assoc; reflexivity).
    apply Permutation_cons_app. rewrite <- !app_assoc.
    apply Permutation_sym. exact IH.
  - replace (A ++ B ++ p :: C ++ D) with ((A ++ B) ++ p :: C ++ D)
      by (rewrite <- !app_assoc; reflexivity).
    apply Permutation_cons_app. rewrite <- !app_assoc.
    apply Permutation_sym. exact IH.
  - apply Permutation_cons_app. apply Permutation_sym. exact IH.
  - constructor. apply Permutation_sym. exact IH.
Qed.

(** X22.  The groups of [get_param_groups] partition the trainable
    parameters: together they hold each parameter that requires a
    gradient as many times as the modules list it, and no parameter that
    does not. *)
Theorem get_param_groups_partition (modules : list NamedParameters) (lr : Q) :
  Permutation
    (concat (map params
       (get_param_groups modules no_weight_decay_cond scale_lr_cond lr)))
    (map snd (filter (fun np => requires_grad (snd np)) (concat modules))).
Proof.
  rewrite get_param_groups_closed.
  rewrite !map_app, !concat_app, !group_if_any_params.
  assert (H := classes_partition (concat modules)).
  unfold sel, of_class in H. cbn [concat] in H. rewrite !app_nil_r in H.
  exact H.
Qed.

End ParamGroupFacts.

(** A weight, a bias and a frozen weight, default conditions: the bias
    is alone in the group without weight decay. *)
Lemma get_param_groups_classes_witness :
  let modules :=
    [[("dense.weight", Optimizer.mkParam true [2; 2] None "dense.weight");
      ("dense.bias", Optimizer.mkParam true [2] None "dense.bias");
      ("embed.weight", Optimizer.mkParam false [4; 2] None "embed.weight")]] in
  let g := Optimizer.mkGroup [Optimizer.mkParam true [2] None "dense.bias"]
             0 1 in
  Optimizer.params g <> []
  /\ exists nowd scale : bool,
       Optimizer.params g = Optimizer.of_class None None modules nowd scale
       /\ Optimizer.wd_mult g = (if nowd then 0 else 1)%Q
       /\ Optimizer.lr_mult g = (if scale then 1 else 1)%Q.
Proof.
  intros modules g.
  apply (@get_param_groups_classes None None modules 1%Q g).
  right. left. reflexivity.
Defined.

Section GroupDefaultsFacts.
Import Optimizer.

Lemma get_setitem_same (d : Dict) (k : string) (v : Value) :
  get (setitem d k v) k = Some v.
Proof.
  induction d as [| [k' w] d IH]; simpl.
  - rewrite String.eqb_refl. reflexivity.
  - destruct (String.eqb_spec k' k) as [-> | Hne]; simpl.
    + rewrite String.eqb_refl. reflexivity.
    + apply String.eqb_neq in Hne. rewrite Hne. exact IH.
Qed.

Lemma get_setitem_other (d : Dict) (k k' : string) (v : Value) :
  k' <> k -> get (setitem d k v) k' = get d k'.
Proof.
  intros Hne. induction d as [| [k0 w] d IH]; simpl.
  - destruct (String.eqb_spec k k'); [congruence | reflexivity].
  - destruct (String.eqb_spec k0 k) as [-> | Hk]; simpl.
    + destruct (String.eqb_spec k k'); [congruence | reflexivity].
    + destruct (String.eqb_spec k0 k'); [reflexivity | exact IH].
Qed.

Lemma has_get (d : Dict) (k : string) :
  has d k = false <-> get d k = None.
Proof. unfold has. destruct (get d k); split; congruence. Qed.

(** Setting a key that is absent keeps every entry. *)
Lemma setitem_keeps (d : Dict) (k : string) (v : Value) k' w :
  get d k = None -> get d k' = Some w -> get (setitem d k v) k' = Some w.
Proof.
  intros Hk Hk'. rewrite get_setitem_other; [exact Hk' |].
  intros ->. congruence.
Qed.

Lemma set_defaults_completed (kwargs : Kwargs) (g g' : Dict) :
  set_defaults kwargs g = inr g' ->
  completed kwargs g g'
  /\ has g' "max_lr" = true /\ has g' "weight_decay" = true
  /\ has g' "min_lr" = true.
Proof.
  unfold set_defaults, kwargs_item.
  (* first default *)
  match goal with
  | |- match ?x with inl _ => _ | inr _ => _ end = _ -> _ =>
      remember x as r1 eqn:E1; symmetry in E1;
      destruct r1 as [e | g1]; [discriminate |]
  end.
  assert (H1 : has g1 "max_lr" = true
               /\ (forall k v, get g k = Some v -> get g1 k = Some v)
               /\ (forall k, k <> "max_lr" -> get g1 k = get g k)
               /\ (get g "max_lr" = None ->
                   exists lr, kwarg kwargs "lr" = Some lr
                              /\ get g1 "max_lr" = Some (VFloat lr))).
  { destruct (has g "max_lr") eqn:Hh.
    - injection E1 as <-. repeat split; auto.
      intros Hn. apply has_get in Hn. congruence.
    - destruct (kwarg kwargs "lr") as [lr |]; [| discriminate].
      injection E1 as <-. apply has_get in Hh. repeat split.
      + unfold has. rewrite get_setitem_same. reflexivity.
      + intros k v Hk. apply setitem_keeps; assumption.
      + intros k Hk. apply get_setitem_other. exact Hk.
      + intros _. exists lr. split; [reflexivity | apply get_setitem_same]. }
  clear E1. destruct H1 as (Hm1 & Hk1 & Ho1 & Hf1).
  (* second default *)
  set (wd := match kwarg kwargs "weight_decay" with
             | Some wd => wd
             | None => 0%Q
             end).
  set (g2 := if has g1 "weight_decay" then g1 else _).
  assert (H2 : has g2 "weight_decay" = true
               /\ (forall k v, get g1 k = Some v -> get g2 k = Some v)
               /\ (forall k, k <> "weight_decay" -> get g2 k = get g1 k)
               /\ (get g1 "weight_decay" = None ->
                   get g2 "weight_decay" = Some (VFloat wd))).
  { subst g2. destruct (has g1 "weight_decay") eqn:Hh.
    - repeat split; auto. intros Hn. apply has_get in Hn. congruence.
    - apply has_get in Hh. repeat split.
      + unfold has. rewrite get_setitem_same. reflexivity.
      + intros k v Hk. apply setitem_keeps; assumption.
      + intros k Hk. apply get_setitem_other. exact Hk.
      + intros _. apply get_setitem_same. }
  clearbody g2. destruct H2 as (Hm2 & Hk2 & Ho2 & Hf2).
  (* third default *)
  intros E3.
  assert (H3 : has g' "min_lr" = true
               /\ (forall k v, get g2 k = Some v -> get g' k = Some v)
               /\ (forall k, k <> "min_lr" -> get g' k = get g2 k)
               /\ (get g2 "min_lr" = None ->
                   exists lr, kwarg kwargs "min_lr" = Some lr
                              /\ get g' "min_lr" = Some (VFloat lr))).
  { destruct (has g2 "min_lr") eqn:Hh.
    - injection E3 as <-. repeat split; auto.
      intros Hn. apply has_get in Hn. congruence.
    - destruct (kwarg kwargs "min_lr") as [lr |]; [| discriminate].
      injection E3 as <-. apply has_get in Hh. repeat split.
      + unfold has. rewrite get_setitem_same. reflexivity.
      + intros k v Hk. apply setitem_keeps; assumption.
      + intros k Hk. apply get_setitem_other. exact Hk.
      + intros _. exists lr. split; [reflexivity | apply get_setitem_same]. }
  clear E3. destruct H3 as (Hm3 & Hk3 & Ho3 & Hf3).
  assert (Hhas : forall d d' k, has d k = true ->
                   (forall k v, get d k = Some v -> get d' k = Some v) ->
                   has d' k = true).
  { intros d d' k Hd Hkeep. unfold has in *.
    destruct (get d k) eqn:E; [| discriminate].
    rewrite (Hkeep _ _ E). reflexivity. }
  split; [| split; [| split]].
  - unfold completed. split; [| split; [| split; [| split]]].
    + intros k v Hk. auto.
    + intros k Ha Hb Hc. rewrite Ho3, Ho2, Ho1; auto.
    + intros Hn. destruct (Hf1 Hn) as (lr & Hlr & Hg). exists lr.
      split; [exact Hlr |]. auto.
    + intros Hn. rewrite Ho3 by discriminate. apply Hf2.
      rewrite Ho1 by discriminate. exact Hn.
    + intros Hn. apply Hf3. rewrite Ho2, Ho1 by discriminate. exact Hn.
  - eapply Hhas; [eapply Hhas; [exact Hm1 | exact Hk2] | exact Hk3].
  - eapply Hhas; [exact Hm2 | exact Hk3].
  - exact Hm3.
Qed.

Lemma set_defaults_fixed (kwargs : Kwargs) (g : Dict) :
  has g "max_lr" = true -> has g "weight_decay" = true ->
  has g "min_lr" = true -> set_defaults kwargs g = inr g.
Proof.
  intros H1 H2 H3. unfold set_defaults. rewrite H1, H2, H3. reflexivity.
Qed.

Lemma set_defaults_all_ok (kwargs : Kwargs) (gs gs' : list Dict) :
  set_defaults_all kwargs gs = inr gs' ->
  Forall2 (completed kwargs) gs gs'
  /\ set_defaults_all kwargs gs' = inr gs'.
Proof.
  revert gs'; induction gs as [| g gs IH]; intros gs'; simpl.
  - intros H; injection H as <-. split; [constructor | reflexivity].
  - destruct (set_defaults kwargs g) as [e | g'] eqn:Eg; [discriminate |].
    destruct (set_defaults_all kwargs gs) as [e | gs''] eqn:Egs;
      [discriminate |].
    intros H; injection H as <-.
    destruct (IH gs'' eq_refl) as [HF Hid].
    apply set_defaults_completed in Eg as (Hc & H1 & H2 & H3).
    split; [constructor; assumption |].
    simpl. rewrite (set_defaults_fixed kwargs _ H1 H2 H3), Hid. reflexivity.
Qed.

(** X23.  When [set_param_groups_defaults] returns, it returns the
    groups it was given (one group holding the parameters when it was
    given bare parameters), each completed with the defaults it lacked:
    [max_lr] from the keyword [lr], [weight_decay] from the keyword of
    that name or 0.0, [min_lr] from the keyword [min_lr]; no entry that
    a group already had is changed and no other key is added; applying
    the function to its own result changes nothing. *)
Theorem set_param_groups_defaults_completes (params : Params)
  (kwargs : Kwargs) (gs' : list Dict) :
  set_param_groups_defaults params kwargs = inr gs' ->
  Forall2 (completed kwargs) (groups_of params) gs'
  /\ set_param_groups_defaults (Groups gs') kwargs = inr gs'.
Proof.
  intros H.
  assert (H' : set_defaults_all kwargs (groups_of params) = inr gs').
  { destruct params as [[| p ps] | [| g gs]]; try discriminate; exact H. }
  apply set_defaults_all_ok in H' as [HF Hid]. split; [exact HF |].
  assert (Hne : gs' <> []).
  { intros ->. inversion HF as [Hg |]. 
    destruct params as [[| p ps] | [| g gs]]; discriminate. }
  destruct gs' as [| g' gs']; [congruence | exact Hid].
Qed.

Lemma has_setitem_other (d : Dict) (k k' : string) (v : Value) :
  k' <> k -> has (setitem d k v) k' = has d k'.
Proof. intros H. unfold has. rewrite get_setitem_other by exact H. reflexivity. Qed.

Lemma set_defaults_returns (kwargs : Kwargs) (g : Dict) :
  (exists g', set_defaults kwargs g = inr g')
  <-> (has g "max_lr" = false -> kwarg kwargs "lr" <> None)
      /\ (has g "min_lr" = false -> kwarg kwargs "min_lr" <> None).
Proof.
  unfold set_defaults, kwargs_item.
  assert (Hmin : forall d : Dict,
             has (if has d "weight_decay" then d
                  else setitem d "weight_decay"
                         (VFloat (match kwarg kwargs "weight_decay" with
                                  | Some wd => wd
                                  | None => 0%Q
                                  end))) "min_lr"
             = has d "min_lr").
  { intros d. destruct (has d "weight_decay"); [reflexivity |].
    apply has_setitem_other. discriminate. }
  assert (Hfin : forall (r : PyError + Dict) (P : Prop),
             (match r with inl _ => ~ P | inr _ => P end) ->
             (exists g', r = inr g') <-> P).
  { intros [e | d] P HP; split; try tauto.
    - intros [g' Hg]. discriminate.
    - eauto. }
  destruct (has g "max_lr") eqn:H1; cbv beta iota.
  - rewrite Hmin. apply Hfin.
    destruct (has g "min_lr") eqn:H3;
      [| destruct (kwarg kwargs "min_lr") as [lr |]]; cbv beta iota.
    + split; intros Hx; discriminate Hx.
    + split; intros Hx; [discriminate Hx | discriminate].
    + intros [_ H]. apply H; reflexivity.
  - destruct (kwarg kwargs "lr") as [lr |]; cbv beta iota.
    + rewrite Hmin, has_setitem_other by discriminate. apply Hfin.
      destruct (has g "min_lr") eqn:H3;
        [| destruct (kwarg kwargs "min_lr") as [lr' |]]; cbv beta iota.
      * split; intros Hx; [discriminate | discriminate Hx].
      * split; intros _; discriminate.
      * intros [_ H]. apply H; reflexivity.
    + apply Hfin. cbv beta iota. intros [H _]. apply H; reflexivity.
Qed.

Lemma set_defaults_all_returns (kwargs : Kwargs) (gs : list Dict) :
  (exists gs', set_defaults_all kwargs gs = inr gs')
  <-> (Exists (fun g => has g "max_lr" = false) gs ->
       kwarg kwargs "lr" <> None)
      /\ (Exists (fun g => has g "min_lr" = false) gs ->
          kwarg kwargs "min_lr" <> None).
Proof.
  induction gs as [| g gs IH]; simpl.
  - split; [| eauto]. intros _. split; intros H; inversion H.
  - split.
    + intros [gs' H].
      destruct (set_defaults kwargs g) as [e | g'] eqn:Eg; [discriminate |].
      destruct (set_defaults_all kwargs gs) as [e | gs''] eqn:Egs;
        [discriminate |].
      assert (Hg : exists g', set_defaults kwargs g = inr g') by eauto.
      apply set_defaults_returns in Hg as [Hg1 Hg2].
      assert (Hr : exists x, @inr PyError _ gs'' = inr x) by eauto.
      apply IH in Hr as [Hr1 Hr2].
      split; intros Hex; inversion Hex; subst; auto.
    + intros [H1 H2].
      assert (Hg : exists g', set_defaults kwargs g = inr g').
      { apply set_defaults_returns. split; intros Hh.
        - apply H1. left. exact Hh.
        - apply H2. left. exact Hh. }
      destruct Hg as [g' ->].
      assert (Hr : exists gs', set_defaults_all kwargs gs = inr gs').
      { apply IH. split; intros Hex.
        - apply H1. right. exact Hex.
        - apply H2. right. exact Hex. }
      destruct Hr as [gs' ->]. eauto.
Qed.

(** X24.  [set_param_groups_defaults] returns exactly when it is given
    at least one parameter or group, the keyword [lr] is present if some
    group lacks [max_lr], and the keyword [min_lr] is present if some
    group lacks [min_lr]; the keyword [weight_decay] is never needed.
    Without any parameter or group it raises IndexError. *)
Theorem set_param_groups_defaults_returns_iff (params : Params)
  (kwargs : Kwargs) :
  ((exists gs', set_param_groups_defaults params kwargs = inr gs')
   <-> groups_of params <> [] /\ params <> Tensors []
       /\ (Exists (fun g => has g "max_lr" = false) (groups_of params) ->
           kwarg kwargs "lr" <> None)
       /\ (Exists (fun g => has g "min_lr" = false) (groups_of params) ->
           kwarg kwargs "min_lr" <> None))
  /\ (groups_of params = [] \/ params = Tensors [] ->
      set_param_groups_defaults params kwargs = inl IndexError).
Proof.
  split.
  - destruct params as [[| p ps] | [| g gs]].
    + split; [intros [gs' H]; discriminate | intros (_ & H & _); congruence].
    + change (set_param_groups_defaults (Tensors (p :: ps)) kwargs)
        with (set_defaults_all kwargs (groups_of (Tensors (p :: ps)))).
      rewrite set_defaults_all_returns. split.
      * intros [H1 H2]. repeat split; try discriminate; assumption.
      * intros (_ & _ & H1 & H2). split; assumption.
    + split; [intros [gs' H]; discriminate | intros (H & _); simpl in H; congruence].
    + change (set_param_groups_defaults (Groups (g :: gs)) kwargs)
        with (set_defaults_all kwargs (groups_of (Groups (g :: gs)))).
      rewrite set_defaults_all_returns. split.
      * intros [H1 H2]. repeat split; try discriminate; assumption.
      * intros (_ & _ & H1 & H2). split; assumption.
  - destruct params as [[| p ps] | [| g gs]]; simpl; intros [H | H];
      try discriminate; reflexivity.
Qed.

End GroupDefaultsFacts.

(** A group with its own [max_lr], completed from [lr] and [min_lr]:
    the [max_lr] of the group stays. *)
Lemma set_param_groups_defaults_completes_witness :
  let g := [("params", Optimizer.VParams []);
            ("max_lr", Optimizer.VFloat 5)] in
  let kwargs := [("lr", 1%Q); ("min_lr", (1 # 10)%Q)] in
  Forall2 (Optimizer.completed kwargs) [g]
    [[("params", Optimizer.VParams []); ("max_lr", Optimizer.VFloat 5);
      ("weight_decay", Optimizer.VFloat 0);
      ("min_lr", Optimizer.VFloat (1 # 10))]].
Proof.
  intros g kwargs.
  exact (proj1 (@set_param_groups_defaults_completes (Optimizer.Groups [g])
                  kwargs _ eq_refl)).
Defined.

(** ** [get_mup_param_groups] *)

Section MupFacts.
Import Optimizer.

Lemma get_app (d1 d2 : Dict) (k : string) :
  get (d1 ++ d2) k = match get d1 k with
                     | Some v => Some v
                     | None => get d2 k
                     end.
Proof.
  induction d1 as [| [k' v] d1 IH]; simpl; [reflexivity |].
  destruct (String.eqb k' k); [reflexivity | exact IH].
Qed.

Lemma get_without_params (d : Dict) (k : string) :
  get (filter (fun '(k', _) => negb (String.eqb k' "params")) d) k
  = if String.eqb k "params" then None else get d k.
Proof.
  induction d as [| [k' v] d IH]; simpl.
  - destruct (String.eqb k "params"); reflexivity.
  - destruct (String.eqb_spec k' "params") as [Ek' | Hne]; simpl.
    + rewrite IH. destruct (String.eqb_spec k "params") as [Ek | Hk];
        [reflexivity |].
      destruct (String.eqb_spec k' k); [congruence | reflexivity].
    + destruct (String.eqb_spec k' k) as [Ek | Hk].
      * rewrite <- Ek. apply String.eqb_neq in Hne. rewrite Hne. reflexivity.
      * exact IH.
Qed.

Lemma new_group_get (g : Dict) (k : string) :
  get (new_group g) k
  = if String.eqb k "params" then Some (VParams []) else get g k.
Proof.
  unfold new_group. rewrite get_app, get_without_params.
  destruct (String.eqb_spec k "params") as [Ek | Hk];
    [rewrite Ek; reflexivity |].
  destruct (get g k); [reflexivity |]. cbn [get].
  destruct (String.eqb_spec "params" k); [congruence | reflexivity].
Qed.

Lemma new_group_params (g : Dict) :
  has_params (new_group g) /\ params_of (new_group g) = [].
Proof.
  unfold has_params, params_of. rewrite new_group_get. simpl. eauto.
Qed.

Lemma append_param_params (d : Dict) (p : Param) :
  has_params d ->
  has_params (append_param d p)
  /\ params_of (append_param d p) = params_of d ++ [p].
Proof.
  intros [ps Hps]. unfold has_params, append_param, params_of. rewrite Hps.
  rewrite get_setitem_same. eauto.
Qed.

Lemma append_param_get (d : Dict) (p : Param) (k : string) :
  k <> "params" -> get (append_param d p) k = get d k.
Proof.
  intros Hk. unfold append_param.
  destruct (get d "params") as [[x | ps] |]; try reflexivity.
  apply get_setitem_other. exact Hk.
Qed.

Lemma setitem_params (d : Dict) (k : string) (v : Value) :
  k <> "params" ->
  (has_params d -> has_params (setitem d k v))
  /\ params_of (setitem d k v) = params_of d.
Proof.
  intros Hk. unfold has_params, params_of.
  rewrite get_setitem_other by congruence. auto.
Qed.

(** What the four collections hold together. *)
Let held (st : Split) : list Param :=
  all_params (map snd (matrix_like_p st)) ++ params_of (input_layer_p st)
  ++ params_of (output_layer_p st) ++ params_of (vector_like_p st).

Let sound (st : Split) : Prop :=
  Forall (fun kd => has_params (snd kd)) (matrix_like_p st)
  /\ has_params (input_layer_p st) /\ has_params (output_layer_p st)
  /\ has_params (vector_like_p st).

Lemma matrix_append_params (m : list (Q * Dict)) (fresh : Dict) (wm : Q)
  (p : Param) :
  Forall (fun kd => has_params (snd kd)) m ->
  has_params fresh -> params_of fresh = [] ->
  Forall (fun kd => has_params (snd kd)) (matrix_append m fresh wm p)
  /\ Permutation (all_params (map snd (matrix_append m fresh wm p)))
                 (p :: all_params (map snd m)).
Proof.
  intros Hm Hf Hfe. unfold all_params.
  induction Hm as [| [k d] m Hd Hm IH]; simpl.
  - destruct (append_param_params p Hf) as [H1 H2]. split.
    + constructor; [exact H1 | constructor].
    + rewrite H2, Hfe. simpl. reflexivity.
  - simpl in Hd. destruct (Qeq_bool k wm); simpl.
    + destruct (append_param_params p Hd) as [H1 H2]. split.
      * constructor; assumption.
      * rewrite H2. rewrite <- app_assoc. simpl.
        apply Permutation_sym. apply Permutation_middle.
    + destruct IH as [IH1 IH2]. split.
      * constructor; assumption.
      * rewrite IH2. apply Permutation_sym, Permutation_middle.
Qed.

Lemma perm_insert {A} (p : A) (l1 l2 l : list A) :
  l = l1 ++ l2 -> Permutation (l1 ++ p :: l2) (p :: l).
Proof. intros ->. apply Permutation_sym, Permutation_middle. Qed.

Lemma place_held (kwargs : Kwargs) (g : Dict) (st st' : Split) (p : Param) :
  sound st -> place kwargs g st p = inr st' ->
  sound st' /\ Permutation (held st') (p :: held st).
Proof.
  intros (Hm & Hi & Ho & Hv). unfold place.
  set (A := all_params (map snd (matrix_like_p st))).
  set (B := params_of (input_layer_p st)).
  set (C := params_of (output_layer_p st)).
  set (D := params_of (vector_like_p st)).
  assert (Hheld : held st = A ++ B ++ C ++ D) by reflexivity.
  rewrite Hheld. clear Hheld.
  destruct (infshape p) as [sh |]; [| discriminate].
  destruct (ninf sh =? 2).
  { intros H; injection H as <-. unfold sound, held. cbn [matrix_like_p
      input_layer_p output_layer_p vector_like_p].
    destruct (new_group_params g) as [Hf Hfe].
    destruct (matrix_append_params (width_mult sh) p Hm Hf Hfe) as [H1 H2].
    split; [repeat split; assumption |].
    fold B C D. rewrite H2. reflexivity. }
  destruct (2 <? ninf sh); [discriminate |].
  destruct (named_with_lr kwargs "embed" "input_lr" p) as [e | [lr |]];
    [discriminate | |].
  { intros H; injection H as <-. unfold sound, held. cbn [matrix_like_p
      input_layer_p output_layer_p vector_like_p].
    destruct (append_param_params p Hi) as [H1 H2].
    destruct (@setitem_params (append_param (input_layer_p st) p) "max_lr"
                (VFloat lr)) as [H3 H4]; [discriminate |].
    split; [repeat split; auto |].
    rewrite H4, H2. fold A B C D.
    replace (A ++ (B ++ [p]) ++ C ++ D) with ((A ++ B) ++ p :: C ++ D)
      by (rewrite <- !app_assoc; reflexivity).
    apply perm_insert. rewrite <- !app_assoc. reflexivity. }
  destruct (named_with_lr kwargs "output" "output_lr" p) as [e | [lr |]];
    [discriminate | |].
  { intros H; injection H as <-. unfold sound, held. cbn [matrix_like_p
      input_layer_p output_layer_p vector_like_p].
    destruct (append_param_params p Ho) as [H1 H2].
    destruct (@setitem_params (append_param (output_layer_p st) p) "max_lr"
                (VFloat lr)) as [H3 H4]; [discriminate |].
    split; [repeat split; auto |].
    rewrite H4, H2. fold A B C D.
    replace (A ++ B ++ (C ++ [p]) ++ D) with ((A ++ B ++ C) ++ p :: D)
      by (rewrite <- !app_assoc; reflexivity).
    apply perm_insert. rewrite <- !app_assoc. reflexivity. }
  intros H; injection H as <-. unfold sound, held. cbn [matrix_like_p
    input_layer_p output_layer_p vector_like_p].
  destruct (append_param_params p Hv) as [H1 H2].
  split; [repeat split; auto |].
  rewrite H2. fold A B C D.
  replace (A ++ B ++ C ++ D ++ [p]) with ((A ++ B ++ C ++ D) ++ p :: [])
    by (rewrite <- !app_assoc; reflexivity).
  apply perm_insert. rewrite app_nil_r. reflexivity.
Qed.

Lemma place_all_held (kwargs : Kwargs) (g : Dict) (ps : list Param)
  (st st' : Split) :
  sound st -> place_all kwargs g st ps = inr st' ->
  sound st' /\ Permutation (held st') (held st ++ ps).
Proof.
  revert st; induction ps as [| p ps IH]; intros st Hs; simpl.
  - intros H; injection H as <-. rewrite app_nil_r. auto.
  - destruct (place kwargs g st p) as [e | st1] eqn:E; [discriminate |].
    intros H. destruct (@place_held kwargs g st st1 p Hs E) as [Hs1 Hp1].
    destruct (IH st1 Hs1 H) as [Hs' Hp']. split; [exact Hs' |].
    rewrite Hp', Hp1. simpl. apply Permutation_middle.
Qed.

Lemma scale_group_params (dwd : bool) (wm : Q) (d d' : Dict) :
  scale_group dwd wm d = inr d' -> params_of d' = params_of d.
Proof.
  unfold scale_group.
  destruct (item_float d "max_lr") as [e | mx]; [discriminate |].
  destruct (Qeq_bool wm 0); [discriminate |].
  destruct (item_float _ "min_lr") as [e | mn]; [discriminate |].
  destruct (Qle_bool mn (mx / wm)); [| discriminate].
  destruct (negb dwd).
  - destruct (item_float _ "weight_decay") as [e | wd]; [discriminate |].
    intros H; injection H as <-.
    rewrite (proj2 (@setitem_params _ "weight_decay" _ ltac:(discriminate))).
    apply (proj2 (@setitem_params _ "max_lr" _ ltac:(discriminate))).
  - intros H; injection H as <-.
    apply (proj2 (@setitem_params _ "max_lr" _ ltac:(discriminate))).
Qed.

Lemma scale_groups_params (dwd : bool) (m m' : list (Q * Dict)) :
  scale_groups dwd m = inr m' ->
  map (fun kd => params_of (snd kd)) m' = map (fun kd => params_of (snd kd)) m.
Proof.
  revert m'; induction m as [| [k d] m IH]; intros m'; simpl.
  - intros H; injection H as <-. reflexivity.
  - destruct (scale_group dwd k d) as [e | d'] eqn:E; [discriminate |].
    destruct (scale_groups dwd m) as [e | m''] eqn:Em; [discriminate |].
    intros H; injection H as <-. simpl.
    rewrite (scale_group_params _ _ _ E), (IH _ eq_refl). reflexivity.
Qed.

Lemma if_params_params (d : Dict) :
  all_params (if_params d) = params_of d
  /\ Forall (fun g => params_of g <> []) (if_params d).
Proof.
  unfold if_params, all_params. destruct (params_of d) as [| p ps] eqn:E; simpl.
  - split; [reflexivity | constructor].
  - rewrite E, app_nil_r. split; [reflexivity |].
    constructor; [rewrite E; discriminate | constructor].
Qed.

Lemma all_params_app (a b : list Dict) :
  all_params (a ++ b) = all_params a ++ all_params b.
Proof. unfold all_params. rewrite map_app, concat_app. reflexivity. Qed.

Lemma flat_if_params (m : list (Q * Dict)) :
  all_params (flat_map (fun '(_, v) => if_params v) m)
  = all_params (map snd m)
  /\ Forall (fun g => params_of g <> [])
            (flat_map (fun '(_, v) => if_params v) m).
Proof.
  induction m as [| [k d] m [IH1 IH2]]; simpl.
  - split; [reflexivity | constructor].
  - destruct (if_params_params d) as [H1 H2]. split.
    + rewrite all_params_app, H1, IH1. reflexivity.
    + apply Forall_app. split; assumption.
Qed.

Lemma split_group_partition (dwd : bool) (kwargs : Kwargs) (g : Dict)
  (gs : list Dict) :
  split_group dwd kwargs g = inr gs ->
  Permutation (all_params gs) (params_of g)
  /\ Forall (fun g' => params_of g' <> []) gs.
Proof.
  unfold split_group.
  destruct (item_params g) as [e | ps] eqn:Eps; [discriminate |].
  assert (Hps : params_of g = ps).
  { unfold item_params in Eps. unfold params_of.
    destruct (get g "params") as [[x | ps'] |]; try discriminate.
    injection Eps as <-. reflexivity. }
  destruct (place_all _ _ _ ps) as [e | st] eqn:Est; [discriminate |].
  destruct (scale_groups dwd (matrix_like_p st)) as [e | m] eqn:Em;
    [discriminate |].
  intros H; injection H as <-.
  destruct (new_group_params g) as [Hf Hfe].
  apply place_all_held in Est as [_ Hperm].
  2:{ unfold sound. cbn. repeat split; try assumption. constructor. }
  unfold held in Hperm. cbn [matrix_like_p input_layer_p output_layer_p
    vector_like_p] in Hperm. rewrite !Hfe in Hperm. cbn in Hperm.
  apply scale_groups_params in Em.
  destruct (flat_if_params m) as [Hm1 Hm2].
  destruct (if_params_params (input_layer_p st)) as [Hi1 Hi2].
  destruct (if_params_params (output_layer_p st)) as [Ho1 Ho2].
  destruct (if_params_params (vector_like_p st)) as [Hv1 Hv2].
  split.
  - rewrite !all_params_app, Hm1, Hi1, Ho1, Hv1, Hps.
    unfold all_params in *. rewrite map_map, Em, <- map_map. exact Hperm.
  - repeat (apply Forall_app; split); assumption.
Qed.

Lemma split_groups_partition (dwd : bool) (kwargs : Kwargs)
  (groups gs : list Dict) :
  split_groups dwd kwargs groups = inr gs ->
  Permutation (all_params gs) (all_params groups)
  /\ Forall (fun g' => params_of g' <> []) gs.
Proof.
  revert gs; induction groups as [| g groups IH]; intros gs; simpl.
  - intros H; injection H as <-. split; [reflexivity | constructor].
  - destruct (split_group dwd kwargs g) as [e | new] eqn:E; [discriminate |].
    destruct (split_groups dwd kwargs groups) as [e | rest] eqn:Er;
      [discriminate |].
    intros H; injection H as <-.
    apply split_group_partition in E as [E1 E2].
    destruct (IH _ eq_refl) as [IH1 IH2]. split.
    + rewrite all_params_app. unfold all_params at 3. simpl.
      fold (all_params groups). apply Permutation_app; assumption.
    + apply Forall_app. split; assumption.
Qed.

Lemma completed_params (kwargs : Kwargs) (gs gs' : list Dict) :
  Forall2 (completed kwargs) gs gs' ->
  Forall has_params gs -> all_params gs' = all_params gs.
Proof.
  intros H Hp. unfold all_params. f_equal.
  induction H as [| g g' gs gs' Hc _ IH]; simpl; [reflexivity |].
  rewrite IH by exact (Forall_inv_tail Hp). f_equal.
  destruct (Forall_inv Hp) as [ps Hps]. destruct Hc as (Hkeep & _).
  unfold params_of. rewrite (Hkeep _ _ Hps), Hps. reflexivity.
Qed.

(** X25.  When [get_mup_param_groups] returns, the groups it returns
    partition the parameters of the groups it was given (or the bare
    parameters it was given): every parameter is in exactly one new
    group, as many times as it was listed, and no returned group is
    empty. *)
Theorem get_mup_param_groups_partition (params : Params) (decoupled_wd : bool)
  (kwargs : Kwargs) (gs : list Dict) :
  Forall has_params (groups_of params) ->
  get_mup_param_groups params decoupled_wd kwargs = inr gs ->
  Permutation (all_params gs) (all_params (groups_of params))
  /\ Forall (fun g => params_of g <> []) gs.
Proof.
  intros Hp. unfold get_mup_param_groups.
  destruct (set_param_groups_defaults params kwargs) as [e | groups] eqn:E;
    [discriminate |].
  intros H. apply split_groups_partition in H as [H1 H2].
  split; [| exact H2]. rewrite H1.
  assert (E' : set_defaults_all kwargs (groups_of params) = inr groups).
  { destruct params as [[| p ps] | [| g gs0]]; try discriminate; exact E. }
  apply set_defaults_all_ok in E' as [HF _].
  rewrite (completed_params HF Hp). reflexivity.
Qed.

Section Rates.
Variable kwargs : Kwargs.
Variable g : Dict.

(** The entries of [d] other than ['params'] are those of [g]. *)
Let same_attrs (d : Dict) : Prop :=
  forall key, key <> "params" -> get d key = get g key.

Let same_attrs_but_lr (d : Dict) : Prop :=
  forall key, key <> "params" -> key <> "max_lr" -> get d key = get g key.

Let small (p : Param) (sh : InfShape) : Prop :=
  infshape p = Some sh /\ (ninf sh =? 2) = false /\ (2 <? ninf sh) = false.

Let matrix_ok (kd : Q * Dict) : Prop :=
  has_params (snd kd) /\ same_attrs (snd kd)
  /\ Forall (fun p => exists sh, infshape p = Some sh
                                 /\ (ninf sh =? 2) = true
                                 /\ Qeq_bool (fst kd) (width_mult sh) = true)
            (params_of (snd kd)).

Let layer_ok (word key : string) (pre : Param -> Prop) (d : Dict) : Prop :=
  has_params d /\ same_attrs_but_lr d
  /\ Forall (fun p => exists sh lr,
                 small p sh /\ pre p
                 /\ named_with_lr kwargs word key p = inr (Some lr)
                 /\ get d "max_lr" = Some (VFloat lr))
            (params_of d).

Let no_embed (p : Param) : Prop :=
  named_with_lr kwargs "embed" "input_lr" p = inr None.

Let vector_ok (d : Dict) : Prop :=
  has_params d /\ same_attrs d
  /\ Forall (fun p => exists sh,
                 small p sh /\ no_embed p
                 /\ named_with_lr kwargs "output" "output_lr" p = inr None)
            (params_of d).

Let rates_ok (st : Split) : Prop :=
  Forall matrix_ok (matrix_like_p st)
  /\ layer_ok "embed" "input_lr" (fun _ => True) (input_layer_p st)
  /\ layer_ok "output" "output_lr" no_embed (output_layer_p st)
  /\ vector_ok (vector_like_p st).

Lemma fresh_attrs : same_attrs (new_group g).
Proof.
  intros key Hk. rewrite new_group_get.
  apply String.eqb_neq in Hk. rewrite Hk. reflexivity.
Qed.

Lemma named_lr_kwarg (word key : string) (p : Param) (lr : Q) :
  named_with_lr kwargs word key p = inr (Some lr) ->
  kwarg kwargs key = Some lr.
Proof.
  unfold named_with_lr, kwargs_item. destruct (contains word (var_name p));
    [| discriminate].
  destruct (kwarg kwargs key) as [v |]; [| discriminate].
  destruct (negb (Qle_bool v 0)); [| discriminate].
  intros H; injection H as <-. reflexivity.
Qed.

Lemma matrix_append_ok (m : list (Q * Dict)) (p : Param) (sh : InfShape) :
  Forall matrix_ok m -> infshape p = Some sh -> (ninf sh =? 2) = true ->
  Forall matrix_ok (matrix_append m (new_group g) (width_mult sh) p).
Proof.
  intros Hm Hsh Hn. induction Hm as [| [k d] m (Hp & Ha & Hf) Hm IH]; simpl.
  - constructor; [| constructor].
    destruct (new_group_params g) as [Hfp Hfe].
    destruct (append_param_params p Hfp) as [H1 H2].
    split; [exact H1 |]. split.
    + intros key Hk. simpl. rewrite append_param_get by exact Hk.
      apply fresh_attrs. exact Hk.
    + simpl. rewrite H2, Hfe. simpl. constructor; [| constructor].
      exists sh. repeat split; try assumption. apply Qeq_bool_refl.
  - simpl in Hp, Ha, Hf. destruct (Qeq_bool k (width_mult sh)) eqn:Ek.
    + constructor; [| exact Hm].
      destruct (append_param_params p Hp) as [H1 H2].
      split; [exact H1 |]. split.
      * intros key Hk. simpl. rewrite append_param_get by exact Hk.
        apply Ha. exact Hk.
      * simpl. rewrite H2. apply Forall_app. split; [exact Hf |].
        constructor; [| constructor]. exists sh. auto.
    + constructor; [| exact IH]. repeat split; assumption.
Qed.

Lemma layer_append_ok (word key : string) (pre : Param -> Prop) (d : Dict)
  (p : Param) (sh : InfShape) (lr : Q) :
  layer_ok word key pre d -> small p sh -> pre p ->
  named_with_lr kwargs word key p = inr (Some lr) ->
  layer_ok word key pre (setitem (append_param d p) "max_lr" (VFloat lr)).
Proof.
  intros (Hp & Ha & Hf) Hs Hpre Hn.
  destruct (append_param_params p Hp) as [H1 H2].
  destruct (@setitem_params (append_param d p) "max_lr" (VFloat lr))
    as [H3 H4]; [discriminate |].
  split; [auto |]. split.
  - intros k Hk Hk'. rewrite get_setitem_other by exact Hk'.
    rewrite append_param_get by exact Hk. apply Ha; assumption.
  - rewrite H4, H2. apply Forall_app. split.
    + eapply Forall_impl; [| exact Hf].
      intros q (sh' & lr' & Hs' & Hpre' & Hn' & _).
      exists sh', lr'. repeat split; try apply Hs'; try assumption.
      rewrite get_setitem_same.
      apply named_lr_kwarg in Hn, Hn'. congruence.
    + constructor; [| constructor]. exists sh, lr.
      repeat split; try apply Hs; try assumption. apply get_setitem_same.
Qed.

Lemma place_ok (st st' : Split) (p : Param) :
  rates_ok st -> place kwargs g st p = inr st' -> rates_ok st'.
Proof.
  intros (Hm & Hi & Ho & Hv). unfold place.
  destruct (infshape p) as [sh |] eqn:Esh; [| discriminate].
  destruct (ninf sh =? 2) eqn:E2.
  { intros H; injection H as <-. unfold rates_ok. cbn [matrix_like_p
      input_layer_p output_layer_p vector_like_p].
    repeat split; try assumption; try apply Hi; try apply Ho; try apply Hv.
    apply matrix_append_ok; assumption. }
  destruct (2 <? ninf sh) eqn:E3; [discriminate |].
  assert (Hs : small p sh) by (repeat split; assumption).
  destruct (named_with_lr kwargs "embed" "input_lr" p) as [e | [lr |]] eqn:Ei;
    [discriminate | |].
  { intros H; injection H as <-. unfold rates_ok. cbn [matrix_like_p
      input_layer_p output_layer_p vector_like_p].
    split; [exact Hm |]. split; [| split; assumption].
    eapply layer_append_ok; eauto. }
  destruct (named_with_lr kwargs "output" "output_lr" p) as [e | [lr |]] eqn:Eo;
    [discriminate | |].
  { intros H; injection H as <-. unfold rates_ok. cbn [matrix_like_p
      input_layer_p output_layer_p vector_like_p].
    split; [exact Hm |]. split; [exact Hi |]. split; [| exact Hv].
    eapply layer_append_ok; eauto. }
  intros H; injection H as <-. unfold rates_ok. cbn [matrix_like_p
    input_layer_p output_layer_p vector_like_p].
  split; [exact Hm |]. split; [exact Hi |]. split; [exact Ho |].
  destruct Hv as (Hp & Ha & Hf).
  destruct (append_param_params p Hp) as [H1 H2].
  split; [exact H1 |]. split.
  - intros key Hk. rewrite append_param_get by exact Hk. apply Ha. exact Hk.
  - rewrite H2. apply Forall_app. split; [exact Hf |].
    constructor; [| constructor]. exists sh. auto.
Qed.

Lemma place_all_ok (ps : list Param) (st st' : Split) :
  rates_ok st -> place_all kwargs g st ps = inr st' -> rates_ok st'.
Proof.
  revert st; induction ps as [| p ps IH]; intros st Hs; simpl.
  - intros H; injection H as <-. exact Hs.
  - destruct (place kwargs g st p) as [e | st1] eqn:E; [discriminate |].
    intros H. eapply IH; [| exact H]. eapply place_ok; eauto.
Qed.

Lemma item_float_get (d : Dict) (key : string) (x : Q) :
  item_float d key = inr x <-> get d key = Some (VFloat x).
Proof.
  unfold item_float. destruct (get d key) as [[y | ps] |]; split;
    intros H; try discriminate; injection H as <-; reflexivity.
Qed.

Lemma small_lt (p : Param) (sh : InfShape) : small p sh -> ninf sh < 2.
Proof.
  intros (_ & H1 & H2). apply Nat.eqb_neq in H1. apply Nat.ltb_ge in H2. lia.
Qed.

Lemma scale_group_ok (dwd : bool) (k : Q) (d d' : Dict) :
  matrix_ok (k, d) -> scale_group dwd k d = inr d' ->
  Forall (scaled_for dwd kwargs g d') (params_of d').
Proof.
  intros (Hp & Ha & Hf) H. simpl in Hp, Ha, Hf.
  rewrite (scale_group_params _ _ _ H). revert H. unfold scale_group.
  destruct (item_float d "max_lr") as [e | mx] eqn:Emx; [discriminate |].
  destruct (Qeq_bool k 0) eqn:Ek0; [discriminate |].
  set (d1 := setitem d "max_lr" (VFloat (mx / k))).
  destruct (item_float d1 "min_lr") as [e | mn] eqn:Emn; [discriminate |].
  destruct (Qle_bool mn (mx / k)) eqn:Ele; [| discriminate].
  assert (Hmx : item_float g "max_lr" = inr mx).
  { apply item_float_get. rewrite <- Ha by discriminate.
    apply item_float_get. exact Emx. }
  assert (Hmn1 : get d1 "min_lr" = Some (VFloat mn))
    by (apply item_float_get; exact Emn).
  assert (Hmn : item_float g "min_lr" = inr mn).
  { apply item_float_get. rewrite <- Ha by discriminate.
    unfold d1 in Hmn1. rewrite get_setitem_other in Hmn1 by discriminate.
    exact Hmn1. }
  assert (Hwd1 : get d1 "weight_decay" = get g "weight_decay").
  { unfold d1. rewrite get_setitem_other by discriminate.
    apply Ha. discriminate. }
  intros H.
  assert (Hd' : get d' "max_lr" = Some (VFloat (mx / k))
                /\ get d' "min_lr" = Some (VFloat mn)
                /\ if dwd then get d' "weight_decay" = get g "weight_decay"
                   else exists wd, item_float g "weight_decay" = inr wd
                                   /\ get d' "weight_decay"
                                      = Some (VFloat (wd * k))).
  { destruct dwd; simpl negb in H; cbv iota in H.
    - injection H as <-. repeat split; try assumption.
      apply get_setitem_same.
    - destruct (item_float d1 "weight_decay") as [e | wd] eqn:Ewd;
        [discriminate |].
      injection H as <-.
      rewrite !get_setitem_other by discriminate. split; [| split].
      + apply get_setitem_same.
      + exact Hmn1.
      + exists wd. split; [| apply get_setitem_same].
        apply item_float_get. rewrite <- Hwd1. apply item_float_get.
        exact Ewd. }
  destruct Hd' as (D1 & D2 & D3).
  eapply Forall_impl; [| exact Hf].
  intros p (sh & Hsh & Hn & Hq). exists sh. split; [exact Hsh |].
  rewrite Hn. exists mx, mn, k. repeat split; assumption.
Qed.

Lemma scale_groups_ok (dwd : bool) (m m' : list (Q * Dict)) :
  Forall matrix_ok m -> scale_groups dwd m = inr m' ->
  Forall (fun kd => Forall (scaled_for dwd kwargs g (snd kd))
                           (params_of (snd kd))) m'.
Proof.
  intros Hm; revert m'. induction Hm as [| [k d] m Hd _ IH]; intros m'; simpl.
  - intros H; injection H as <-. constructor.
  - destruct (scale_group dwd k d) as [e | d'] eqn:E; [discriminate |].
    destruct (scale_groups dwd m) as [e | m''] eqn:Em; [discriminate |].
    intros H; injection H as <-. constructor; [| apply IH; reflexivity].
    simpl. eapply scale_group_ok; eauto.
Qed.

Lemma layer_scaled (dwd : bool) (d : Dict) :
  layer_ok "embed" "input_lr" (fun _ => True) d ->
  Forall (scaled_for dwd kwargs g d) (params_of d).
Proof.
  intros (_ & Ha & Hf). eapply Forall_impl; [| exact Hf].
  intros p (sh & lr & Hs & _ & Hn & Hlr). exists sh.
  split; [apply Hs |]. rewrite (proj1 (proj2 Hs)).
  split; [exact (small_lt Hs) |].
  split; [apply Ha; discriminate |]. split; [apply Ha; discriminate |].
  rewrite Hn. exact Hlr.
Qed.

Lemma output_scaled (dwd : bool) (d : Dict) :
  layer_ok "output" "output_lr" no_embed d ->
  Forall (scaled_for dwd kwargs g d) (params_of d).
Proof.
  intros (_ & Ha & Hf). eapply Forall_impl; [| exact Hf].
  intros p (sh & lr & Hs & Hne & Hn & Hlr). exists sh.
  split; [apply Hs |]. rewrite (proj1 (proj2 Hs)).
  split; [exact (small_lt Hs) |].
  split; [apply Ha; discriminate |]. split; [apply Ha; discriminate |].
  unfold no_embed in Hne. rewrite Hne, Hn. exact Hlr.
Qed.

Lemma vector_scaled (dwd : bool) (d : Dict) :
  vector_ok d -> Forall (scaled_for dwd kwargs g d) (params_of d).
Proof.
  intros (_ & Ha & Hf). eapply Forall_impl; [| exact Hf].
  intros p (sh & Hs & Hne & Hn). exists sh.
  split; [apply Hs |]. rewrite (proj1 (proj2 Hs)).
  split; [exact (small_lt Hs) |].
  split; [apply Ha; discriminate |]. split; [apply Ha; discriminate |].
  unfold no_embed in Hne. rewrite Hne, Hn. apply Ha. discriminate.
Qed.

Lemma if_params_In (d g' : Dict) : In g' (if_params d) -> g' = d.
Proof.
  unfold if_params. destruct (params_of d); simpl; [tauto |].
  intros [<- | []]. reflexivity.
Qed.

Lemma split_group_rates (dwd : bool) (gs : list Dict) :
  split_group dwd kwargs g = inr gs ->
  Forall (fun g' => Forall (scaled_for dwd kwargs g g') (params_of g')) gs.
Proof.
  unfold split_group.
  destruct (item_params g) as [e | ps]; [discriminate |].
  destruct (place_all _ _ _ ps) as [e | st] eqn:Est; [discriminate |].
  destruct (scale_groups dwd (matrix_like_p st)) as [e | m] eqn:Em;
    [discriminate |].
  intros H; injection H as <-.
  apply place_all_ok in Est.
  2:{ destruct (new_group_params g) as [Hfp Hfe].
      unfold rates_ok. cbn [matrix_like_p input_layer_p output_layer_p
        vector_like_p].
      split; [constructor |].
      split; [| split]; (split; [exact Hfp |]);
        (split; [| rewrite Hfe; constructor]).
      - intros key Hk _. apply fresh_attrs. exact Hk.
      - intros key Hk _. apply fresh_attrs. exact Hk.
      - apply fresh_attrs. }
  destruct Est as (Hm & Hi & Ho & Hv).
  apply (scale_groups_ok dwd Hm) in Em.
  apply Forall_forall. intros g' Hin.
  repeat (apply in_app_or in Hin; destruct Hin as [Hin | Hin]).
  - apply in_flat_map in Hin as ([k d] & Hkd & Hin).
    apply if_params_In in Hin. subst g'.
    rewrite Forall_forall in Em. exact (Em _ Hkd).
  - apply if_params_In in Hin. subst g'. apply layer_scaled. exact Hi.
  - apply if_params_In in Hin. subst g'. apply output_scaled. exact Ho.
  - apply if_params_In in Hin. subst g'. apply vector_scaled. exact Hv.
Qed.

End Rates.

Lemma split_groups_rates (dwd : bool) (kwargs : Kwargs)
  (groups gs : list Dict) :
  split_groups dwd kwargs groups = inr gs ->
  Forall (fun g' => exists g, In g groups
                      /\ Forall (scaled_for dwd kwargs g g') (params_of g'))
         gs.
Proof.
  revert gs; induction groups as [| g groups IH]; intros gs; simpl.
  - intros H; injection H as <-. constructor.
  - destruct (split_group dwd kwargs g) as [e | new] eqn:E; [discriminate |].
    destruct (split_groups dwd kwargs groups) as [e | rest] eqn:Er;
      [discriminate |].
    intros H; injection H as <-. apply Forall_app. split.
    + apply split_group_rates in E. eapply Forall_impl; [| exact E].
      intros g' Hg'. exists g. auto.
    + eapply Forall_impl; [| exact (IH _ eq_refl)].
      intros g' (g0 & Hin & Hg'). exists g0. auto.
Qed.

(** X26.  When [get_mup_param_groups] returns, every parameter of every
    returned group has an [infshape] with at most two infinite
    dimensions and sits in a group with the settings of its kind,
    derived from one of the groups completed by
    [set_param_groups_defaults]: with two infinite dimensions, [max_lr]
    divided by the width multiplier of the parameter, not below the
    unchanged [min_lr], and [weight_decay] multiplied by it unless
    [decoupled_wd]; with fewer, the keyword [input_lr] when the name
    contains embed and [input_lr] is positive, else the keyword
    [output_lr] when the name contains output and [output_lr] is
    positive, else the group's own [max_lr]. *)
Theorem get_mup_param_groups_rates (params : Params) (decoupled_wd : bool)
  (kwargs : Kwargs) (gs : list Dict) :
  get_mup_param_groups params decoupled_wd kwargs = inr gs ->
  exists groups,
    set_param_groups_defaults params kwargs = inr groups
    /\ Forall (fun g' =>
                 exists g, In g groups
                           /\ Forall (scaled_for decoupled_wd kwargs g g')
                                     (params_of g')) gs.
Proof.
  unfold get_mup_param_groups.
  destruct (set_param_groups_defaults params kwargs) as [e | groups];
    [discriminate |].
  intros H. exists groups. split; [reflexivity |].
  apply split_groups_rates. exact H.
Qed.

End MupFacts.

(** A matrix-like weight of width multiplier 2, an embedding and a bias,
    given bare, with an input learning rate of 1/2. *)
Lemma get_mup_param_groups_partition_witness :
  let p1 := Optimizer.mkParam true [4; 4]
              (Some (Optimizer.mkInfShape 2 2)) "layers.0.weight" in
  let p2 := Optimizer.mkParam true [8; 4]
              (Some (Optimizer.mkInfShape 1 1)) "embedding.weight" in
  let p3 := Optimizer.mkParam true [4]
              (Some (Optimizer.mkInfShape 1 1)) "layers.0.bias" in
  let kwargs := [("lr", 1%Q); ("min_lr", (1 # 10)%Q);
                 ("weight_decay", (1 # 100)%Q); ("input_lr", (1 # 2)%Q);
                 ("output_lr", 0%Q)] in
  let gs := match Optimizer.get_mup_param_groups
                    (Optimizer.Tensors [p1; p2; p3]) true kwargs with
            | inr gs => gs
            | inl _ => []
            end in
  length gs = 3
  /\ Permutation (Optimizer.all_params gs) [p1; p2; p3]
  /\ Forall (fun g => Optimizer.params_of g <> []) gs.
Proof.
  intros p1 p2 p3 kwargs gs. split; [reflexivity |].
  apply (@get_mup_param_groups_partition (Optimizer.Tensors [p1; p2; p3])
           true kwargs gs).
  - constructor; [| constructor]. exists [p1; p2; p3]. reflexivity.
  - reflexivity.
Defined.

Lemma get_mup_param_groups_rates_witness :
  let p1 := Optimizer.mkParam true [4; 4]
              (Some (Optimizer.mkInfShape 2 2)) "layers.0.weight" in
  let p2 := Optimizer.mkParam true [8; 4]
              (Some (Optimizer.mkInfShape 1 1)) "embedding.weight" in
  let kwargs := [("lr", 1%Q); ("min_lr", (1 # 10)%Q);
                 ("weight_decay", (1 # 100)%Q); ("input_lr", (1 # 2)%Q);
                 ("output_lr", 0%Q)] in
  let gs := match Optimizer.get_mup_param_groups
                    (Optimizer.Tensors [p1; p2]) false kwargs with
            | inr gs => gs
            | inl _ => []
            end in
  exists groups,
    Optimizer.set_param_groups_defaults (Optimizer.Tensors [p1; p2]) kwargs
    = inr groups
    /\ Forall (fun g' =>
                 exists g, In g groups
                           /\ Forall (Optimizer.scaled_for false kwargs g g')
                                     (Optimizer.params_of g')) gs.
Proof.
  intros p1 p2 kwargs gs.
  apply (@get_mup_param_groups_rates (Optimizer.Tensors [p1; p2]) false
           kwargs gs).
  reflexivity.
Defined.

(** * The jitter sampler that cannot be built *)

Section JitterRejected.
Context {Sc : Scalar} {U : MoEUtils}.
Variable self : TopKRouter.

(** X27.  When an input-jitter epsilon is configured, no sampler exists
    yet and [1 - eps] is not below [1 + eps] as 32-bit floats (an
    epsilon that is zero or negative, say), [routing] raises the
    ValueError of [Uniform] on every input that can be seen as rows of
    [num_moe_experts] logits, whatever the routing type: the dispatch is
    not reached.  The z-loss is recorded by then; no draw is consumed
    and no sampler is kept, so the next call raises again. *)
Theorem routing_jitter_rejected (logits l0 : Tensor) (s : RouterState) :
  view logits (num_moe_experts (config (base self))) = inr l0 ->
  jitter_ready self s = false ->
  exists s',
    routing self logits s
    = (inl (ValueError "Uniform is not defined when low>= high"), s')
    /\ aux_losses s' = z_losses self l0 ++ aux_losses s
    /\ rng_pos s' = rng_pos s
    /\ input_jitter s' = None
    /\ jitter_ready self s' = false.
Proof.
  intros Hv Hready.
  destruct (apply_z_loss_total self l0 s) as (s1 & Hz & Hj1 & Hp1 & _ & Ha1).
  assert (Hready1 : jitter_ready self s1 = false)
    by (rewrite (jitter_ready_same self _ _ Hj1); exact Hready).
  exists s1. split; [| split; [| split; [| split]]].
  - rewrite routing_unfold.
    erewrite bind_continues by (unfold lift; rewrite Hv; reflexivity).
    erewrite bind_continues by exact Hz.
    unfold bind. rewrite (apply_input_jitter_raises self l0 s1 Hready1).
    reflexivity.
  - rewrite Ha1. unfold z_losses. destruct (moe_z_loss_coeff _); reflexivity.
  - exact Hp1.
  - rewrite Hj1. unfold jitter_ready in Hready.
    destruct (moe_input_jitter_eps _); [| discriminate Hready].
    destruct (input_jitter s); [discriminate Hready | reflexivity].
  - exact Hready1.
Qed.

End JitterRejected.

(** Top-2 routing without balancing, a z-loss and a jitter of epsilon 0:
    the call raises after one loss is recorded, at position 0 of the
    stream. *)
Lemma routing_jitter_rejected_witness :
  let r := router_of (config8 2 "none" "" "" 0 (Some (1 # 1000)%Q)
                        (Some 0%Q) None 1) true in
  let x := tensor Float32 example_logits in
  exists s',
    routing r x state0
    = (inl (ValueError "Uniform is not defined when low>= high"), s')
    /\ length (aux_losses s') = 1 /\ rng_pos s' = 0.
Proof.
  intros r x.
  assert (Hv : view x 8 = inr x)
    by (apply view_rows; [lia | repeat constructor]).
  destruct (@routing_jitter_rejected QScalar QUtils r x x state0 Hv eq_refl)
    as (s' & E & Ha & Hp & _).
  exists s'. split; [exact E |]. split.
  - rewrite Ha. reflexivity.
  - rewrite Hp. reflexivity.
Defined.
